(** * Bounding-box camera: clipping, merging, scanning and outline drawing

    A shallow embedding of the engine-independent parts of
    [Ogre2BoundingBoxCamera]: the Cohen-Sutherland clipper
    ([ClipToViewPort], [LocationRelativeToViewPort], [AddToViewportLines]),
    the 2D merge ([MergeBoxes2D]), the identifier-buffer scans
    ([MarkVisibleBoxes], [VisibleBoundingBoxes]), the off-screen test and
    pixel conversion of [FullBoundingBoxes] / [ConvertToScreenCoord], and
    the line rasteriser ([DrawLine]).  Around these: the two branches of
    [DrawBoundingBox], the loop of [VisibleBoundingBoxes] that turns
    boundaries into boxes, [MeshMinimalBox] and the loop of
    [FullBoundingBoxes] over the items, and the grouping by parent name
    of [MergeMultiLinksModels2D].

    Numbers.  The clipper computes on C++ [double] values.  It is written
    once, over the operations it applies to them (class [Arithmetic]), and
    read at the instance [binary64], the IEEE 754 double-precision
    numbers with their correctly rounded operations, which is what the
    program runs on; the statements about it hold for any instance or
    are made at [binary64].  The instance [exact], the rationals with
    exact operations, is the arithmetic the algorithm is designed on; it
    serves the lemmas on that design.  The values that reach the clipper
    are single-precision numbers ([Ogre::Vector4] components) widened to
    [double]: [Double.to_single] rounds to them.  The conversion of
    [ConvertToScreenCoord] is given in [binary64] as well
    ([FullBox.Binary64]).  Pixel quantities (centres, sizes and corners
    of 2D boxes) are whole or half pixels in every box the camera
    builds; on such values the [double] operations of the source are
    exact, and these quantities are rationals here.  [uint32_t] values
    are integers of type [Z] reduced modulo [2^32] wherever the source
    computes in that type; the [int] outcodes are small non-negative
    [Z] combined with [Z.lor] and [Z.land]. *)

From Stdlib Require Import ZArith QArith Qround Qabs Lia Lqa List Bool.
From Stdlib Require Floats.
From Stdlib Require Uint63.
From Stdlib Require String Ascii.
From stdpp Require Import gmap list sorting.

Local Open Scope Z_scope.

(** ** Numeric conventions shared by all components *)

Definition UINT32_MAX : Z := 4294967295.

(** Arithmetic in [uint32_t] wraps modulo [2^32]. *)
Definition wrap32 (z : Z) : Z := z mod 2 ^ 32.

(** Conversion of a [double] to [uint32_t]: the fractional part is
    discarded (truncation toward zero).  For a value whose truncation is
    outside [0, 2^32) the C++ standard leaves the result open; the model
    takes the usual two's-complement outcome, the truncation reduced
    modulo [2^32]. *)
Definition Qtrunc (q : Q) : Z := Z.quot (Qnum q) (Zpos (Qden q)).
Definition to_uint32 (q : Q) : Z := wrap32 (Qtrunc q).

(** [math::Vector2<T>]. *)
Record Vector2 (T : Type) := Vec2 { X : T; Y : T }.
Arguments Vec2 {T} _ _.
Arguments X {T} _.
Arguments Y {T} _.

(** [math::Vector4<T>] as used for viewport bounds: xmin, ymin, xmax,
    ymax are its components 0 to 3. *)
Record Vector4 (T : Type) :=
  Vec4 { b_xmin : T; b_ymin : T; b_xmax : T; b_ymax : T }.
Arguments Vec4 {T} _ _ _ _.
Arguments b_xmin {T} _.
Arguments b_ymin {T} _.
Arguments b_xmax {T} _.
Arguments b_ymax {T} _.

(** ** The operations on [double] that the clipper uses *)

Class Arithmetic (T : Type) := {
  d_add : T -> T -> T;
  d_sub : T -> T -> T;
  d_mul : T -> T -> T;
  d_div : T -> T -> T;
  (** [a < b]; [a > b] is [d_lt b a]. *)
  d_lt : T -> T -> bool;
  (** [std::isfinite]. *)
  d_isfinite : T -> bool }.

Declare Scope double_scope.
Delimit Scope double_scope with D.
Infix "+" := d_add : double_scope.
Infix "-" := d_sub : double_scope.
Infix "*" := d_mul : double_scope.
Infix "/" := d_div : double_scope.
Notation "a <? b" := (d_lt a b) : double_scope.
Notation "a >? b" := (d_lt b a) : double_scope.

(** IEEE 754 binary64 with round-to-nearest-even operations: a [double]
    as the compiled program computes with it. *)
#[global] Instance binary64 : Arithmetic PrimFloat.float := {|
  d_add := PrimFloat.add;
  d_sub := PrimFloat.sub;
  d_mul := PrimFloat.mul;
  d_div := PrimFloat.div;
  d_lt := PrimFloat.ltb;
  d_isfinite := PrimFloat.is_finite |}.

(** Exact arithmetic on the rationals: no rounding, no overflow, no
    special values.  [Qdiv] is total (division by zero gives zero). *)
#[global] Instance exact : Arithmetic Q := {|
  d_add := Qplus;
  d_sub := Qminus;
  d_mul := Qmult;
  d_div := Qdiv;
  d_lt := fun a b => if Qlt_le_dec a b then true else false;
  d_isfinite := fun _ => true |}.

(** ** Conversions of [double] values *)

Module Double.
Import SpecFloat PrimFloat FloatOps.

(** The integer part of a number, toward zero; an infinity and a NaN
    have none. *)
Definition truncate (x : float) : option Z :=
  match Prim2SF x with
  | S754_zero _ => Some 0
  | S754_finite s m e =>
      let n := Z.shiftl (Zpos m) e in
      Some (if s then - n else n)
  | S754_infinity _ | S754_nan => None
  end.

(** [uint32_t(x)] for a [double] or [float] [x]: the integer part, when
    it is a [uint32_t] value.  Otherwise the conversion has no defined
    result in C++: [None]. *)
Definition to_uint32 (x : float) : option Z :=
  z ← truncate x; if decide (0 <= z < 2 ^ 32) then Some z else None.

(** The conversion of a [uint32_t] value to [double], which is exact. *)
Definition of_uint32 (n : Z) : float := of_uint63 (Uint63.of_Z n).

(** The conversion of a [double] to [float], as a store into an
    [Ogre::Real] makes it: the nearest single-precision number, ties to
    even, here again as the [double] of the same value. *)
Definition to_single (x : float) : float :=
  match Prim2SF x with
  | S754_finite s m e => SF2Prim (binary_round 24 128 s m e)
  | _ => x
  end.

(** A [double] that a [float] can hold. *)
Definition is_single (x : float) : Prop := to_single x = x.

(** The conversion of an [int] or [uint32_t] value held in a [double]
    to [int]: defined when the value is an [int] value. *)
Definition to_int (n : Z) : option Z :=
  if decide (- 2 ^ 31 <= n < 2 ^ 31) then Some n else None.

(** The [double] nearest to a whole number of magnitude below 2^63, and
    the quotient of two such: the [double] nearest to a fraction. *)
Definition of_Z (z : Z) : float :=
  if z <? 0 then (- of_uint63 (Uint63.of_Z (- z)))%float
  else of_uint63 (Uint63.of_Z z).
Definition of_Q (q : Q) : float :=
  (of_Z (Qnum q) / of_Z (Zpos (Qden q)))%float.


End Double.

(** ** ViewportClipper *)

Module Clipper.

Definition kInside : Z := 0.
Definition kLeft : Z := 1.
Definition kRight : Z := 2.
Definition kBottom : Z := 4.
Definition kTop : Z := 8.

(** C truth value of an [int]. *)
Definition nonzero (z : Z) : bool := negb (z =? 0).

(** The local variables of [ClipToViewPort] that the loop reads and
    writes. *)
Record ClipState (T : Type) := MkClip {
  st_x0 : T; st_y0 : T; st_x1 : T; st_y1 : T;
  location0 : Z; location1 : Z }.
Arguments MkClip {T} _ _ _ _ _ _.
Arguments st_x0 {T} _.
Arguments st_y0 {T} _.
Arguments st_x1 {T} _.
Arguments st_y1 {T} _.
Arguments location0 {T} _.
Arguments location1 {T} _.

(** The four intersection branches of the loop body, in the order the
    source tests them. *)
Inductive Branch := BTop | BBottom | BRight | BLeft.

(** One pass through the body of [while (true)]: either a [break] with
    the value of [accept], or the state for the next pass. *)
Inductive Iteration (T : Type) :=
| Break (accept : bool)
| Continue (s : ClipState T).
Arguments Break {T} _.
Arguments Continue {T} _.

(** What [ClipToViewPort] returns: a pair of endpoints, or the pair
    [(Vector2d::NaN, Vector2d::NaN)]. *)
Inductive ClipResult (T : Type) :=
| Endpoints (p0 p1 : Vector2 T)
| NaNPair.
Arguments Endpoints {T} _ _.
Arguments NaNPair {T}.

(** The [if / else if] chain on [outerLocation]; [None] is the final
    [else] (the internal-error branch). *)
Definition select_branch (outer : Z) : option Branch :=
  if nonzero (Z.land outer kTop) then Some BTop
  else if nonzero (Z.land outer kBottom) then Some BBottom
  else if nonzero (Z.land outer kRight) then Some BRight
  else if nonzero (Z.land outer kLeft) then Some BLeft
  else None.

Section Loop.
Context {T : Type} {A : Arithmetic T}.

Definition LocationRelativeToViewPort (_bounds : Vector4 T) (_x _y : T)
  : Z :=
  let xmin := b_xmin _bounds in
  let ymin := b_ymin _bounds in
  let xmax := b_xmax _bounds in
  let ymax := b_ymax _bounds in
  let relativeLocation := kInside in
  let relativeLocation :=
    if (_x <? xmin)%D then Z.lor relativeLocation kLeft
    else if (_x >? xmax)%D then Z.lor relativeLocation kRight
    else relativeLocation in
  let relativeLocation :=
    if (_y <? ymin)%D then Z.lor relativeLocation kBottom
    else if (_y >? ymax)%D then Z.lor relativeLocation kTop
    else relativeLocation in
  relativeLocation.

(** [int outerLocation = location1 > location0 ? location1 : location0]. *)
Definition outerLocation (s : ClipState T) : Z :=
  if location0 s <? location1 s then location1 s else location0 s.

(** The denominator the chosen branch divides by. *)
Definition denominator (s : ClipState T) (br : Branch) : T :=
  match br with
  | BTop | BBottom => st_y1 s - st_y0 s
  | BRight | BLeft => st_x1 s - st_x0 s
  end%D.

(** The intersection point [(x, y)] computed by the chosen branch. *)
Definition intersection (_bounds : Vector4 T) (s : ClipState T)
    (br : Branch) : T * T :=
  let xmin := b_xmin _bounds in
  let ymin := b_ymin _bounds in
  let xmax := b_xmax _bounds in
  let ymax := b_ymax _bounds in
  let x0 := st_x0 s in let y0 := st_y0 s in
  let x1 := st_x1 s in let y1 := st_y1 s in
  match br with
  | BTop => (x0 + (x1 - x0) * (ymax - y0) / (y1 - y0), ymax)
  | BBottom => (x0 + (x1 - x0) * (ymin - y0) / (y1 - y0), ymin)
  | BRight => (xmax, y0 + (y1 - y0) * (xmax - x0) / (x1 - x0))
  | BLeft => (xmin, y0 + (y1 - y0) * (xmin - x0) / (x1 - x0))
  end%D.

(** The branch an iteration takes when it reaches the clipping [else];
    [None] when the iteration breaks before it. *)
Definition branch_taken (s : ClipState T) : option Branch :=
  if negb (nonzero (Z.lor (location0 s) (location1 s))) then None
  else if nonzero (Z.land (location0 s) (location1 s)) then None
  else select_branch (outerLocation s).

Definition clip_iteration (_bounds : Vector4 T) (s : ClipState T)
  : Iteration T :=
  if negb (nonzero (Z.lor (location0 s) (location1 s))) then Break true
  else if nonzero (Z.land (location0 s) (location1 s)) then Break false
  else
    let outer := outerLocation s in
    match select_branch outer with
    | None => Break false
    | Some br =>
        let '(x, y) := intersection _bounds s br in
        if outer =? location0 s then
          Continue (MkClip x y (st_x1 s) (st_y1 s)
                      (LocationRelativeToViewPort _bounds x y) (location1 s))
        else
          Continue (MkClip (st_x0 s) (st_y0 s) x y
                      (location0 s) (LocationRelativeToViewPort _bounds x y))
    end.

(** The loop, bounded by a number of passes; [None] when the bound is
    reached before a [break]. *)
Fixpoint clip_loop (fuel : nat) (_bounds : Vector4 T) (s : ClipState T)
  : option (bool * ClipState T) :=
  match fuel with
  | O => None
  | S n =>
      match clip_iteration _bounds s with
      | Break accept => Some (accept, s)
      | Continue s' => clip_loop n _bounds s'
      end
  end.

(** The state at the start of pass number [k] (counting from 0), if the
    loop gets that far. *)
Fixpoint state_at (k : nat) (_bounds : Vector4 T) (s : ClipState T)
  : option (ClipState T) :=
  match k with
  | O => Some s
  | S n =>
      match clip_iteration _bounds s with
      | Break _ => None
      | Continue s' => state_at n _bounds s'
      end
  end.

Definition initial (_bounds : Vector4 T) (_p0 _p1 : Vector2 T)
  : ClipState T :=
  MkClip (X _p0) (Y _p0) (X _p1) (Y _p1)
    (LocationRelativeToViewPort _bounds (X _p0) (Y _p0))
    (LocationRelativeToViewPort _bounds (X _p1) (Y _p1)).

Definition result_of (r : bool * ClipState T) : ClipResult T :=
  let '(accept, s) := r in
  if accept
  then Endpoints (Vec2 (st_x0 s) (st_y0 s)) (Vec2 (st_x1 s) (st_y1 s))
  else NaNPair.

(** [ClipToViewPort] run for at most [fuel] passes of its loop: [Some]
    of what it returns when the loop breaks within them, [None] when it
    is still running after them. *)
Definition ClipToViewPort (fuel : nat) (_bounds : Vector4 T)
    (_p0 _p1 : Vector2 T) : option (ClipResult T) :=
  result_of <$> clip_loop fuel _bounds (initial _bounds _p0 _p1).

(** [Vector2::IsFinite]. *)
Definition IsFinite (v : Vector2 T) : bool :=
  d_isfinite (X v) && d_isfinite (Y v).

(** [AddToViewportLines], with the same bound on the passes of the
    clipper.  The NaN pair is not finite. *)
Definition AddToViewportLines (fuel : nat) (_bounds : Vector4 T)
    (_p0 _p1 : Vector2 T) (_lines : list (Vector2 T))
  : option (list (Vector2 T)) :=
  endpoints ← ClipToViewPort fuel _bounds _p0 _p1;
  Some match endpoints with
       | Endpoints first second =>
           if IsFinite first && IsFinite second
           then _lines ++ [first; second]
           else _lines
       | NaNPair => _lines
       end.

(** Successive calls on one [_lines] vector, as [DrawBoundingBox] makes
    for the twelve edges of a 3D box. *)
Fixpoint add_segments (fuel : nat) (_bounds : Vector4 T)
    (segments : list (Vector2 T * Vector2 T)) (_lines : list (Vector2 T))
  : option (list (Vector2 T)) :=
  match segments with
  | [] => Some _lines
  | seg :: rest =>
      _lines' ← AddToViewportLines fuel _bounds (fst seg) (snd seg) _lines;
      add_segments fuel _bounds rest _lines'
  end.

(** *** Vocabulary of the statements about the clipper *)

Definition location_of (b : Vector4 T) (p : Vector2 T) : Z :=
  LocationRelativeToViewPort b (X p) (Y p).



(** The two outcodes of a state are those of its two points. *)
Definition consistent (b : Vector4 T) (s : ClipState T) : Prop :=
  location0 s = LocationRelativeToViewPort b (st_x0 s) (st_y0 s) /\
  location1 s = LocationRelativeToViewPort b (st_x1 s) (st_y1 s).

(** A point that [AddToViewportLines] may append: outcode 0 and both
    coordinates finite. *)
Definition kept (b : Vector4 T) (q : Vector2 T) : Prop :=
  location_of b q = 0 /\ IsFinite q = true.

(** The call returns [r]: its loop breaks after some number of passes. *)
Definition returns (b : Vector4 T) (p0 p1 : Vector2 T) (r : ClipResult T)
  : Prop :=
  exists fuel, ClipToViewPort fuel b p0 p1 = Some r.

(** The call never returns: its loop is still running after any number
    of passes. *)
Definition diverges (b : Vector4 T) (p0 p1 : Vector2 T) : Prop :=
  forall fuel, ClipToViewPort fuel b p0 p1 = None.

End Loop.


(** Whether a pass with these two outcodes ends in a [break]. *)
Definition breaks (l0 l1 : Z) : bool :=
  negb (nonzero (Z.lor l0 l1)) || nonzero (Z.land l0 l1)
  || match select_branch (if l0 <? l1 then l1 else l0) with
     | None => true
     | Some _ => false
     end.

Definition popcount4 (z : Z) : nat :=
  (Nat.b2n (Z.testbit z 0) + Nat.b2n (Z.testbit z 1) +
   Nat.b2n (Z.testbit z 2) + Nat.b2n (Z.testbit z 3))%nat.

(** Termination measure in exact arithmetic: the number of boundaries
    that some endpoint still lies beyond, or 0 when the pass breaks. *)
Definition clip_measure {T} (s : ClipState T) : nat :=
  if breaks (location0 s) (location1 s) then 0%nat
  else popcount4 (Z.lor (location0 s) (location1 s)).

(** *** The exact reading *)

Module Exact.

(** [const math::Vector4d box(-1.0, -1.0, 1.0, 1.0)] of
    [DrawBoundingBox]. *)
Definition viewport : Vector4 Q := Vec4 (-1)%Q (-1)%Q 1%Q 1%Q.

(** A point within the bounds, edges included. *)
Definition inside (b : Vector4 Q) (p : Vector2 Q) : Prop :=
  (b_xmin b <= X p)%Q /\ (X p <= b_xmax b)%Q /\
  (b_ymin b <= Y p)%Q /\ (Y p <= b_ymax b)%Q.

(** The two upper corners of the viewport. *)
Definition upper_left : Vector2 Q := Vec2 (-1)%Q 1%Q.
Definition upper_right : Vector2 Q := Vec2 1%Q 1%Q.

(** The parametric intersection formula of the loop body. *)
Definition interp (a0 a1 m b0 b1 : Q) : Q :=
  (a0 + (a1 - a0) * (m - b0) / (b1 - b0))%Q.

End Exact.

(** *** The binary64 reading *)

Module Binary64.
Import PrimFloat.

Definition viewport : Vector4 float :=
  Vec4 (-1)%float (-1)%float 1%float 1%float.

(** A point within the bounds, edges included, by the comparison [<=] of
    the floating-point numbers (false when an operand is not a
    number). *)
Definition inside (b : Vector4 float) (p : Vector2 float) : Prop :=
  (b_xmin b <=? X p)%float = true /\ (X p <=? b_xmax b)%float = true /\
  (b_ymin b <=? Y p)%float = true /\ (Y p <=? b_ymax b)%float = true.

(** The two upper corners of the viewport. *)
Definition upper_left : Vector2 float := Vec2 (-1)%float 1%float.
Definition upper_right : Vector2 float := Vec2 1%float 1%float.

(** A number, possibly infinite. *)
Definition is_number (x : float) : Prop := is_nan x = false.





(** Values that need the 53 bits of a [double]: a segment from far to
    the left of the viewport to a point level with its top edge and just
    right of it: x0 = -(3 * 2^52 - 2) = -13510798882111486,
    y0 = -(1/2 + 2^-51) = -0.5000000000000004, and (x1, y1) = (2, 1). *)
Definition far_left : Vector2 float :=
  Vec2 (-0x1.7ffffffffffffp+53)%float (-0x1.0000000000004p-1)%float.
Definition top_right : Vector2 float := Vec2 2%float 1%float.

(** 1 + 2^-52, the double that follows 1. *)
Definition above_one : float := 0x1.0000000000001p+0%float.

End Binary64.

End Clipper.

(** ** Bounding boxes *)

Inductive BoundingBoxType := BBT_FULLBOX2D | BBT_VISIBLEBOX2D | BBT_BOX3D.

Record Vector3d := Vec3d { X3 : Q; Y3 : Q; Z3 : Q }.

Record Quaterniond := Quat { qw : Q; qx : Q; qy : Q; qz : Q }.

(** Modelled from the spec: [BoundingBox.hh] is not among the sources.
    A box has a type, a centre, a size, an orientation and a label; a
    default-constructed box has zero centre and size and the identity
    orientation (section 3 of the specification), and
    [Vector3d::Set(x, y)] sets the third component to 0. *)
Record BoundingBox := MkBox {
  box_type : BoundingBoxType;
  box_center : Vector3d;
  box_size : Vector3d;
  box_orientation : Quaterniond;
  box_label : Z }.

Definition Quaterniond_Identity : Quaterniond := Quat 1 0 0 0.
Definition Vector3d_Zero : Vector3d := Vec3d 0 0 0.

(** ** MultiPartMerger: the 2D merge *)

Module Merger.

(** The four running extrema of [MergeBoxes2D]. *)
Record Extents := MkExtents { minX : Z; maxX : Z; minY : Z; maxY : Z }.

(** The corners of one box as the loop body computes them: a [double]
    expression converted to [uint32_t]. *)
Definition boxMinX (box : BoundingBox) : Z :=
  to_uint32 (X3 (box_center box) - X3 (box_size box) / 2).
Definition boxMaxX (box : BoundingBox) : Z :=
  to_uint32 (X3 (box_center box) + X3 (box_size box) / 2).
Definition boxMinY (box : BoundingBox) : Z :=
  to_uint32 (Y3 (box_center box) - Y3 (box_size box) / 2).
Definition boxMaxY (box : BoundingBox) : Z :=
  to_uint32 (Y3 (box_center box) + Y3 (box_size box) / 2).

Definition merge_step (e : Extents) (box : BoundingBox) : Extents :=
  {| minX := Z.min (minX e) (boxMinX box);
     maxX := Z.max (maxX e) (boxMaxX box);
     minY := Z.min (minY e) (boxMinY box);
     maxY := Z.max (maxY e) (boxMaxY box) |}.

Definition initial_extents : Extents :=
  {| minX := UINT32_MAX; maxX := 0; minY := UINT32_MAX; maxY := 0 |}.

(** The [for (auto box : _boxes)] loop. *)
Definition merge_extents (_boxes : list BoundingBox) : Extents :=
  foldl merge_step initial_extents _boxes.

(** The box built from the extrema after the loop. *)
Definition box_of_extents (type : BoundingBoxType) (e : Extents)
    (label : Z) : BoundingBox :=
  let width := wrap32 (maxX e - minX e) in
  let height := wrap32 (maxY e - minY e) in
  {| box_type := type;
     box_center := Vec3d (inject_Z (wrap32 (minX e + width / 2)))
                         (inject_Z (wrap32 (minY e + height / 2))) 0;
     box_size := Vec3d (inject_Z width) (inject_Z height) 0;
     box_orientation := Quaterniond_Identity;
     box_label := label |}.

(** [MergeBoxes2D]; [type] is the camera's configured box type
    ([this->dataPtr->type]).  On an empty vector the source reads
    [_boxes[0]] past the end, which has no defined result: [None]. *)
Definition MergeBoxes2D (type : BoundingBoxType) (_boxes : list BoundingBox)
  : option BoundingBox :=
  match _boxes with
  | [box] => Some box
  | [] => None
  | first :: _ =>
      Some (box_of_extents type (merge_extents _boxes) (box_label first))
  end.

(** *** Vocabulary of the statements about the merge *)

(** The corners of a box as rationals, before any conversion. *)
Definition cornerMinX (box : BoundingBox) : Q :=
  X3 (box_center box) - X3 (box_size box) / 2.
Definition cornerMaxX (box : BoundingBox) : Q :=
  X3 (box_center box) + X3 (box_size box) / 2.
Definition cornerMinY (box : BoundingBox) : Q :=
  Y3 (box_center box) - Y3 (box_size box) / 2.
Definition cornerMaxY (box : BoundingBox) : Q :=
  Y3 (box_center box) + Y3 (box_size box) / 2.

(** [m] is the least value of [f] over the list. *)
Definition is_min {A} (f : A -> Q) (l : list A) (m : Q) : Prop :=
  (forall a, In a l -> (m <= f a)%Q) /\ (exists a, In a l /\ (m == f a)%Q).

(** [m] is the greatest value of [f] over the list. *)
Definition is_max {A} (f : A -> Q) (l : list A) (m : Q) : Prop :=
  (forall a, In a l -> (f a <= m)%Q) /\ (exists a, In a l /\ (m == f a)%Q).

Definition is_minZ {A} (f : A -> Z) (l : list A) (m : Z) : Prop :=
  (forall a, In a l -> m <= f a) /\ (exists a, In a l /\ m = f a).

Definition is_maxZ {A} (f : A -> Z) (l : list A) (m : Z) : Prop :=
  (forall a, In a l -> f a <= m) /\ (exists a, In a l /\ m = f a).

(** A rational that is a whole number of pixels within [uint32_t]. *)
Definition pixel_coordinate (q : Q) : Prop :=
  exists z : Z, 0 <= z < 2 ^ 32 /\ (q == inject_Z z)%Q.

(** All four corners of a box are such pixel coordinates. *)
Definition pixel_aligned (box : BoundingBox) : Prop :=
  pixel_coordinate (cornerMinX box) /\ pixel_coordinate (cornerMaxX box) /\
  pixel_coordinate (cornerMinY box) /\ pixel_coordinate (cornerMaxY box).

(** A box with pixel corners and non-negative width and height. *)
Definition pixel_box (box : BoundingBox) : Prop :=
  pixel_aligned box /\
  (0 <= X3 (box_size box))%Q /\ (0 <= Y3 (box_size box))%Q.

(** A rational whose truncation fits [uint32_t]. *)
Definition in_uint32_range (q : Q) : Prop := (0 <= q)%Q /\ (q < 4294967296)%Q.

(** A 2D box given by centre, size and label, as in the scenarios. *)
Definition box2d (type : BoundingBoxType) (cx cy sx sy : Q) (label : Z)
  : BoundingBox :=
  MkBox type (Vec3d cx cy 0) (Vec3d sx sy 0) Quaterniond_Identity label.

(** Two boxes of size 4, the first centred at 1: its real corner on
    each axis is -1. *)
Definition negative_corner_group : list BoundingBox :=
  [box2d BBT_VISIBLEBOX2D 1 1 4 4 7; box2d BBT_VISIBLEBOX2D 10 10 4 4 7].

(** Two boxes as [VisibleBoundingBoxes] builds them for pixel extents of
    odd width 3: centre 1 and 11, size 3. *)
Definition odd_width_group : list BoundingBox :=
  [box2d BBT_VISIBLEBOX2D 1 1 3 3 7; box2d BBT_VISIBLEBOX2D 11 11 3 3 7].

(** A rational that is a whole number of half pixels, and one that is a
    whole number of pixels. *)
Definition half_pixel (q : Q) : Prop :=
  exists z : Z, (q == inject_Z z * (1 # 2))%Q.
Definition whole_pixel (q : Q) : Prop := exists z : Z, (q == inject_Z z)%Q.

(** A box as the camera builds them: the centre on half pixels, the
    size a whole number of pixels that is not negative.  The corners of
    such a box are on half pixels, and the [double] operations that
    compute them in the source are exact. *)
Definition half_pixel_box (box : BoundingBox) : Prop :=
  half_pixel (X3 (box_center box)) /\ half_pixel (Y3 (box_center box)) /\
  whole_pixel (X3 (box_size box)) /\ whole_pixel (Y3 (box_size box)) /\
  (0 <= X3 (box_size box))%Q /\ (0 <= Y3 (box_size box))%Q.

(** A rational whose integer part is a [uint32_t] value: its
    conversion to [uint32_t] is defined. *)
Definition convertible (q : Q) : Prop := (-1 < q)%Q /\ (q < 4294967296)%Q.

Definition corners_convertible (box : BoundingBox) : Prop :=
  convertible (cornerMinX box) /\ convertible (cornerMaxX box) /\
  convertible (cornerMinY box) /\ convertible (cornerMaxY box).

(** Two boxes of size 4 centred at 10 and 21: the merged extent is 8 to
    23 on each axis. *)
Definition odd_extent_group : list BoundingBox :=
  [box2d BBT_VISIBLEBOX2D 10 10 4 4 7; box2d BBT_VISIBLEBOX2D 21 21 4 4 7].

End Merger.

(** ** IdentifierBufferScanner *)

Module Scanner.

(** [buffer[i]] for a byte buffer; a read past the end, which the source
    never makes on a buffer of [width * height * 3] bytes, yields 0. *)
Definition byte_at (buffer : list Z) (i : Z) : Z :=
  nth (Z.to_nat i) buffer 0.

(** [auto index = (y * width + x) * channelCount], in [uint32_t]. *)
Definition pixel_index (width x y : Z) : Z := wrap32 ((y * width + x) * 3).

(** [uint32_t label = buffer[index + 2]]. *)
Definition pixel_label (buffer : list Z) (width x y : Z) : Z :=
  byte_at buffer (wrap32 (pixel_index width x y + 2)).

(** [ogreId = ogreId1 * 256 + ogreId2] with [ogreId1 = buffer[index + 1]]
    and [ogreId2 = buffer[index + 0]]. *)
Definition decode_id (ogreId1 ogreId2 : Z) : Z :=
  wrap32 (ogreId1 * 256 + ogreId2).

Definition pixel_ogreId (buffer : list Z) (width x y : Z) : Z :=
  let index := pixel_index width x y in
  let ogreId1 := byte_at buffer (wrap32 (index + 1)) in
  let ogreId2 := byte_at buffer (wrap32 (index + 0)) in
  decode_id ogreId1 ogreId2.

(** Modelled from the spec: the encoder is the material switcher, which
    is not among the sources.  An identifier is written as the pair
    [(idHigh, idLow) = (id / 256, id % 256)]. *)
Definition encode_id (id : Z) : Z * Z := (id / 256, id mod 256).

(** The two nested [for] loops over [y] and then [x]. *)
Definition scan {St} (width height : Z) (body : St -> Z -> Z -> St)
    (init : St) : St :=
  foldl (fun st y => foldl (fun st x => body st x y) st (seqZ 0 width))
        init (seqZ 0 height).

(** The pixels in the order the loops visit them. *)
Definition row_major (width height : Z) : list (Z * Z) :=
  y ← seqZ 0 height; x ← seqZ 0 width; [(x, y)].

(** *** MarkVisibleBoxes *)

(** The body of the inner loop, on the map [visibleBoxesLabel]. *)
Definition mark_pixel (buffer : list Z) (width backgroundLabel : Z)
    (visibleBoxesLabel : gmap Z Z) (x y : Z) : gmap Z Z :=
  let label := pixel_label buffer width x y in
  if decide (label <> backgroundLabel) then
    let ogreId := pixel_ogreId buffer width x y in
    match visibleBoxesLabel !! ogreId with
    | None => <[ogreId := label]> visibleBoxesLabel
    | Some _ => visibleBoxesLabel
    end
  else visibleBoxesLabel.

Definition MarkVisibleBoxes (buffer : list Z) (width height : Z)
    (backgroundLabel : Z) (visibleBoxesLabel : gmap Z Z) : gmap Z Z :=
  scan width height (mark_pixel buffer width backgroundLabel)
       visibleBoxesLabel.

(** *** VisibleBoundingBoxes: the scanning loop *)

Record BoxBoundary := MkBoundary {
  minX : Z; minY : Z; maxX : Z; maxY : Z }.

(** The member map [boundingboxes] and the local map [boxesBoundary];
    every box and boundary is a separate heap object owned by its
    entry. *)
Record VisibleState := MkVisible {
  boundingboxes : gmap Z BoundingBox;
  boxesBoundary : gmap Z BoxBoundary }.

Definition update_boundary (boundary : BoxBoundary) (x y : Z) : BoxBoundary :=
  {| minX := Z.min (minX boundary) x;
     minY := Z.min (minY boundary) y;
     maxX := Z.max (maxX boundary) x;
     maxY := Z.max (maxY boundary) y |}.

Definition new_visible_box (label : Z) : BoundingBox :=
  MkBox BBT_VISIBLEBOX2D Vector3d_Zero Vector3d_Zero Quaterniond_Identity
        label.

(** The body of the inner loop.  [None] stands for the dereference of
    the null pointer that [boxesBoundary[ogreId]] yields when the box is
    known but its boundary is not. *)
Definition visible_pixel (buffer : list Z) (width height backgroundLabel : Z)
    (st : option VisibleState) (x y : Z) : option VisibleState :=
  st ← st;
  let label := pixel_label buffer width x y in
  if decide (label <> backgroundLabel) then
    let ogreId := pixel_ogreId buffer width x y in
    match boundingboxes st !! ogreId with
    | None =>
        let boundary := MkBoundary width height 0 0 in
        Some {| boundingboxes :=
                  <[ogreId := new_visible_box label]> (boundingboxes st);
                boxesBoundary :=
                  <[ogreId := update_boundary boundary x y]>
                    (boxesBoundary st) |}
    | Some _ =>
        boundary ← boxesBoundary st !! ogreId;
        Some {| boundingboxes := boundingboxes st;
                boxesBoundary :=
                  <[ogreId := update_boundary boundary x y]>
                    (boxesBoundary st) |}
    end
  else Some st.

Definition scan_visible (buffer : list Z) (width height backgroundLabel : Z)
    (st : VisibleState) : option VisibleState :=
  scan width height (visible_pixel buffer width height backgroundLabel)
       (Some st).

(** *** Vocabulary of the statements about scanning *)

(** Every known box has a boundary. *)
Definition boundaries_known (st : VisibleState) : Prop :=
  forall id, is_Some (boundingboxes st !! id) ->
             is_Some (boxesBoundary st !! id).

(** The label of the first pixel of the list that is not background and
    decodes to [id]. *)
Fixpoint first_seen_label (buffer : list Z) (width backgroundLabel : Z)
    (pixels : list (Z * Z)) (id : Z) : option Z :=
  match pixels with
  | [] => None
  | (x, y) :: rest =>
      if decide (pixel_label buffer width x y <> backgroundLabel
                 /\ pixel_ogreId buffer width x y = id)
      then Some (pixel_label buffer width x y)
      else first_seen_label buffer width backgroundLabel rest id
  end.

End Scanner.

(** ** FullProjectionBuilder: the off-screen test and the pixel box *)

(** The test and the conversion are given twice.  The first reading, on
    rationals, serves the loop over the items ([FullBoxes]), where only
    the outcome of the test and the type and label of the box matter.
    The second, [Binary64], computes as the source does, on
    single-precision components and [double] intermediate values, and is
    the one to read the pixel values from. *)

Module FullBox.

(** [a > b] on [double]. *)
Definition Qgtb (a b : Q) : bool := if Qlt_le_dec b a then true else false.

(** The test that makes [FullBoundingBoxes] skip an item:
    [(abs(min.x) > 1 && abs(max.x) > 1) || (abs(min.y) > 1 && abs(max.y) > 1)],
    with [abs] the absolute value of the floating-point number. *)
Definition discards (minVertex maxVertex : Vector3d) : bool :=
  (Qgtb (Qabs (X3 minVertex)) 1 && Qgtb (Qabs (X3 maxVertex)) 1) ||
  (Qgtb (Qabs (Y3 minVertex)) 1 && Qgtb (Qabs (Y3 maxVertex)) 1).

(** [std::clamp<double>(v, lo, hi)]. *)
Definition clamp (v lo hi : Q) : Q :=
  if Qlt_le_dec v lo then lo else if Qlt_le_dec hi v then hi else v.

(** [ConvertToScreenCoord] on rationals; the two vertices are updated
    in place and returned as a pair.  The products are taken without
    rounding: see [Binary64.ConvertToScreenCoord] for the values the
    source computes. *)
Definition ConvertToScreenCoord (width height : Z)
    (minVertex maxVertex : Vector3d) : Vector3d * Vector3d :=
  (* clip the values outside the frustum range *)
  let min_x := clamp (X3 minVertex) (-1) 1 in
  let min_y := clamp (Y3 minVertex) (-1) 1 in
  let max_x := clamp (X3 maxVertex) (-1) 1 in
  let max_y := clamp (Y3 maxVertex) (-1) 1 in
  (* convert from [-1, 1] range to [0, 1] range & multiply by screen dims *)
  let min_x := inject_Z (to_uint32 ((min_x + 1) / 2 * inject_Z width)) in
  let min_y := inject_Z (to_uint32 ((1 - min_y) / 2 * inject_Z height)) in
  let max_x := inject_Z (to_uint32 ((max_x + 1) / 2 * inject_Z width)) in
  let max_y := inject_Z (to_uint32 ((1 - max_y) / 2 * inject_Z height)) in
  (* clip outside screen boundries *)
  let min_x := inject_Z (Z.max 0 (to_uint32 min_x)) in
  let min_y := inject_Z (Z.max 0 (to_uint32 min_y)) in
  let max_x := inject_Z (Z.min (to_uint32 max_x) (wrap32 (width - 1))) in
  let max_y := inject_Z (Z.min (to_uint32 max_y) (wrap32 (height - 1))) in
  (Vec3d min_x min_y (Z3 minVertex), Vec3d max_x max_y (Z3 maxVertex)).

(** What the loop of [FullBoundingBoxes] does with one visible item in
    the frustum once [MeshMinimalBox] has produced [minVertex] and
    [maxVertex]: [None] when the item is skipped, otherwise the box
    stored for it, with the label that the later labelling loop gives
    it. *)
Definition full_box (width height label : Z)
    (minVertex maxVertex : Vector3d) : option BoundingBox :=
  if discards minVertex maxVertex then None
  else
    let '(minVertex, maxVertex) :=
      ConvertToScreenCoord width height minVertex maxVertex in
    let boxWidth := (X3 maxVertex - X3 minVertex)%Q in
    let boxHeight := (Y3 minVertex - Y3 maxVertex)%Q in
    Some {| box_type := BBT_FULLBOX2D;
            box_center := Vec3d (X3 minVertex + boxWidth / 2)
                                (Y3 maxVertex + boxHeight / 2) 0;
            box_size := Vec3d boxWidth boxHeight 0;
            box_orientation := Quaterniond_Identity;
            box_label := label |}.

(** *** The binary64 reading *)

Module Binary64.
Import PrimFloat.
Local Open Scope float_scope.

(** [Ogre::Vector3]: three [Ogre::Real] components, which are
    single-precision numbers; each is held as the [double] of the same
    value, and every store into a component rounds to single
    precision. *)
Record Vector3f := Vec3f { vx : float; vy : float; vz : float }.

(** The test that makes [FullBoundingBoxes] skip an item. *)
Definition discards (minVertex maxVertex : Vector3f) : bool :=
  ((1 <? abs (vx minVertex)) && (1 <? abs (vx maxVertex))) ||
  ((1 <? abs (vy minVertex)) && (1 <? abs (vy maxVertex))).

(** [std::clamp<double>(v, lo, hi)]: [lo] when [v < lo], otherwise [hi]
    when [hi < v], otherwise [v]. *)
Definition clamp (v lo hi : float) : float :=
  if v <? lo then lo else if hi <? v then hi else v.

(** [ConvertToScreenCoord]; the two vertices are updated in place and
    returned as a pair.  [None] when a conversion to [uint32_t] has no
    defined result. *)
Definition ConvertToScreenCoord (width height : Z)
    (minVertex maxVertex : Vector3f) : option (Vector3f * Vector3f) :=
  (* clip the values outside the frustum range *)
  let min_x := Double.to_single (clamp (vx minVertex) (-1) 1) in
  let min_y := Double.to_single (clamp (vy minVertex) (-1) 1) in
  let max_x := Double.to_single (clamp (vx maxVertex) (-1) 1) in
  let max_y := Double.to_single (clamp (vy maxVertex) (-1) 1) in
  (* convert from [-1, 1] range to [0, 1] range & multiply by screen dims *)
  min_x ← Double.to_uint32 ((min_x + 1) / 2 * Double.of_uint32 width);
  let min_x := Double.to_single (Double.of_uint32 min_x) in
  min_y ← Double.to_uint32 ((1 - min_y) / 2 * Double.of_uint32 height);
  let min_y := Double.to_single (Double.of_uint32 min_y) in
  max_x ← Double.to_uint32 ((max_x + 1) / 2 * Double.of_uint32 width);
  let max_x := Double.to_single (Double.of_uint32 max_x) in
  max_y ← Double.to_uint32 ((1 - max_y) / 2 * Double.of_uint32 height);
  let max_y := Double.to_single (Double.of_uint32 max_y) in
  (* clip outside screen boundries *)
  min_x ← Double.to_uint32 min_x;
  let min_x := Double.to_single (Double.of_uint32 (Z.max 0 min_x)%Z) in
  min_y ← Double.to_uint32 min_y;
  let min_y := Double.to_single (Double.of_uint32 (Z.max 0 min_y)%Z) in
  max_x ← Double.to_uint32 max_x;
  let max_x :=
    Double.to_single (Double.of_uint32 (Z.min max_x (wrap32 (width - 1)))%Z) in
  max_y ← Double.to_uint32 max_y;
  let max_y :=
    Double.to_single (Double.of_uint32 (Z.min max_y (wrap32 (height - 1)))%Z) in
  Some (Vec3f min_x min_y (vz minVertex), Vec3f max_x max_y (vz maxVertex)).

(** The centre and the size that [FullBoundingBoxes] writes into the
    new box. *)
Record Box2 := MkBox2 { center : Vector2 float; size : Vector2 float }.

(** What the loop of [FullBoundingBoxes] does with one visible item in
    the frustum once [MeshMinimalBox] has produced [minVertex] and
    [maxVertex]: [Some None] when the item is skipped, [Some (Some _)]
    with the centre and size of the box stored for it, [None] when a
    conversion has no defined result.  The differences and sums are
    operations on [Ogre::Real]. *)
Definition full_box (width height : Z) (minVertex maxVertex : Vector3f)
  : option (option Box2) :=
  if discards minVertex maxVertex then Some None
  else
    converted ← ConvertToScreenCoord width height minVertex maxVertex;
    let '(minVertex, maxVertex) := converted in
    let boxWidth := Double.to_single (vx maxVertex - vx minVertex) in
    let boxHeight := Double.to_single (vy minVertex - vy maxVertex) in
    Some (Some
      {| center :=
           Vec2 (Double.to_single
                   (vx minVertex + Double.to_single (boxWidth / 2)))
                (Double.to_single
                   (vy maxVertex + Double.to_single (boxHeight / 2)));
         size := Vec2 boxWidth boxHeight |}).

(** The last row of a box, as the 2D drawing code takes it from the
    centre and the size: [uint32_t(center.Y() + size.Y() / 2)]. *)
Definition bottom_row (box : Box2) : option Z :=
  Double.to_uint32 (Y (center box) + Y (size box) / 2).

(** *** Vocabulary of the statements about the off-screen test *)

(** The projected extent, a rectangle in clip space, shares a point
    with the clip range [-1,1]x[-1,1]. *)
Definition reaches_screen (minVertex maxVertex : Vector3f) : bool :=
  (vx minVertex <=? 1) && (-1 <=? vx maxVertex) &&
  (vy minVertex <=? 1) && (-1 <=? vy maxVertex).

(** The point (x, y) of clip space lies in the extent. *)
Definition contains (minVertex maxVertex : Vector3f) (x y : float) : bool :=
  (vx minVertex <=? x) && (x <=? vx maxVertex) &&
  (vy minVertex <=? y) && (y <=? vy maxVertex).

(** Every coordinate of the vertex is a single-precision number. *)
Definition single_vertex (v : Vector3f) : Prop :=
  Double.is_single (vx v) /\ Double.is_single (vy v) /\
  Double.is_single (vz v).

(** A projected extent from (-2,-1/2) to (2,1/2): wider than the
    screen and across its centre. *)
Definition wide_min : Vector3f := Vec3f (-2) (-0.5) 0.
Definition wide_max : Vector3f := Vec3f 2 0.5 0.

(** A projected extent from (-1/2,-2) to (1/2,1/2): an object in the
    middle of the screen that reaches below its lower edge. *)
Definition low_min : Vector3f := Vec3f (-0.5) (-2) 0.
Definition low_max : Vector3f := Vec3f 0.5 0.5 0.

End Binary64.

End FullBox.

(** ** Rasterizer *)

Module Raster.

Record Vector2i := Vec2i { Xi : Z; Yi : Z }.

(** Conversion of a [uint32_t] value to [int]. *)
Definition to_int32 (z : Z) : Z := (z + 2 ^ 31) mod 2 ^ 32 - 2 ^ 31.

(** The conversion of one clipped vertex to pixel coordinates in
    [DrawBoundingBox], on [double] values.  The two products are
    converted to [uint32_t], which has no defined result for a NaN, an
    infinity or a number outside the type: [None].  From there on
    [vertex.X()] and [vertex.Y()] hold [uint32_t] values, which a
    [double] holds exactly, so that the conversions forth and back
    between the two types in [std::max<uint32_t>] and
    [std::min<uint32_t>] change nothing; the last conversion, to the
    [int] of [math::Vector2i], is defined below 2^31. *)
Section ScreenDouble.
Import PrimFloat.

Definition to_screen_double (width height : Z) (vertex : Vector2 float)
  : option Vector2i :=
  (* convert from [-1, 1] range to [0, 1] range & to the screen range *)
  x ← Double.to_uint32
        ((X vertex + 1) / 2 * Double.of_uint32 width)%float;
  y ← Double.to_uint32
        ((1 - Y vertex) / 2 * Double.of_uint32 height)%float;
  let x := Z.max 0 x in
  let y := Z.max 0 y in
  let x := Z.min x (wrap32 (width - 1)) in
  let y := Z.min y (wrap32 (height - 1)) in
  x ← Double.to_int x;
  y ← Double.to_int y;
  Some (Vec2i x y).

End ScreenDouble.

(** The same conversion on rationals.  It agrees with the conversion on
    [double] values wherever the two products are computed without
    rounding, as they are at the corners of the clip rectangle. *)
Definition to_screen (width height : Z) (vertex : Vector2 Q) : Vector2i :=
  (* convert from [-1, 1] range to [0, 1] range & to the screen range *)
  let x := inject_Z (to_uint32 ((X vertex + 1) / 2 * inject_Z width)) in
  let y := inject_Z (to_uint32 ((1 - Y vertex) / 2 * inject_Z height)) in
  let x := inject_Z (Z.max 0 (to_uint32 x)) in
  let y := inject_Z (Z.max 0 (to_uint32 y)) in
  let x := Z.min (to_uint32 x) (wrap32 (width - 1)) in
  let y := Z.min (to_uint32 y) (wrap32 (height - 1)) in
  Vec2i (to_int32 x) (to_int32 y).

(** "Plot the point": three bytes of the pixel are written.  A write
    past the end of the buffer, which has no defined result in the
    source, leaves the list as it is. *)
Definition plot (ImageWidth : Z) (_data : list Z) (x y : Z) : list Z :=
  let index := wrap32 ((y * ImageWidth + x) * 3) in
  let _data := <[Z.to_nat index := 0]> _data in
  let _data := <[Z.to_nat (wrap32 (index + 1)) := 255]> _data in
  <[Z.to_nat (wrap32 (index + 2)) := 0]> _data.

(** The two loops of [DrawLine], with "Plot the point" (the action on
    the buffer) as a parameter, so that the loops can be run on the
    buffer and can also be asked which pixels they plot.  The [int]
    arithmetic is taken without overflow. *)
Section Bresenham.
Context {A : Type} (plot_point : A -> Z -> Z -> A).

(** [n] passes of [for (int x = x0; x < x1; x++)], from column [x]
    with row [y] and error [D]. *)
Fixpoint low_loop (n : nat) (acc : A) (dx dy yi x y D : Z) : A :=
  match n with
  | O => acc
  | S n' =>
      let acc := plot_point acc x y in
      if 0 <? D
      then low_loop n' acc dx dy yi (x + 1) (y + yi) (D + 2 * (dy - dx))
      else low_loop n' acc dx dy yi (x + 1) y (D + 2 * dy)
  end.

(** [n] passes of [for (int y = y0; y < y1; y++)]. *)
Fixpoint high_loop (n : nat) (acc : A) (dx dy xi x y D : Z) : A :=
  match n with
  | O => acc
  | S n' =>
      let acc := plot_point acc x y in
      if 0 <? D
      then high_loop n' acc dx dy xi (x + xi) (y + 1) (D + 2 * (dx - dy))
      else high_loop n' acc dx dy xi x (y + 1) (D + 2 * dx)
  end.

(** The body of [DrawLine].  A loop [for (v = v0; v < v1; v++)] makes
    [v1 - v0] passes when that is positive and none otherwise. *)
Definition draw_line (acc : A) (_point1 _point2 : Vector2i) : A :=
  if Z.abs (Yi _point2 - Yi _point1) <? Z.abs (Xi _point2 - Xi _point1)
  then
    let '(x0, y0, x1, y1) :=
      if Xi _point1 <? Xi _point2
      then (Xi _point1, Yi _point1, Xi _point2, Yi _point2)
      else (Xi _point2, Yi _point2, Xi _point1, Yi _point1) in
    let dx := x1 - x0 in
    let dy := y1 - y0 in
    let '(yi, dy) := if dy <? 0 then (-1, - dy) else (1, dy) in
    let D := 2 * dy - dx in
    low_loop (Z.to_nat (x1 - x0)) acc dx dy yi x0 y0 D
  else
    let '(x0, y0, x1, y1) :=
      if Yi _point1 <? Yi _point2
      then (Xi _point1, Yi _point1, Xi _point2, Yi _point2)
      else (Xi _point2, Yi _point2, Xi _point1, Yi _point1) in
    let dx := x1 - x0 in
    let dy := y1 - y0 in
    let '(xi, dx) := if dx <? 0 then (-1, - dx) else (1, dx) in
    let D := 2 * dx - dy in
    high_loop (Z.to_nat (y1 - y0)) acc dx dy xi x0 y0 D.
End Bresenham.

(** [DrawLine] on the buffer [_data] of an image [ImageWidth] pixels
    wide. *)
Definition DrawLine (ImageWidth : Z) (_data : list Z)
    (_point1 _point2 : Vector2i) : list Z :=
  draw_line (plot ImageWidth) _data _point1 _point2.

(** The pixels [DrawLine] plots, in the order it plots them: the same
    loops, recording each plotted pixel. *)
Definition DrawLine_points (_point1 _point2 : Vector2i) : list (Z * Z) :=
  draw_line (fun pixels x y => pixels ++ [(x, y)]) [] _point1 _point2.

(** *** Vocabulary of the statements about drawing *)

(** The three bytes of pixel [(x, y)]. *)
Definition pixel_bytes (ImageWidth : Z) (_data : list Z) (x y : Z)
  : list Z :=
  let index := Z.to_nat ((y * ImageWidth + x) * 3) in
  take 3 (drop index _data).

(** The pixels of row 0 from column [a] on, [n] of them. *)
Definition row0 (a : Z) (n : nat) : list (Z * Z) :=
  (fun x => (x, 0)) <$> seqZ a (Z.of_nat n).

(** The outline colour the source writes. *)
Definition outline : list Z := [0; 255; 0].

(** A 200 by 200 image buffer with every byte 7. *)
Definition grey_buffer : list Z := replicate (200 * 200 * 3) 7.

End Raster.

(** ** OutlineDrawer: [DrawBoundingBox] *)

Module Drawing.
Import Clipper Raster.

(** The twelve edges of a 3D box, as the pairs of indices into
    [vertices2d] that the twelve calls of [AddToViewportLines] use, in
    the order of the calls: top, bottom, pillars. *)
Definition box_edges : list (nat * nat) :=
  [(0, 1); (1, 2); (2, 3); (3, 0);
   (4, 5); (5, 6); (6, 7); (7, 4);
   (0, 4); (1, 5); (2, 6); (3, 7)]%nat.

(** The twelve segments; [None] for a read past the end of
    [vertices2d], which has no defined result in the source. *)
Definition edge_segments {T} (vertices2d : list (Vector2 T))
  : option (list (Vector2 T * Vector2 T)) :=
  mapM (fun e => p0 ← vertices2d !! fst e;
                 p1 ← vertices2d !! snd e;
                 Some (p0, p1)) box_edges.

(** [for (endPt = 0; endPt < projVertices.size(); endPt += 2)
       DrawLine(_data, projVertices[endPt], projVertices[endPt + 1])].
    With an odd number of vertices the last pass reads
    [projVertices[endPt + 1]] past the end: [None]. *)
Fixpoint draw_lines (ImageWidth : Z) (_data : list Z)
    (projVertices : list Vector2i) : option (list Z) :=
  match projVertices with
  | [] => Some _data
  | [_] => None
  | first :: second :: rest =>
      draw_lines ImageWidth (DrawLine ImageWidth _data first second) rest
  end.

(** The 3D branch of [DrawBoundingBox], on the vertices that
    [_box.Vertices()] yields.  [project] stands for the product of
    the camera's projection matrix with the homogeneous vertex, followed
    by the two divisions by [w]: it yields the two [double] values
    pushed onto [vertices2d], which can be infinite or NaN.  The
    function returns at the first vertex with a positive [z], before
    anything is drawn.  The clipper runs on [double] values, [fuel]
    passes at most per segment; [None] when a clipper loop is still
    running after them, when a vector is read past its end, or when a
    conversion has no defined result. *)
Definition DrawBoundingBox3D (fuel : nat)
    (project : Vector3d -> Vector2 PrimFloat.float) (width height : Z)
    (_data : list Z) (vertices : list Vector3d) : option (list Z) :=
  if existsb (fun vertex => FullBox.Qgtb (Z3 vertex) 0) vertices
  then Some _data
  else
    let vertices2d := project <$> vertices in
    segments ← edge_segments vertices2d;
    clippedVertices ← add_segments fuel Clipper.Binary64.viewport segments [];
    projVertices ← mapM (to_screen_double width height) clippedVertices;
    draw_lines width _data projVertices.

(** [for (uint32_t v = first; v < bound; v++) body], where [bound] is a
    [double]: at most [fuel] passes, [None] when the loop is still
    running after them. *)
Fixpoint for_uint32 {A} (fuel : nat) (body : A -> Z -> A) (acc : A)
    (v : Z) (bound : Q) : option A :=
  match fuel with
  | O => None
  | S n =>
      if Qlt_le_dec (inject_Z v) bound
      then for_uint32 n body (body acc v) (wrap32 (v + 1)) bound
      else Some acc
  end.

(** The 2D branch of [DrawBoundingBox]: the two columns [x_values] over
    the rows from [minVertex.Y()], then the two rows [y_values] over the
    columns from [minVertex.X()].  The corners [center -/+ size / 2] are
    rationals: they are the values the source computes for a box on
    half pixels ([Merger.half_pixel_box]), where its [double] operations
    do not round; the statements about this branch are made for such
    boxes. *)
Definition DrawBoundingBox2D (fuel : nat) (width : Z) (_data : list Z)
    (_box : BoundingBox) : option (list Z) :=
  let minVertex := Vec2 (Merger.cornerMinX _box) (Merger.cornerMinY _box) in
  let maxVertex := Vec2 (Merger.cornerMaxX _box) (Merger.cornerMaxY _box) in
  let x_values := [to_uint32 (X minVertex); to_uint32 (X maxVertex)] in
  let y_values := [to_uint32 (Y minVertex); to_uint32 (Y maxVertex)] in
  _data ← for_uint32 fuel
             (fun _data i => foldl (fun _data j => plot width _data j i)
                                   _data x_values)
             _data (to_uint32 (Y minVertex)) (Y maxVertex);
  foldl (fun _data i =>
           _data ← _data;
           for_uint32 fuel (fun _data j => plot width _data j i)
                      _data (to_uint32 (X minVertex)) (X maxVertex))
        (Some _data) y_values.

(** [DrawBoundingBox]; [Vertices] stands for [BoundingBox::Vertices]. *)
Definition DrawBoundingBox (fuel : nat)
    (Vertices : BoundingBox -> list Vector3d)
    (project : Vector3d -> Vector2 PrimFloat.float) (width height : Z)
    (_data : list Z) (_box : BoundingBox) : option (list Z) :=
  match box_type _box with
  | BBT_BOX3D =>
      DrawBoundingBox3D fuel project width height _data (Vertices _box)
  | _ => DrawBoundingBox2D fuel width _data _box
  end.

(** *** Vocabulary of the statements about drawing *)

(** A pixel of an image [W] wide and [H] high. *)
Definition in_image (W H : Z) (p : Z * Z) : Prop :=
  0 <= fst p < W /\ 0 <= snd p < H.

(** The pixels that the 2D branch plots: the columns of the two
    [x_values] over the rows from the upper one up to, and without,
    [maxVertex.Y()], and the rows of the two [y_values] likewise. *)
Definition on_outline (_box : BoundingBox) (x y : Z) : Prop :=
  ((x = Merger.boxMinX _box \/ x = Merger.boxMaxX _box) /\
   Merger.boxMinY _box <= y /\ (inject_Z y < Merger.cornerMaxY _box)%Q) \/
  ((y = Merger.boxMinY _box \/ y = Merger.boxMaxY _box) /\
   Merger.boxMinX _box <= x /\ (inject_Z x < Merger.cornerMaxX _box)%Q).

(** The same pixels as a list, in the order of plotting. *)
Definition outline_pixels (_box : BoundingBox) : list (Z * Z) :=
  let rows := seqZ (Merger.boxMinY _box)
                (Qceiling (Merger.cornerMaxY _box) - Merger.boxMinY _box) in
  let columns := seqZ (Merger.boxMinX _box)
                   (Qceiling (Merger.cornerMaxX _box) - Merger.boxMinX _box) in
  (i ← rows; j ← [Merger.boxMinX _box; Merger.boxMaxX _box]; [(j, i)]) ++
  (i ← [Merger.boxMinY _box; Merger.boxMaxY _box]; j ← columns; [(j, i)]).

(** A 2D box that lies in an image [W] wide and [H] high: its size is
    not negative, its upper left corner is above -1 on both axes, so
    that the conversion to [uint32_t] does not wrap, and its lower
    right corner is at most the last column and row. *)
Definition box_in_image (W H : Z) (_box : BoundingBox) : Prop :=
  (0 <= X3 (box_size _box))%Q /\ (0 <= Y3 (box_size _box))%Q /\
  (-1 < Merger.cornerMinX _box)%Q /\ (-1 < Merger.cornerMinY _box)%Q /\
  (Merger.cornerMaxX _box <= inject_Z (W - 1))%Q /\
  (Merger.cornerMaxY _box <= inject_Z (H - 1))%Q.


Definition perspective (vertex : Vector3d) : Vector2 PrimFloat.float :=
  Vec2 (Double.to_single (Double.of_Q (X3 vertex / - Z3 vertex)))
       (Double.to_single (Double.of_Q (Y3 vertex / - Z3 vertex))).


(** The box that the test of [DrawBoundingBox] draws: centre (125,125),
    size (50,50). *)
Definition test_box : BoundingBox :=
  Merger.box2d BBT_VISIBLEBOX2D 125 125 50 50 1.

End Drawing.

(** ** VisibleBoundingBoxes: from the scan to the boxes *)

Module VisibleBoxes.
Import Scanner.

(** The body of the loop over [boundingboxes] that follows the scan:
    width, height and centre of a box from its boundary, computed in
    [uint32_t] (the division by 2 is the integer division) and stored
    in the [double] fields of the box. *)
Definition finish_box (box : BoundingBox) (boundary : BoxBoundary)
  : BoundingBox :=
  let boxWidth := wrap32 (maxX boundary - minX boundary) in
  let boxHeight := wrap32 (maxY boundary - minY boundary) in
  {| box_type := box_type box;
     box_center := Vec3d (inject_Z (wrap32 (minX boundary + boxWidth / 2)))
                         (inject_Z (wrap32 (minY boundary + boxHeight / 2)))
                         0;
     box_size := Vec3d (inject_Z boxWidth) (inject_Z boxHeight) 0;
     box_orientation := box_orientation box;
     box_label := box_label box |}.

(** The loop itself.  [boxesBoundary[ogreId]] of a box without boundary
    is a null pointer, and reading through it has no defined result:
    [None]. *)
Definition finish_boxes (st : VisibleState) : option (gmap Z BoundingBox) :=
  if decide (dom (boundingboxes st) ⊆ dom (boxesBoundary st))
  then Some (map_imap (fun ogreId box =>
                         finish_box box <$> boxesBoundary st !! ogreId)
                      (boundingboxes st))
  else None.

(** [VisibleBoundingBoxes] up to the call of [MergeMultiLinksModels2D]:
    the map [boundingboxes] after the two loops, from its value before
    them; [boxesBoundary] is a local variable and starts empty. *)
Definition visible_boxes (buffer : list Z) (width height backgroundLabel : Z)
    (boundingboxes : gmap Z BoundingBox) : option (gmap Z BoundingBox) :=
  st ← scan_visible buffer width height backgroundLabel
         (MkVisible boundingboxes ∅);
  finish_boxes st.

(** *** Vocabulary of the statements about the boxes *)

(** The pixels of the image that are not background and carry the
    identifier [id], in the order of the scan. *)
Definition object_pixels (buffer : list Z) (width height backgroundLabel : Z)
    (id : Z) : list (Z * Z) :=
  filter (fun p => pixel_label buffer width (fst p) (snd p) <> backgroundLabel
                   /\ pixel_ogreId buffer width (fst p) (snd p) = id)
         (row_major width height).

(** The boundary that the scan computes from the pixels of one
    object. *)
Definition pixels_boundary (width height : Z) (pixels : list (Z * Z))
  : BoxBoundary :=
  foldl (fun boundary p => update_boundary boundary (fst p) (snd p))
        (MkBoundary width height 0 0) pixels.

(** The box of an object whose pixels span the columns [x0] to [x1] and
    the rows [y0] to [y1]. *)
Definition extent_box (x0 x1 y0 y1 label : Z) : BoundingBox :=
  MkBox BBT_VISIBLEBOX2D
        (Vec3d (inject_Z (x0 + (x1 - x0) / 2)) (inject_Z (y0 + (y1 - y0) / 2)) 0)
        (Vec3d (inject_Z (x1 - x0)) (inject_Z (y1 - y0)) 0)
        Quaterniond_Identity label.

End VisibleBoxes.

(** ** FullProjectionBuilder: the extent of a mesh *)

Module MinimalBox.

Definition INT32_MAX : Z := 2147483647.
Definition INT32_MIN : Z := -2147483648.

(** [std::min(a, b)] is [b] when [b < a] and [a] otherwise;
    [std::max(a, b)] is [b] when [a < b] and [a] otherwise. *)
Definition std_min (a b : Q) : Q := if Qlt_le_dec b a then b else a.
Definition std_max (a b : Q) : Q := if Qlt_le_dec a b then b else a.

(** The six updates at the end of the loop body of [MeshMinimalBox],
    for one projected vertex [vec]. *)
Definition extend (extent : Vector3d * Vector3d) (vec : Vector3d)
  : Vector3d * Vector3d :=
  let '(_minVertex, _maxVertex) := extent in
  (Vec3d (std_min (X3 _minVertex) (X3 vec))
         (std_min (Y3 _minVertex) (Y3 vec))
         (std_min (Z3 _minVertex) (Z3 vec)),
   Vec3d (std_max (X3 _maxVertex) (X3 vec))
         (std_max (Y3 _maxVertex) (Y3 vec))
         (std_max (Z3 _maxVertex) (Z3 vec))).

(** [MeshMinimalBox] on the vertices of the mesh after their
    projection, in the order of the loops over the sub-meshes and their
    vertices: the pair ([_minVertex], [_maxVertex]). *)
Definition MeshMinimalBox (vertices : list Vector3d) : Vector3d * Vector3d :=
  foldl extend
        (Vec3d (inject_Z INT32_MAX) (inject_Z INT32_MAX) (inject_Z INT32_MAX),
         Vec3d (inject_Z INT32_MIN) (inject_Z INT32_MIN) (inject_Z INT32_MIN))
        vertices.

(** What [FullBoundingBoxes] makes of one visible item in the frustum:
    the extent of its mesh, then the box for it, if any. *)
Definition item_box (width height label : Z) (vertices : list Vector3d)
  : option BoundingBox :=
  let '(minVertex, maxVertex) := MeshMinimalBox vertices in
  FullBox.full_box width height label minVertex maxVertex.

(** *** Vocabulary *)


End MinimalBox.

(** ** FullBoundingBoxes: the loop over the items *)

Module FullBoxes.
Import Scanner.

(** What the loop reads of one [Ogre::Item]: its identifier, whether the
    camera sees its bounding box ([ogreCamera->isVisible(worldAabb)])
    and the projected vertices of its mesh. *)
Record Item := MkItem {
  item_id : Z;
  item_isVisible : bool;
  item_vertices : list Vector3d }.

Definition with_label (box : BoundingBox) (label : Z) : BoundingBox :=
  MkBox (box_type box) (box_center box) (box_size box)
        (box_orientation box) label.

(** One pass of the [while] loop over the items.  [label0] is the label
    of a new [BoundingBox], which this loop does not set. *)
Definition item_step (width height label0 : Z) (visibleBoxesLabel : gmap Z Z)
    (boundingboxes : gmap Z BoundingBox) (item : Item)
  : gmap Z BoundingBox :=
  let ogreId := item_id item in
  (* Skip the items which is hidden in the ogreId map *)
  match visibleBoxesLabel !! ogreId with
  | None => boundingboxes
  | Some _ =>
      (* filter the boxes outside the camera frustum *)
      if negb (item_isVisible item) then boundingboxes
      else
        match MinimalBox.item_box width height label0 (item_vertices item) with
        | None => boundingboxes
        | Some box => <[ogreId := box]> boundingboxes
        end
  end.

(** "Set boxes label": [visibleBoxesLabel[ogreId]] is 0 for an
    identifier without entry. *)
Definition set_labels (visibleBoxesLabel : gmap Z Z)
    (boundingboxes : gmap Z BoundingBox) : gmap Z BoundingBox :=
  map_imap (fun ogreId box =>
              Some (with_label box (default 0 (visibleBoxesLabel !! ogreId))))
           boundingboxes.

(** [FullBoundingBoxes] up to the call of [MergeMultiLinksModels2D], in
    a new frame: the map [boundingboxes]. *)
Definition full_boxes (buffer : list Z) (width height backgroundLabel : Z)
    (label0 : Z) (items : list Item) : gmap Z BoundingBox :=
  let visibleBoxesLabel :=
    MarkVisibleBoxes buffer width height backgroundLabel ∅ in
  let boundingboxes :=
    foldl (item_step width height label0 visibleBoxesLabel) ∅ items in
  set_labels visibleBoxesLabel boundingboxes.

End FullBoxes.

(** ** MultiPartMerger: grouping by parent name *)

Module MultiLinks.

(** [std::map<std::string, std::vector<BoundingBox *>>], as the list of
    its entries in ascending order of the keys; strings are compared
    character by character, as [std::string] compares them. *)
Definition Groups : Type := list (String.string * list BoundingBox).

(** [parentNameToBoxes[parentName].push_back(box)]: the entry of
    [parentName] is created, empty, when the map has none. *)
Fixpoint push_back_at (parentName : String.string) (box : BoundingBox)
    (groups : Groups) : Groups :=
  match groups with
  | [] => [(parentName, [box])]
  | (name, boxes) :: rest =>
      match String.compare parentName name with
      | Lt => (parentName, [box]) :: groups
      | Eq => (name, boxes ++ [box]) :: rest
      | Gt => (name, boxes) :: push_back_at parentName box rest
      end
  end.

(** The entries of [boundingboxes], a [std::map<uint32_t, _>], in the
    order in which a loop visits them: ascending identifiers. *)
Definition id_le (a b : Z * BoundingBox) : Prop := fst a <= fst b.

#[global] Instance id_le_dec : RelDecision id_le :=
  fun a b => decide (fst a <= fst b).

Definition entries (boundingboxes : gmap Z BoundingBox)
  : list (Z * BoundingBox) :=
  merge_sort id_le (map_to_list boundingboxes).

(** [MergeMultiLinksModels2D]: the new value of [outputBoxes].  [type]
    is the camera's box type, [ogreIdName] gives the value of
    [materialSwitcher->ogreIdName[ogreId]], and [parentNameToBoxes] and
    [outputBoxes] are the values of these members at the call; a frame
    starts with both empty. *)
Definition MergeMultiLinksModels2D (type : BoundingBoxType)
    (ogreIdName : Z -> String.string) (boundingboxes : gmap Z BoundingBox)
    (parentNameToBoxes : Groups) (outputBoxes : list BoundingBox)
  : option (list BoundingBox) :=
  (* Combine the boxes with the same parent name together to merge them *)
  let parentNameToBoxes :=
    foldl (fun groups box =>
             push_back_at (ogreIdName (fst box)) (snd box) groups)
          parentNameToBoxes (entries boundingboxes) in
  (* Merge the boxes that is related to the same parent *)
  merged ← mapM (fun nameToBoxes =>
                   Merger.MergeBoxes2D type (snd nameToBoxes))
                parentNameToBoxes;
  (* reverse the order of the boxes *)
  Some (reverse (outputBoxes ++ merged)).

(** [VisibleBoundingBoxes] in a new frame: the two loops, then the
    merge. *)
Definition VisibleBoundingBoxes (buffer : list Z)
    (width height backgroundLabel : Z) (type : BoundingBoxType)
    (ogreIdName : Z -> String.string) : option (list BoundingBox) :=
  boundingboxes ← VisibleBoxes.visible_boxes buffer width height
                    backgroundLabel ∅;
  MergeMultiLinksModels2D type ogreIdName boundingboxes [] [].

(** *** Vocabulary *)

(** The boxes of the parts of the model [name], in ascending order of
    their identifiers. *)
Definition parts (ogreIdName : Z -> String.string)
    (boundingboxes : gmap Z BoundingBox) (name : String.string)
  : list BoundingBox :=
  snd <$> filter (fun box => ogreIdName (fst box) = name)
                 (entries boundingboxes).

(** [a] comes before [b] in the order of the keys of the map. *)
Definition name_lt (a b : String.string) : Prop := String.compare a b = Lt.

(** The keys of the map are in strictly ascending order. *)
Definition ordered (groups : Groups) : Prop :=
  StronglySorted name_lt (fst <$> groups).

(** Three boxes: the identifiers 1 and 2 are parts of the model "a",
    the identifier 3 is the model "b". *)
Definition model_a : String.string :=
  String.String (Ascii.ascii_of_nat 97) String.EmptyString.
Definition model_b : String.string :=
  String.String (Ascii.ascii_of_nat 98) String.EmptyString.

Definition three_names (ogreId : Z) : String.string :=
  if ogreId =? 3 then model_b else model_a.

Definition three_boxes : gmap Z BoundingBox :=
  <[1 := Merger.box2d BBT_VISIBLEBOX2D 10 10 4 4 7]>
    (<[2 := Merger.box2d BBT_VISIBLEBOX2D 20 20 4 4 7]>
       (<[3 := Merger.box2d BBT_VISIBLEBOX2D 50 50 2 2 9]> ∅)).

End MultiLinks.

(** * Proofs *)

(** ** ViewportClipper: facts that hold in any arithmetic *)

Section ClipperLoop.
Import Clipper.
Context {T : Type} {A : Arithmetic T}.
Implicit Types (b : Vector4 T) (s : ClipState T) (p q : Vector2 T).

(** An outcode is zero exactly when none of the four comparisons of
    [LocationRelativeToViewPort] holds. *)
Lemma Location_zero_iff b x y :
  LocationRelativeToViewPort b x y = 0 <->
  (x <? b_xmin b)%D = false /\ (x >? b_xmax b)%D = false /\
  (y <? b_ymin b)%D = false /\ (y >? b_ymax b)%D = false.
Proof.
  unfold LocationRelativeToViewPort.
  destruct (x <? b_xmin b)%D, (x >? b_xmax b)%D,
           (y <? b_ymin b)%D, (y >? b_ymax b)%D;
    vm_compute; split; intros H; try discriminate H; try tauto;
    destruct H as (? & ? & ? & ?); discriminate.
Qed.

(** *** One pass of the loop *)

Lemma breaks_iteration b s :
  breaks (location0 s) (location1 s) = true <->
  exists a, clip_iteration b s = Break a.
Proof.
  unfold breaks, clip_iteration, outerLocation.
  destruct (negb (nonzero (Z.lor (location0 s) (location1 s)))); cbn;
    [split; eauto|].
  destruct (nonzero (Z.land (location0 s) (location1 s))); cbn;
    [split; eauto|].
  destruct (select_branch _) as [br|]; [|split; eauto].
  destruct (intersection b s br) as [x y].
  destruct (_ =? _); split; intros H; try discriminate H;
    destruct H as [a H]; discriminate H.
Qed.

Lemma step_consistent b s s' :
  consistent b s -> clip_iteration b s = Continue s' -> consistent b s'.
Proof.
  intros [H0 H1]. unfold clip_iteration.
  destruct (negb _); [discriminate|].
  destruct (nonzero (Z.land _ _)); [discriminate|].
  destruct (select_branch _) as [br|]; [|discriminate].
  destruct (intersection b s br) as [x y].
  destruct (_ =? _); intros [= <-]; split; cbn; auto.
Qed.

Lemma iteration_branch b s s' :
  clip_iteration b s = Continue s' ->
  exists br, branch_taken s = Some br.
Proof.
  unfold clip_iteration, branch_taken.
  destruct (negb _); [discriminate|].
  destruct (nonzero (Z.land _ _)); [discriminate|].
  destruct (select_branch _) as [br|]; [eauto|discriminate].
Qed.

(** A pass breaks with [accept] set only when both outcodes are zero. *)
Lemma iteration_accept b s :
  clip_iteration b s = Break true ->
  location0 s = 0 /\ location1 s = 0.
Proof.
  unfold clip_iteration. destruct (negb _) eqn:Hz.
  - intros _. apply negb_true_iff in Hz. unfold nonzero in Hz.
    apply negb_false_iff, Z.eqb_eq, Z.lor_eq_0_iff in Hz. exact Hz.
  - destruct (nonzero (Z.land _ _)); [discriminate|].
    destruct (select_branch _) as [br|]; [|discriminate].
    destruct (intersection b s br). destruct (_ =? _); discriminate.
Qed.

Lemma measure_le_4 s : (clip_measure s <= 4)%nat.
Proof.
  unfold clip_measure, popcount4.
  destruct (breaks _ _); [lia|].
  repeat match goal with |- context [Z.testbit ?a ?i] =>
    destruct (Z.testbit a i) end; cbn; lia.
Qed.

(** *** The loop *)

Lemma clip_loop_S n b s :
  clip_loop (S n) b s =
  match clip_iteration b s with
  | Break accept => Some (accept, s)
  | Continue s' => clip_loop n b s'
  end.
Proof. reflexivity. Qed.

Lemma initial_consistent b p0 p1 : consistent b (initial b p0 p1).
Proof. split; reflexivity. Qed.

Lemma clip_loop_more b : forall n k s r,
  clip_loop n b s = Some r -> clip_loop (n + k) b s = Some r.
Proof.
  induction n as [|n IH]; intros k s r H; [discriminate|].
  cbn in *. destruct (clip_iteration b s); [assumption|]. now apply IH.
Qed.

Lemma clip_loop_le b n m s r :
  (n <= m)%nat -> clip_loop n b s = Some r -> clip_loop m b s = Some r.
Proof.
  intros Hle H. replace m with (n + (m - n))%nat by lia.
  now apply clip_loop_more.
Qed.

Lemma ClipToViewPort_le b p0 p1 n m r :
  (n <= m)%nat -> ClipToViewPort n b p0 p1 = Some r ->
  ClipToViewPort m b p0 p1 = Some r.
Proof.
  unfold ClipToViewPort. intros Hle H.
  destruct (clip_loop n b (initial b p0 p1)) as [r0|] eqn:E;
    [|discriminate].
  now rewrite (clip_loop_le _ _ _ _ _ Hle E).
Qed.

(** A call returns at most one result. *)
Lemma returns_unique b p0 p1 r r' :
  returns b p0 p1 r -> returns b p0 p1 r' -> r = r'.
Proof.
  intros [n Hn] [m Hm].
  pose proof (ClipToViewPort_le _ _ _ _ _ _ (Nat.le_max_l n m) Hn) as H1.
  pose proof (ClipToViewPort_le _ _ _ _ _ _ (Nat.le_max_r n m) Hm) as H2.
  congruence.
Qed.

Lemma state_at_consistent b : forall k s s',
  consistent b s -> state_at k b s = Some s' -> consistent b s'.
Proof.
  induction k as [|k IH]; intros s s' Hc H; cbn in H.
  - now inversion H; subst.
  - destruct (clip_iteration b s) as [a|s1] eqn:E; [discriminate|].
    eapply IH; [|eassumption]. eapply step_consistent; eauto.
Qed.

(** The passes before pass [k] do not break, and the loop goes on from
    the state of pass [k]. *)
Lemma clip_loop_short b : forall k s s' fuel,
  state_at k b s = Some s' -> (fuel <= k)%nat -> clip_loop fuel b s = None.
Proof.
  induction k as [|k IH]; intros s s' fuel H Hle.
  - now replace fuel with 0%nat by lia.
  - destruct fuel as [|fuel]; [reflexivity|]. cbn in *.
    destruct (clip_iteration b s) as [a|s1]; [discriminate|].
    eapply IH; [eassumption|lia].
Qed.

Lemma clip_loop_split b : forall k s s' fuel,
  state_at k b s = Some s' ->
  clip_loop (k + fuel) b s = clip_loop fuel b s'.
Proof.
  induction k as [|k IH]; intros s s' fuel H; cbn in *.
  - now injection H as ->.
  - destruct (clip_iteration b s) as [a|s1]; [discriminate|].
    now apply IH.
Qed.

(** A state that comes back after one or more passes is never left. *)
Lemma cycle_never_breaks b k s :
  (0 < k)%nat -> state_at k b s = Some s ->
  forall fuel, clip_loop fuel b s = None.
Proof.
  intros Hk Hcyc fuel.
  induction fuel as [fuel IH] using (well_founded_induction lt_wf).
  destruct (le_lt_dec fuel k) as [Hle|Hgt].
  - eapply clip_loop_short; eassumption.
  - replace fuel with (k + (fuel - k))%nat by lia.
    rewrite (clip_loop_split _ _ _ _ _ Hcyc). apply IH. lia.
Qed.

(** An accepted result consists of the two points of a state whose
    outcodes are both zero. *)
Lemma clip_loop_accept b : forall fuel s s',
  consistent b s -> clip_loop fuel b s = Some (true, s') ->
  consistent b s' /\ location0 s' = 0 /\ location1 s' = 0.
Proof.
  induction fuel as [|n IH]; intros s s' Hc H; [discriminate|].
  cbn in H. destruct (clip_iteration b s) as [a|s1] eqn:E.
  - injection H as -> ->. split; [assumption|].
    now apply (iteration_accept b).
  - eapply IH; [|eassumption]. eapply step_consistent; eauto.
Qed.

Lemma ClipToViewPort_accept fuel b p0 p1 q0 q1 :
  ClipToViewPort fuel b p0 p1 = Some (Endpoints q0 q1) ->
  location_of b q0 = 0 /\ location_of b q1 = 0.
Proof.
  unfold ClipToViewPort.
  destruct (clip_loop fuel b (initial b p0 p1)) as [[a s]|] eqn:E; cbn;
    [|discriminate].
  destruct a; [|discriminate]. intros [= <- <-].
  destruct (clip_loop_accept _ _ _ _ (initial_consistent b p0 p1) E)
    as ([H0 H1] & Hz0 & Hz1).
  unfold location_of; cbn. rewrite <- H0, <- H1. auto.
Qed.

(** Both outcodes zero: the first pass accepts the segment as it is. *)
Lemma accept_zero b p0 p1 n :
  location_of b p0 = 0 -> location_of b p1 = 0 ->
  ClipToViewPort (S n) b p0 p1 = Some (Endpoints p0 p1).
Proof.
  unfold location_of, ClipToViewPort. intros H0 H1.
  rewrite clip_loop_S. unfold clip_iteration, initial; cbn.
  rewrite H0, H1. destruct p0, p1; reflexivity.
Qed.

(** The outcodes share a bit: the first pass rejects the segment. *)
Lemma reject_shared b p0 p1 n :
  Z.land (location_of b p0) (location_of b p1) <> 0 ->
  ClipToViewPort (S n) b p0 p1 = Some NaNPair.
Proof.
  intros H. unfold location_of in H. unfold ClipToViewPort.
  rewrite clip_loop_S. unfold clip_iteration, initial; cbn.
  assert (Hor : Z.lor (LocationRelativeToViewPort b (X p0) (Y p0))
                      (LocationRelativeToViewPort b (X p1) (Y p1)) <> 0).
  { intros E. apply Z.lor_eq_0_iff in E as [E0 E1].
    rewrite E0 in H. now rewrite Z.land_0_l in H. }
  unfold nonzero.
  apply Z.eqb_neq in Hor, H. now rewrite Hor, H.
Qed.

(** *** One endpoint within the bounds, the other beyond one boundary *)



(** The final [else] of the branch chain ends the loop without
    accepting. *)
Lemma internal_error_rejects b s n :
  nonzero (Z.lor (location0 s) (location1 s)) = true ->
  nonzero (Z.land (location0 s) (location1 s)) = false ->
  select_branch (outerLocation s) = None ->
  result_of <$> clip_loop (S n) b s = Some NaNPair.
Proof.
  intros Hor Hand Hsel. rewrite clip_loop_S.
  unfold clip_iteration. rewrite Hor, Hand, Hsel. reflexivity.
Qed.

(** What a call returns is the NaN pair or two points of outcode 0. *)
Lemma ClipToViewPort_result fuel b p0 p1 r :
  ClipToViewPort fuel b p0 p1 = Some r ->
  r = NaNPair \/
  exists q0 q1, r = Endpoints q0 q1 /\
                location_of b q0 = 0 /\ location_of b q1 = 0.
Proof.
  intros H. destruct r as [q0 q1|]; [right|now left].
  exists q0, q1. split; [reflexivity|].
  exact (ClipToViewPort_accept _ _ _ _ _ _ H).
Qed.

(** *** The lines vector *)

Lemma AddToViewportLines_appends fuel b p0 p1 lines lines' :
  AddToViewportLines fuel b p0 p1 lines = Some lines' ->
  lines' = lines \/
  exists q0 q1, lines' = lines ++ [q0; q1] /\ kept b q0 /\ kept b q1.
Proof.
  unfold AddToViewportLines.
  destruct (ClipToViewPort fuel b p0 p1) as [[q0 q1|]|] eqn:E; cbn;
    [| intros [= <-]; now left | discriminate].
  destruct (IsFinite q0) eqn:F0, (IsFinite q1) eqn:F1; cbn;
    intros [= <-]; [right|now left..].
  destruct (ClipToViewPort_accept _ _ _ _ _ _ E) as [H0 H1].
  exists q0, q1. unfold kept. auto.
Qed.

Lemma add_segments_invariant fuel b : forall segments lines lines',
  add_segments fuel b segments lines = Some lines' ->
  Nat.Even (length lines) -> Forall (kept b) lines ->
  Nat.Even (length lines') /\ Forall (kept b) lines'.
Proof.
  induction segments as [|seg rest IH]; intros lines lines' H He Hf.
  - injection H as <-. auto.
  - cbn in H.
    destruct (AddToViewportLines fuel b (fst seg) (snd seg) lines)
      as [l1|] eqn:E; [|discriminate]. cbn in H.
    destruct (AddToViewportLines_appends _ _ _ _ _ _ E)
      as [->|(q0 & q1 & -> & Hq0 & Hq1)].
    + eapply IH; eassumption.
    + eapply IH; [eassumption| |].
      * destruct He as [k Hk]. exists (S k).
        rewrite length_app. cbn. lia.
      * apply Forall_app. split; [exact Hf|].
        constructor; [assumption|]. constructor; [assumption|constructor].
Qed.

End ClipperLoop.

(** ** ViewportClipper: the internal-error branch *)

Section ClipperNeverErrs.
Import Clipper.
Context {T : Type} {A : Arithmetic T}.
Implicit Types (b : Vector4 T) (s : ClipState T) (p q : Vector2 T).

(** An outcode never names two opposite sides: it is one of the nine
    values 0, 1, 2, 4, 5, 6, 8, 9, 10. *)
Lemma Location_values b x y :
  In (LocationRelativeToViewPort b x y) [0; 1; 2; 4; 5; 6; 8; 9; 10].
Proof.
  unfold LocationRelativeToViewPort.
  destruct (x <? b_xmin b)%D, (x >? b_xmax b)%D,
           (y <? b_ymin b)%D, (y >? b_ymax b)%D;
    vm_compute; tauto.
Qed.

(** With proper outcodes that are not both zero, the chain of tests on
    [outerLocation] finds a branch. *)
Lemma select_branch_found b s :
  consistent b s ->
  nonzero (Z.lor (location0 s) (location1 s)) = true ->
  exists br, select_branch (outerLocation s) = Some br.
Proof.
  intros [H0 H1]. unfold outerLocation.
  pose proof (Location_values b (st_x0 s) (st_y0 s)) as V0.
  pose proof (Location_values b (st_x1 s) (st_y1 s)) as V1.
  rewrite <- H0 in V0. rewrite <- H1 in V1.
  generalize dependent (location0 s). generalize dependent (location1 s).
  intros l1 _ V1 l0 _ V0. cbn [In] in V0, V1.
  repeat (destruct V0 as [<-|V0]; [|]); try contradiction;
  repeat (destruct V1 as [<-|V1]; [|]); try contradiction;
  vm_compute; intros Hor; try discriminate Hor; eexists; reflexivity.
Qed.

(** A pass that breaks without accepting has found a shared bit. *)
Lemma iteration_reject b s :
  consistent b s -> clip_iteration b s = Break false ->
  Z.land (location0 s) (location1 s) <> 0.
Proof.
  intros Hc. unfold clip_iteration.
  destruct (negb _) eqn:Hor; [discriminate|].
  apply negb_false_iff in Hor.
  destruct (nonzero (Z.land _ _)) eqn:Hand.
  - intros _. unfold nonzero in Hand.
    apply negb_true_iff, Z.eqb_neq in Hand. exact Hand.
  - destruct (select_branch_found b s Hc Hor) as [br ->].
    destruct (intersection b s br). destruct (_ =? _); discriminate.
Qed.

Lemma clip_loop_reject b : forall fuel s s',
  consistent b s -> clip_loop fuel b s = Some (false, s') ->
  consistent b s' /\ Z.land (location0 s') (location1 s') <> 0.
Proof.
  induction fuel as [|n IH]; intros s s' Hc H; [discriminate|].
  cbn in H. destruct (clip_iteration b s) as [a|s1] eqn:E.
  - injection H as -> ->. split; [assumption|].
    now apply (iteration_reject b).
  - eapply IH; [|eassumption]. eapply step_consistent; eauto.
Qed.

End ClipperNeverErrs.

(** ** ViewportClipper: where the returned endpoints come from *)

Section ClipperProvenance.
Import Clipper.
Context {T : Type} {A : Arithmetic T}.
Implicit Types (b : Vector4 T) (s : ClipState T) (p q : Vector2 T).










End ClipperProvenance.

(** ** ViewportClipper in exact arithmetic *)

Section ClipperExact.
Import Clipper Clipper.Exact.

(** *** The intersection formula stays between the two endpoints *)

Lemma interp_param a0 a1 m b0 b1 :
  ~ (b1 - b0 == 0)%Q ->
  (interp a0 a1 m b0 b1 == a0 + (a1 - a0) * ((m - b0) / (b1 - b0)))%Q.
Proof. intros H. unfold interp. field. exact H. Qed.

Lemma ratio_unit m b0 b1 :
  ((b0 <= m /\ m <= b1 /\ b0 < b1) \/ (b1 <= m /\ m <= b0 /\ b1 < b0))%Q ->
  (0 <= (m - b0) / (b1 - b0) /\ (m - b0) / (b1 - b0) <= 1)%Q.
Proof.
  intros [(H1 & H2 & H3) | (H1 & H2 & H3)].
  - split.
    + apply Qle_shift_div_l; lra.
    + apply Qle_shift_div_r; lra.
  - assert (E : ((m - b0) / (b1 - b0) == (b0 - m) / (b0 - b1))%Q)
      by (field; lra).
    rewrite E. split.
    + apply Qle_shift_div_l; lra.
    + apply Qle_shift_div_r; lra.
Qed.

Lemma interp_between a0 a1 m b0 b1 :
  ((b0 <= m /\ m <= b1 /\ b0 < b1) \/ (b1 <= m /\ m <= b0 /\ b1 < b0))%Q ->
  ((a0 <= a1 -> a0 <= interp a0 a1 m b0 b1 <= a1) /\
   (a1 <= a0 -> a1 <= interp a0 a1 m b0 b1 <= a0))%Q.
Proof.
  intros H. pose proof (ratio_unit _ _ _ H) as [Ht0 Ht1].
  assert (Hd : ~ (b1 - b0 == 0)%Q) by (destruct H as [H|H]; lra).
  rewrite (interp_param _ _ _ _ _ Hd).
  set (t := ((m - b0) / (b1 - b0))%Q) in *. clearbody t.
  split; intros; split; nra.
Qed.

(** *** Outcodes *)

(** An outcode is a horizontal part (0, LEFT or RIGHT) or-ed with a
    vertical part (0, BOTTOM or TOP), each fixed by the comparisons the
    source makes. *)
Lemma Location_cases b x y :
  exists h v,
    LocationRelativeToViewPort b x y = Z.lor h v /\
    ((h = 1 /\ (x < b_xmin b)%Q) \/
     (h = 2 /\ (b_xmin b <= x)%Q /\ (b_xmax b < x)%Q) \/
     (h = 0 /\ (b_xmin b <= x)%Q /\ (x <= b_xmax b)%Q)) /\
    ((v = 4 /\ (y < b_ymin b)%Q) \/
     (v = 8 /\ (b_ymin b <= y)%Q /\ (b_ymax b < y)%Q) \/
     (v = 0 /\ (b_ymin b <= y)%Q /\ (y <= b_ymax b)%Q)).
Proof.
  unfold LocationRelativeToViewPort, d_lt, exact.
  destruct (Qlt_le_dec x (b_xmin b));
    [exists 1|destruct (Qlt_le_dec (b_xmax b) x); [exists 2|exists 0]];
  (destruct (Qlt_le_dec y (b_ymin b));
    [exists 4|destruct (Qlt_le_dec (b_ymax b) y); [exists 8|exists 0]]);
  (split; [reflexivity|split; tauto]).
Qed.

Ltac loc_split x y :=
  let h := fresh "h" in let v := fresh "v" in
  let E := fresh "E" in let Hh := fresh "Hh" in let Hv := fresh "Hv" in
  lazymatch goal with
  | |- context [LocationRelativeToViewPort ?b x y] =>
      destruct (Location_cases b x y) as (h & v & E & Hh & Hv);
      rewrite !E in *; clear E;
      destruct Hh as [[-> Hh]|[[-> Hh]|[-> Hh]]];
      destruct Hv as [[-> Hv]|[[-> Hv]|[-> Hv]]]
  end.

(** Evaluate the outcode arithmetic once the outcodes are numerals. *)
Ltac is_numeral z :=
  lazymatch z with Z0 => idtac | Zpos _ => idtac | Zneg _ => idtac end.

Ltac zeval :=
  repeat match goal with
  | |- context [Z.lor ?a ?c] =>
      is_numeral a; is_numeral c;
      let r := eval vm_compute in (Z.lor a c) in change (Z.lor a c) with r
  | |- context [Z.land ?a ?c] =>
      is_numeral a; is_numeral c;
      let r := eval vm_compute in (Z.land a c) in change (Z.land a c) with r
  | |- context [Z.eqb ?a ?c] =>
      is_numeral a; is_numeral c;
      let r := eval vm_compute in (Z.eqb a c) in change (Z.eqb a c) with r
  | |- context [Z.ltb ?a ?c] =>
      is_numeral a; is_numeral c;
      let r := eval vm_compute in (Z.ltb a c) in change (Z.ltb a c) with r
  end.

(** The operations of the exact instance are those of [Q]. *)
Ltac exact_ops :=
  change (@d_add Q exact) with Qplus in *;
  change (@d_sub Q exact) with Qminus in *;
  change (@d_mul Q exact) with Qmult in *;
  change (@d_div Q exact) with Qdiv in *.

Ltac clip_eval :=
  repeat (progress
    (cbv beta iota zeta delta
       [clip_iteration branch_taken select_branch outerLocation
        intersection denominator nonzero negb
        kInside kLeft kRight kBottom kTop
        location0 location1 st_x0 st_y0 st_x1 st_y1
        b_xmin b_ymin b_xmax b_ymax X Y];
     zeval));
  exact_ops.

(** Name the interpolated coordinate and, when the boundary value lies
    between the two endpoints, record that the result does too. *)
Ltac interp_facts :=
  repeat match goal with
  | H : context [(?a0 + (?a1 - ?a0) * (?m - ?b0) / (?b1 - ?b0))%Q] |- _ =>
      change (a0 + (a1 - a0) * (m - b0) / (b1 - b0))%Q
        with (interp a0 a1 m b0 b1) in *;
      try (let Hi := fresh "Hint" in
           assert (Hi := interp_between a0 a1 m b0 b1);
           let Hp := fresh "Hp" in
           assert (Hp : ((b0 <= m /\ m <= b1 /\ b0 < b1) \/
                         (b1 <= m /\ m <= b0 /\ b1 < b0))%Q) by lra;
           specialize (Hi Hp); clear Hp);
      generalize dependent (interp a0 a1 m b0 b1); intros
  end.

(** *** Termination *)

(** Each pass that does not break moves one endpoint onto a boundary it
    lay beyond, and the intersection point is beyond no boundary that
    neither endpoint was beyond. *)
Lemma step_decreases b s s' :
  consistent b s -> clip_iteration b s = Continue s' ->
  (clip_measure s' < clip_measure s)%nat.
Proof.
  destruct s as [x0 y0 x1 y1 l0 l1]. intros [H0 H1].
  simpl in H0, H1. subst l0 l1.
  unfold clip_iteration, clip_measure.
  cbn [st_x0 st_y0 st_x1 st_y1 location0 location1].
  loc_split x0 y0; loc_split x1 y1; clip_eval;
    intros Heq; try discriminate Heq; injection Heq as <-;
    cbn [st_x0 st_y0 st_x1 st_y1 location0 location1].
  all: destruct b as [xmin ymin xmax ymax];
       cbn [b_xmin b_ymin b_xmax b_ymax] in *.
  all: match goal with
       | |- context [LocationRelativeToViewPort ?b ?x ?y] => loc_split x y
       end; cbn [b_xmin b_ymin b_xmax b_ymax] in *.
  all: try (vm_compute; lia).
  all: exfalso; interp_facts; lra.
Qed.

Lemma clip_loop_measure b : forall fuel s,
  consistent b s -> (clip_measure s < fuel)%nat ->
  exists r, clip_loop fuel b s = Some r.
Proof.
  induction fuel as [|n IH]; intros s Hc Hm; [lia|].
  cbn. destruct (clip_iteration b s) as [a|s'] eqn:E; [eauto|].
  apply IH.
  - eapply step_consistent; eauto.
  - pose proof (step_decreases _ _ _ Hc E). lia.
Qed.

(** Five passes are enough, whatever the bounds and the segment. *)
Lemma clip_loop_total b s :
  consistent b s -> exists r, clip_loop 5 b s = Some r.
Proof.
  intros Hc. apply clip_loop_measure; [assumption|].
  pose proof (measure_le_4 s). lia.
Qed.

Lemma ClipToViewPort_total b p0 p1 :
  exists r, ClipToViewPort 5 b p0 p1 = Some r.
Proof.
  unfold ClipToViewPort.
  destruct (clip_loop_total b _ (initial_consistent b p0 p1)) as [r ->].
  eexists; reflexivity.
Qed.

(** A pass that reaches the clipping branch divides by the difference
    of two coordinates that lie on opposite sides of the chosen
    boundary. *)
Lemma branch_denominator b s br :
  consistent b s -> branch_taken s = Some br ->
  ~ (denominator s br == 0)%Q.
Proof.
  destruct s as [x0 y0 x1 y1 l0 l1]. intros [H0 H1].
  simpl in H0, H1. subst l0 l1.
  unfold branch_taken, outerLocation.
  cbn [st_x0 st_y0 st_x1 st_y1 location0 location1].
  loc_split x0 y0; loc_split x1 y1; clip_eval; intros Heq;
    try discriminate Heq; injection Heq as <-; clip_eval; lra.
Qed.

(** In exact arithmetic the loop breaks within five passes and never
    divides by zero, for all bounds and all segments. *)
Lemma exact_clip_terminates b p0 p1 :
  (exists n r, (n <= 5)%nat /\ clip_loop n b (initial b p0 p1) = Some r) /\
  (forall k s br,
     state_at k b (initial b p0 p1) = Some s ->
     branch_taken s = Some br ->
     match br with
     | BTop | BBottom => ~ (st_y1 s - st_y0 s == 0)%Q
     | BRight | BLeft => ~ (st_x1 s - st_x0 s == 0)%Q
     end).
Proof.
  split.
  - destruct (clip_loop_total b _ (initial_consistent b p0 p1)) as [r Hr].
    exists 5%nat, r. split; [lia|exact Hr].
  - intros k s br Hk Hbr.
    pose proof (state_at_consistent _ _ _ _ (initial_consistent b p0 p1) Hk)
      as Hc.
    pose proof (branch_denominator _ _ _ Hc Hbr) as Hd.
    destruct br; exact Hd.
Qed.

End ClipperExact.

(** ** ViewportClipper in binary64 *)

Section ClipperBinary64.
Import Clipper Clipper.Binary64.
Import SpecFloat PrimFloat FloatOps FloatAxioms.
Implicit Types (b : Vector4 float) (p : Vector2 float).

(** *** The order of the floating-point numbers *)

Lemma SFcompare_antisym f1 f2 :
  SFcompare f2 f1 = option_map CompOpp (SFcompare f1 f2).
Proof.
  destruct f1 as [s1|s1| |s1 m1 e1], f2 as [s2|s2| |s2 m2 e2]; cbn;
    try reflexivity;
    try (destruct s1; reflexivity); try (destruct s2; reflexivity);
    try (destruct s1, s2; reflexivity).
  pose proof (Pos.compare_cont_antisym m1 m2 Eq) as E. cbn in E.
  destruct s1, s2; cbn; try reflexivity;
    rewrite (Z.compare_antisym e1 e2);
    destruct (e1 ?= e2)%Z; cbn; try reflexivity;
    rewrite <- E; destruct (Pos.compare_cont Eq m1 m2); reflexivity.
Qed.

Lemma SFcompare_numbers f1 f2 :
  f1 <> S754_nan -> f2 <> S754_nan -> exists c, SFcompare f1 f2 = Some c.
Proof.
  destruct f1 as [s1|s1| |s1 m1 e1], f2 as [s2|s2| |s2 m2 e2]; cbn;
    intros H1 H2; try congruence; eexists; reflexivity.
Qed.

Lemma SFcompare_refl f : f <> S754_nan -> SFcompare f f = Some Eq.
Proof.
  destruct f as [s|s| |s m e]; cbn; intros H.
  - reflexivity.
  - now destruct s.
  - now elim H.
  - rewrite Z.compare_refl.
    change (Pos.compare_cont Eq m m) with (Pos.compare m m).
    rewrite Pos.compare_refl. now destruct s.
Qed.

Lemma is_number_spec x : is_number x <-> Prim2SF x <> S754_nan.
Proof.
  unfold is_number, is_nan. rewrite eqb_spec. unfold SFeqb. split.
  - intros H E. rewrite E in H. discriminate H.
  - intros H. now rewrite (SFcompare_refl _ H).
Qed.

(** Between numbers, [a <= b] is the negation of [b < a]. *)
Lemma leb_iff_not_ltb (x y : float) :
  is_number x -> is_number y ->
  ((x <=? y)%float = true <-> (y <? x)%float = false).
Proof.
  rewrite !is_number_spec, leb_spec, ltb_spec. unfold SFleb, SFltb.
  intros Hx Hy. rewrite (SFcompare_antisym (Prim2SF x) (Prim2SF y)).
  destruct (SFcompare_numbers _ _ Hx Hy) as [c ->].
  destruct c; cbn; split; congruence.
Qed.

(** A comparison [a <= b] that holds is between numbers. *)
Lemma leb_numbers (x y : float) :
  (x <=? y)%float = true -> is_number x /\ is_number y.
Proof.
  rewrite !is_number_spec, leb_spec. unfold SFleb.
  destruct (Prim2SF x), (Prim2SF y); cbn; intros H; split; congruence.
Qed.

Lemma leb_not_ltb (x y : float) :
  (x <=? y)%float = true -> (y <? x)%float = false.
Proof.
  intros H. destruct (leb_numbers _ _ H) as [Hx Hy].
  now apply leb_iff_not_ltb.
Qed.

(** *** Outcode zero and the bounds *)

Lemma inside_location_zero b p :
  inside b p -> location_of b p = 0.
Proof.
  intros (H1 & H2 & H3 & H4). apply Location_zero_iff.
  change (@d_lt float binary64) with ltb.
  repeat split; now apply leb_not_ltb.
Qed.

Lemma location_zero_inside b p :
  is_number (b_xmin b) -> is_number (b_ymin b) ->
  is_number (b_xmax b) -> is_number (b_ymax b) ->
  is_number (X p) -> is_number (Y p) ->
  location_of b p = 0 -> inside b p.
Proof.
  intros Hb1 Hb2 Hb3 Hb4 Hx Hy H. apply Location_zero_iff in H.
  change (@d_lt float binary64) with ltb in H.
  destruct H as (H1 & H2 & H3 & H4).
  repeat split; apply leb_iff_not_ltb; assumption.
Qed.

(** A finite coordinate is a number. *)
Lemma is_finite_number x : is_finite x = true -> is_number x.
Proof.
  unfold is_finite, is_number. destruct (is_nan x); [discriminate|reflexivity].
Qed.

(** A finite point of outcode 0 is within bounds that are numbers. *)
Lemma kept_inside b p :
  is_number (b_xmin b) -> is_number (b_ymin b) ->
  is_number (b_xmax b) -> is_number (b_ymax b) ->
  kept b p -> inside b p.
Proof.
  intros Hb1 Hb2 Hb3 Hb4 [Hz Hf]. unfold IsFinite in Hf.
  apply andb_true_iff in Hf as [Hx Hy].
  apply location_zero_inside; try assumption;
    now apply is_finite_number.
Qed.

(** No comparison with a NaN holds. *)
Lemma ltb_nan_l (x : float) : (nan <? x)%float = false.
Proof. rewrite ltb_spec. reflexivity. Qed.

Lemma ltb_nan_r (x : float) : (x <? nan)%float = false.
Proof.
  rewrite ltb_spec. change (Prim2SF nan) with S754_nan.
  unfold SFltb. now destruct (Prim2SF x) as [[]|[]| |[] ? ?].
Qed.

(** The segment from (0,0) to (0,2) is cut at the top edge. *)
Lemma clip_top_binary64 :
  ClipToViewPort 2 viewport (Vec2 0%float 0%float) (Vec2 0%float 2%float)
    = Some (Endpoints (Vec2 0%float 0%float) (Vec2 0%float 1%float)).
Proof. vm_compute. reflexivity. Qed.

End ClipperBinary64.

(** ** ViewportClipper: the claims *)

Section ClipperClaims.
Import Clipper.
Import PrimFloat.

(** On values that need the 53 bits of a [double] the loop of
    [ClipToViewPort] can run for ever.  From [far_left] to [top_right]
    = (2,1), against the viewport (-1,-1,1,1): the first pass takes the
    RIGHT branch and moves the second endpoint to (1, 1 + 2^-52), which
    is above the top edge; the second pass takes the TOP branch and
    moves it back to (2, 1), which is right of the right edge.  The loop
    is then in its initial state again.  Neither division is by zero.
    The coordinates of [far_left] are not single-precision values. *)
Lemma clip_loop_cycles_on_doubles :
  let b := Binary64.viewport in
  let s0 := initial b Binary64.far_left Binary64.top_right in
  let s1 := MkClip (X Binary64.far_left) (Y Binary64.far_left)
              (b_xmax b) Binary64.above_one kLeft kTop in
  (branch_taken s0 = Some BRight /\
   PrimFloat.eqb (denominator s0 BRight) PrimFloat.zero = false /\
   clip_iteration b s0 = Continue s1) /\
  (branch_taken s1 = Some BTop /\
   PrimFloat.eqb (denominator s1 BTop) PrimFloat.zero = false /\
   clip_iteration b s1 = Continue s0) /\
  diverges b Binary64.far_left Binary64.top_right /\
  Double.to_single (X Binary64.far_left) <> X Binary64.far_left.
Proof.
  intros b s0 s1.
  assert (H01 : clip_iteration b s0 = Continue s1) by (vm_compute; reflexivity).
  assert (H10 : clip_iteration b s1 = Continue s0) by (vm_compute; reflexivity).
  split; [repeat split; try reflexivity; exact H01|].
  split; [repeat split; try reflexivity; exact H10|].
  split.
  - intros fuel. unfold ClipToViewPort. fold b. fold s0.
    rewrite (cycle_never_breaks b 2 s0); [reflexivity|lia|].
    cbn [state_at]. rewrite H01, H10. reflexivity.
  - vm_compute. discriminate.
Qed.




(** C9 (amended).  In any arithmetic, what [ClipToViewPort] returns is
    the NaN pair or two endpoints of outcode 0; the internal-error
    branch, like every other exit without [accept], yields the NaN
    pair.  In binary64, with bounds that are numbers: a number has
    outcode 0 exactly when it is within the bounds, so two returned
    endpoints with finite coordinates are within the bounds; a NaN
    coordinate leaves its two outcode bits clear.  [AddToViewportLines]
    keeps a returned pair only when its four coordinates are finite:
    when the call returns, it leaves the lines vector as it is or
    appends two finite points of outcode 0, which in binary64 are within
    the bounds, and a lines vector built by successive calls has even
    length and holds only such points.  The call returns in the first
    pass when both outcodes are 0 and when they share a bit. *)
Theorem C9_clip_accepts_only_in_bounds :
  (forall T (A : Arithmetic T) fuel (b : Vector4 T) p0 p1 r,
     ClipToViewPort fuel b p0 p1 = Some r ->
     r = NaNPair \/
     exists q0 q1, r = Endpoints q0 q1 /\
                   location_of b q0 = 0 /\ location_of b q1 = 0) /\
  (forall T (A : Arithmetic T) (b : Vector4 T) s n,
     nonzero (Z.lor (location0 s) (location1 s)) = true ->
     nonzero (Z.land (location0 s) (location1 s)) = false ->
     select_branch (outerLocation s) = None ->
     result_of <$> clip_loop (S n) b s = Some NaNPair) /\
  (forall b p,
     Binary64.is_number (b_xmin b) -> Binary64.is_number (b_ymin b) ->
     Binary64.is_number (b_xmax b) -> Binary64.is_number (b_ymax b) ->
     Binary64.is_number (X p) -> Binary64.is_number (Y p) ->
     (location_of b p = 0 <-> Binary64.inside b p)) /\
  (forall fuel b p0 p1 q0 q1,
     Binary64.is_number (b_xmin b) -> Binary64.is_number (b_ymin b) ->
     Binary64.is_number (b_xmax b) -> Binary64.is_number (b_ymax b) ->
     ClipToViewPort fuel b p0 p1 = Some (Endpoints q0 q1) ->
     IsFinite q0 = true -> IsFinite q1 = true ->
     Binary64.inside b q0 /\ Binary64.inside b q1) /\
  (forall (b : Vector4 float) (y : float),
     Z.land (location_of b (Vec2 nan y)) 3 = 0 /\
     Z.land (location_of b (Vec2 y nan)) 12 = 0) /\
  (forall T (A : Arithmetic T) fuel (b : Vector4 T) p0 p1 lines lines',
     AddToViewportLines fuel b p0 p1 lines = Some lines' ->
     lines' = lines \/
     exists q0 q1, lines' = lines ++ [q0; q1] /\ kept b q0 /\ kept b q1) /\
  (forall b q,
     Binary64.is_number (b_xmin b) -> Binary64.is_number (b_ymin b) ->
     Binary64.is_number (b_xmax b) -> Binary64.is_number (b_ymax b) ->
     kept b q -> Binary64.inside b q) /\
  (forall T (A : Arithmetic T) fuel (b : Vector4 T) segments lines',
     add_segments fuel b segments [] = Some lines' ->
     Nat.Even (length lines') /\ Forall (kept b) lines') /\
  (forall T (A : Arithmetic T) n (b : Vector4 T) p0 p1 lines,
     (location_of b p0 = 0 -> location_of b p1 = 0 ->
      AddToViewportLines (S n) b p0 p1 lines =
        Some (if IsFinite p0 && IsFinite p1
              then lines ++ [p0; p1] else lines)) /\
     (Z.land (location_of b p0) (location_of b p1) <> 0 ->
      AddToViewportLines (S n) b p0 p1 lines = Some lines)).
Proof.
  split; [|split; [|split; [|split; [|split; [|split; [|split; [|split]]]]]]].
  - intros T A fuel b p0 p1 r. apply ClipToViewPort_result.
  - intros T A b s n. apply internal_error_rejects.
  - intros b p Hb1 Hb2 Hb3 Hb4 Hx Hy. split.
    + now apply location_zero_inside.
    + apply inside_location_zero.
  - intros fuel b p0 p1 q0 q1 Hb1 Hb2 Hb3 Hb4 H F0 F1.
    destruct (ClipToViewPort_accept _ _ _ _ _ _ H) as [Z0 Z1].
    split; apply kept_inside; try assumption; split; assumption.
  - intros b y. unfold location_of, LocationRelativeToViewPort.
    cbn [X Y d_lt binary64].
    rewrite !ltb_nan_l, !ltb_nan_r.
    split.
    + destruct (y <? b_ymin b)%float; [reflexivity|].
      destruct (b_ymax b <? y)%float; reflexivity.
    + destruct (y <? b_xmin b)%float; [reflexivity|].
      destruct (b_xmax b <? y)%float; reflexivity.
  - intros T A fuel b p0 p1 lines lines'.
    apply AddToViewportLines_appends.
  - intros b q Hb1 Hb2 Hb3 Hb4. apply kept_inside; assumption.
  - intros T A fuel b segments lines' H.
    eapply add_segments_invariant; [exact H|exists 0%nat; reflexivity|].
    constructor.
  - intros T A n b p0 p1 lines. split.
    + intros H0 H1. unfold AddToViewportLines.
      now rewrite (accept_zero b p0 p1 n H0 H1).
    + intros H. unfold AddToViewportLines.
      now rewrite (reject_shared b p0 p1 n H).
Qed.

(** In binary64: the accepted segment from (0,0) to (0,2), clipped at
    the top edge, has both endpoints within the viewport. *)
Lemma C9_witness :
  Binary64.inside Binary64.viewport (Vec2 0%float 0%float) /\
  Binary64.inside Binary64.viewport (Vec2 0%float 1%float).
Proof.
  destruct C9_clip_accepts_only_in_bounds as (_ & _ & _ & Hin & _).
  apply (Hin 2%nat Binary64.viewport
           (Vec2 0%float 0%float) (Vec2 0%float 2%float));
    reflexivity.
Defined.

(** The claim as stated fails in binary64: a returned pair need not be
    finite or the NaN pair.  The segment from (0,0) to (NaN, +infinity),
    which a vertex with x = 0 and w = 0 yields, has its second endpoint
    beyond the top boundary only; the first pass moves that endpoint to
    (NaN, 1), whose outcode is 0, and the second pass accepts.  The
    returned pair is not the NaN pair, and its second endpoint is not
    finite; [AddToViewportLines] drops it. *)
Lemma C9_counterexample :
  location_of Binary64.viewport (Vec2 nan infinity) = kTop /\
  ClipToViewPort 2 Binary64.viewport
      (Vec2 0%float 0%float) (Vec2 nan infinity)
    = Some (Endpoints (Vec2 0%float 0%float) (Vec2 nan 1%float)) /\
  Endpoints (Vec2 0%float 0%float) (Vec2 nan 1%float) <> NaNPair /\
  IsFinite (Vec2 nan 1%float) = false /\
  AddToViewportLines 2 Binary64.viewport
      (Vec2 0%float 0%float) (Vec2 nan infinity) []
    = Some [].
Proof.
  split; [reflexivity|].
  split; [vm_compute; reflexivity|].
  split; [discriminate|].
  split; [reflexivity|].
  vm_compute. reflexivity.
Qed.

End ClipperClaims.

Section ClipperErrorBranch.
Import Clipper.
Context {T : Type} {A : Arithmetic T}.

(** X1.  In any arithmetic, for any bounds and any segment: in every
    state that the loop of [ClipToViewPort] reaches, when the two
    outcodes are not both zero and share no bit, one of the four tests
    on [outerLocation] succeeds, so the final [else] that reports an
    internal error is never executed; and whenever the loop breaks
    without accepting, the two outcodes it holds share a bit. *)
Theorem X1_clip_error_branch_unreachable (b : Vector4 T) (p0 p1 : Vector2 T) :
  (forall k s, state_at k b (initial b p0 p1) = Some s ->
     nonzero (Z.lor (location0 s) (location1 s)) = true ->
     nonzero (Z.land (location0 s) (location1 s)) = false ->
     exists br, select_branch (outerLocation s) = Some br) /\
  (forall fuel s, clip_loop fuel b (initial b p0 p1) = Some (false, s) ->
     Z.land (location0 s) (location1 s) <> 0).
Proof.
  split.
  - intros k s Hk Hor _.
    apply (select_branch_found b); [|exact Hor].
    exact (state_at_consistent _ _ _ _ (initial_consistent b p0 p1) Hk).
  - intros fuel s H.
    exact (proj2 (clip_loop_reject b fuel _ s (initial_consistent b p0 p1) H)).
Qed.

End ClipperErrorBranch.

Section ClipperErrorBranchExample.
Import Clipper Clipper.Exact.

(** In exact arithmetic, the segment from (0,0) to (0,2) against the
    viewport [-1,1]x[-1,1]: the first pass finds a branch. *)
Lemma X1_witness :
  exists br,
    select_branch
      (outerLocation (initial viewport (Vec2 0%Q 0%Q) (Vec2 0%Q 2%Q)))
    = Some br.
Proof.
  apply (proj1 (X1_clip_error_branch_unreachable
                  viewport (Vec2 0%Q 0%Q) (Vec2 0%Q 2%Q)) 0%nat);
    reflexivity.
Defined.

End ClipperErrorBranchExample.

(** ** ViewportClipper: what the clipper moves *)

Section ClipperMoves.
Import Clipper.
Import PrimFloat.



End ClipperMoves.

(** ** MultiPartMerger *)

Section MergerProofs.
Import Merger.

Lemma wrap32_range z : 0 <= wrap32 z < 2 ^ 32.
Proof. unfold wrap32. apply Z.mod_pos_bound. lia. Qed.

Lemma wrap32_small z : 0 <= z < 2 ^ 32 -> wrap32 z = z.
Proof. intros H. unfold wrap32. now apply Z.mod_small. Qed.

Lemma to_uint32_range q : 0 <= to_uint32 q < 2 ^ 32.
Proof. apply wrap32_range. Qed.

(** Truncation of a rational that is a whole number. *)
Lemma Qtrunc_integer q z : (q == inject_Z z)%Q -> Qtrunc q = z.
Proof.
  unfold Qeq, Qtrunc. cbn. intros H. rewrite Z.mul_1_r in H. rewrite H.
  apply Z.quot_mul. discriminate.
Qed.

(** Truncation of a non-negative rational is its floor. *)
Lemma Qtrunc_floor q : (0 <= q)%Q -> Qtrunc q = Qfloor q.
Proof.
  destruct q as [n d]. unfold Qle, Qtrunc, Qfloor. cbn. intros H.
  apply Z.quot_div_nonneg; lia.
Qed.

Lemma to_uint32_floor q :
  in_uint32_range q -> to_uint32 q = Qfloor q.
Proof.
  intros [H0 H1]. unfold to_uint32. rewrite Qtrunc_floor by assumption.
  apply wrap32_small. split.
  - change 0 with (Qfloor 0). now apply Qfloor_resp_le.
  - assert (H : (Qfloor q <= 4294967295)%Z); [|lia].
    apply Z.lt_succ_r. change (Z.succ 4294967295) with 4294967296.
    assert (Hf : (inject_Z (Qfloor q) <= q)%Q) by apply Qfloor_le.
    assert (Hlt : (inject_Z (Qfloor q) < inject_Z 4294967296)%Q)
      by (eapply Qle_lt_trans; [exact Hf|exact H1]).
    now rewrite <- Zlt_Qlt in Hlt.
Qed.

Lemma to_uint32_pixel q z :
  0 <= z < 2 ^ 32 -> (q == inject_Z z)%Q -> to_uint32 q = z.
Proof.
  intros Hz Hq. unfold to_uint32. rewrite (Qtrunc_integer q z Hq).
  now apply wrap32_small.
Qed.

(** *** The running extrema *)

Lemma fold_min_spec (f : BoundingBox -> Z) (proj : Extents -> Z) :
  (forall e box, proj (merge_step e box) = Z.min (proj e) (f box)) ->
  forall l e,
    (forall a, In a l -> proj (foldl merge_step e l) <= f a) /\
    proj (foldl merge_step e l) <= proj e /\
    (proj (foldl merge_step e l) = proj e \/
     exists a, In a l /\ proj (foldl merge_step e l) = f a).
Proof.
  intros Hstep. induction l as [|box l IH]; intros e; cbn [foldl].
  - split; [intros a []|]. split; [lia|now left].
  - destruct (IH (merge_step e box)) as (H1 & H2 & H3).
    rewrite Hstep in H2, H3. split; [|split].
    + intros a [<-|Ha]; [lia|now apply H1].
    + lia.
    + destruct H3 as [H3|(a & Ha & H3)].
      * destruct (Z.min_spec (proj e) (f box)) as [[_ E]|[_ E]];
          rewrite E in H3; [now left|].
        right. exists box. split; [now left|exact H3].
      * right. exists a. split; [now right|exact H3].
Qed.

Lemma fold_max_spec (f : BoundingBox -> Z) (proj : Extents -> Z) :
  (forall e box, proj (merge_step e box) = Z.max (proj e) (f box)) ->
  forall l e,
    (forall a, In a l -> f a <= proj (foldl merge_step e l)) /\
    proj e <= proj (foldl merge_step e l) /\
    (proj (foldl merge_step e l) = proj e \/
     exists a, In a l /\ proj (foldl merge_step e l) = f a).
Proof.
  intros Hstep. induction l as [|box l IH]; intros e; cbn [foldl].
  - split; [intros a []|]. split; [lia|now left].
  - destruct (IH (merge_step e box)) as (H1 & H2 & H3).
    rewrite Hstep in H2, H3. split; [|split].
    + intros a [<-|Ha]; [lia|now apply H1].
    + lia.
    + destruct H3 as [H3|(a & Ha & H3)].
      * destruct (Z.max_spec (proj e) (f box)) as [[_ E]|[_ E]];
          rewrite E in H3; [|now left].
        right. exists box. split; [now left|exact H3].
      * right. exists a. split; [now right|exact H3].
Qed.

(** For a non-empty group the four extrema are the least and greatest
    converted corners: the neutral start values never survive. *)
Lemma merge_extents_spec l :
  l <> [] ->
  is_minZ boxMinX l (minX (merge_extents l)) /\
  is_maxZ boxMaxX l (maxX (merge_extents l)) /\
  is_minZ boxMinY l (minY (merge_extents l)) /\
  is_maxZ boxMaxY l (maxY (merge_extents l)).
Proof.
  intros Hne. destruct l as [|b0 l]; [congruence|]. clear Hne.
  unfold merge_extents, is_minZ, is_maxZ.
  pose proof (fold_min_spec boxMinX minX (fun _ _ => eq_refl)
                (b0 :: l) initial_extents) as (A1 & A2 & A3).
  pose proof (fold_max_spec boxMaxX maxX (fun _ _ => eq_refl)
                (b0 :: l) initial_extents) as (B1 & B2 & B3).
  pose proof (fold_min_spec boxMinY minY (fun _ _ => eq_refl)
                (b0 :: l) initial_extents) as (C1 & C2 & C3).
  pose proof (fold_max_spec boxMaxY maxY (fun _ _ => eq_refl)
                (b0 :: l) initial_extents) as (D1 & D2 & D3).
  assert (R1 : 0 <= boxMinX b0 < 2 ^ 32) by apply to_uint32_range.
  assert (R2 : 0 <= boxMaxX b0 < 2 ^ 32) by apply to_uint32_range.
  assert (R3 : 0 <= boxMinY b0 < 2 ^ 32) by apply to_uint32_range.
  assert (R4 : 0 <= boxMaxY b0 < 2 ^ 32) by apply to_uint32_range.
  pose proof (A1 b0 (or_introl eq_refl)) as A0.
  pose proof (B1 b0 (or_introl eq_refl)) as B0.
  pose proof (C1 b0 (or_introl eq_refl)) as C0.
  pose proof (D1 b0 (or_introl eq_refl)) as D0.
  cbn [minX maxX minY maxY initial_extents] in *. unfold UINT32_MAX in *.
  repeat split; try assumption.
  - destruct A3 as [E|H]; [|exact H]. exists b0. split; [now left|lia].
  - destruct B3 as [E|H]; [|exact H]. exists b0. split; [now left|lia].
  - destruct C3 as [E|H]; [|exact H]. exists b0. split; [now left|lia].
  - destruct D3 as [E|H]; [|exact H]. exists b0. split; [now left|lia].
Qed.

Lemma Qhalf s : (s / 2 == s * (1 # 2))%Q.
Proof. reflexivity. Qed.

Lemma pixel_corner_eq box (f : BoundingBox -> Z) (c : BoundingBox -> Q) :
  (forall b, f b = to_uint32 (c b)) ->
  pixel_coordinate (c box) -> (inject_Z (f box) == c box)%Q.
Proof.
  intros Hf (z & Hz & Hq). rewrite Hf.
  rewrite (to_uint32_pixel _ _ Hz Hq). now symmetry.
Qed.

Lemma is_min_pixels (f : BoundingBox -> Z) (c : BoundingBox -> Q) l m :
  (forall b, f b = to_uint32 (c b)) ->
  (forall b, In b l -> pixel_coordinate (c b)) ->
  is_minZ f l m -> is_min c l (inject_Z m).
Proof.
  intros Hf Hp [Hle (a & Ha & Hm)]. split.
  - intros b Hb. rewrite <- (pixel_corner_eq b f c Hf (Hp b Hb)).
    rewrite <- Zle_Qle. now apply Hle.
  - exists a. split; [exact Ha|]. subst m.
    now apply pixel_corner_eq; [|apply Hp].
Qed.

Lemma is_max_pixels (f : BoundingBox -> Z) (c : BoundingBox -> Q) l m :
  (forall b, f b = to_uint32 (c b)) ->
  (forall b, In b l -> pixel_coordinate (c b)) ->
  is_maxZ f l m -> is_max c l (inject_Z m).
Proof.
  intros Hf Hp [Hle (a & Ha & Hm)]. split.
  - intros b Hb. rewrite <- (pixel_corner_eq b f c Hf (Hp b Hb)).
    rewrite <- Zle_Qle. now apply Hle.
  - exists a. split; [exact Ha|]. subst m.
    now apply pixel_corner_eq; [|apply Hp].
Qed.

Lemma box_of_extents_plain type e label :
  0 <= minX e <= maxX e -> maxX e < 2 ^ 32 ->
  0 <= minY e <= maxY e -> maxY e < 2 ^ 32 ->
  box_of_extents type e label =
  {| box_type := type;
     box_center :=
       Vec3d (inject_Z (minX e + (maxX e - minX e) / 2))
             (inject_Z (minY e + (maxY e - minY e) / 2)) 0;
     box_size :=
       Vec3d (inject_Z (maxX e - minX e)) (inject_Z (maxY e - minY e)) 0;
     box_orientation := Quaterniond_Identity;
     box_label := label |}.
Proof.
  intros Hx Hx' Hy Hy'. unfold box_of_extents.
  rewrite (wrap32_small (maxX e - minX e)) by lia.
  rewrite (wrap32_small (maxY e - minY e)) by lia.
  assert (Dx : 0 <= (maxX e - minX e) / 2 <= maxX e - minX e)
    by (split; [apply Z.div_pos; lia|apply Z.div_le_upper_bound; lia]).
  assert (Dy : 0 <= (maxY e - minY e) / 2 <= maxY e - minY e)
    by (split; [apply Z.div_pos; lia|apply Z.div_le_upper_bound; lia]).
  rewrite !wrap32_small by lia. reflexivity.
Qed.

Lemma extents_ordered first l :
  (0 <= X3 (box_size first))%Q -> (0 <= Y3 (box_size first))%Q ->
  pixel_aligned first ->
  let e := merge_extents (first :: l) in
  0 <= minX e <= maxX e /\ maxX e < 2 ^ 32 /\
  0 <= minY e <= maxY e /\ maxY e < 2 ^ 32.
Proof.
  intros Hsx Hsy (Pa & Pb & Pc & Pd) e.
  destruct (merge_extents_spec (first :: l)) as
    ([A1 (a & _ & A2)] & [B1 (b & _ & B2)] &
     [C1 (c & _ & C2)] & [D1 (d & _ & D2)]); [discriminate|].
  fold e in A1, A2, B1, B2, C1, C2, D1, D2.
  pose proof (A1 first (or_introl eq_refl)) as A0.
  pose proof (B1 first (or_introl eq_refl)) as B0.
  pose proof (C1 first (or_introl eq_refl)) as C0.
  pose proof (D1 first (or_introl eq_refl)) as D0.
  assert (Ra : 0 <= boxMinX a < 2 ^ 32) by apply to_uint32_range.
  assert (Rb : 0 <= boxMaxX b < 2 ^ 32) by apply to_uint32_range.
  assert (Rc : 0 <= boxMinY c < 2 ^ 32) by apply to_uint32_range.
  assert (Rd : 0 <= boxMaxY d < 2 ^ 32) by apply to_uint32_range.
  assert (Ex : boxMinX first <= boxMaxX first).
  { rewrite Zle_Qle.
    rewrite (pixel_corner_eq first boxMinX cornerMinX (fun _ => eq_refl) Pa).
    rewrite (pixel_corner_eq first boxMaxX cornerMaxX (fun _ => eq_refl) Pb).
    unfold cornerMinX, cornerMaxX. rewrite !Qhalf. lra. }
  assert (Ey : boxMinY first <= boxMaxY first).
  { rewrite Zle_Qle.
    rewrite (pixel_corner_eq first boxMinY cornerMinY (fun _ => eq_refl) Pc).
    rewrite (pixel_corner_eq first boxMaxY cornerMaxY (fun _ => eq_refl) Pd).
    unfold cornerMinY, cornerMaxY. rewrite !Qhalf. lra. }
  lia.
Qed.

(** C3 (amended).  For a group of two or more boxes whose corners
    center -/+ size/2 are whole pixel coordinates in [0, 2^32) and whose
    sizes are non-negative, the merge is the axis-aligned union: the
    extrema are the least and greatest corners over the group, the size
    is their difference, the centre is min + (max - min) div 2, and the
    label is that of the first box.  For every group of two or more
    boxes the extrema are the least and greatest corners after their
    conversion to [uint32_t].  The two
    boxes of Scenario B merge to extrema 8, 22, 8, 22, centre (15,15)
    and size (14,14). *)
Theorem C3_merge_is_union_of_pixel_boxes :
  (forall first second rest,
     let group := first :: second :: rest in
     let e := merge_extents group in
     is_minZ boxMinX group (minX e) /\ is_maxZ boxMaxX group (maxX e) /\
     is_minZ boxMinY group (minY e) /\ is_maxZ boxMaxY group (maxY e)) /\
  (forall type first second rest,
     let group := first :: second :: rest in
     Forall pixel_box group ->
     let e := merge_extents group in
     is_min cornerMinX group (inject_Z (minX e)) /\
     is_max cornerMaxX group (inject_Z (maxX e)) /\
     is_min cornerMinY group (inject_Z (minY e)) /\
     is_max cornerMaxY group (inject_Z (maxY e)) /\
     MergeBoxes2D type group =
       Some {| box_type := type;
               box_center :=
                 Vec3d (inject_Z (minX e + (maxX e - minX e) / 2))
                       (inject_Z (minY e + (maxY e - minY e) / 2)) 0;
               box_size :=
                 Vec3d (inject_Z (maxX e - minX e))
                       (inject_Z (maxY e - minY e)) 0;
               box_orientation := Quaterniond_Identity;
               box_label := box_label first |}) /\
  (forall type l1 l2,
     let group := [box2d BBT_VISIBLEBOX2D 10 10 4 4 l1;
                   box2d BBT_VISIBLEBOX2D 20 20 4 4 l2] in
     merge_extents group = MkExtents 8 22 8 22 /\
     MergeBoxes2D type group = Some (box2d type 15 15 14 14 l1)).
Proof.
  split; [|split].
  - intros first second rest group e.
    now apply merge_extents_spec.
  - intros type first second rest group Hall e.
    assert (Hp : forall b, In b group -> pixel_aligned b).
    { intros b Hb. rewrite Forall_forall in Hall.
      apply list_elem_of_In in Hb. now destruct (Hall b Hb). }
    destruct (merge_extents_spec group) as (A & B & C & D); [discriminate|].
    fold e in A, B, C, D.
    split; [|split; [|split; [|split]]].
    + apply (is_min_pixels boxMinX); [reflexivity| |exact A].
      intros b Hb. apply (Hp b Hb).
    + apply (is_max_pixels boxMaxX); [reflexivity| |exact B].
      intros b Hb. apply (Hp b Hb).
    + apply (is_min_pixels boxMinY); [reflexivity| |exact C].
      intros b Hb. apply (Hp b Hb).
    + apply (is_max_pixels boxMaxY); [reflexivity| |exact D].
      intros b Hb. apply (Hp b Hb).
    + assert (Hf : pixel_box first).
      { rewrite Forall_forall in Hall. apply Hall. now left. }
      destruct Hf as (Pf & Sx & Sy).
      destruct (extents_ordered first (second :: rest) Sx Sy Pf)
        as (Ox & Ox' & Oy & Oy').
      change (MergeBoxes2D type group)
        with (Some (box_of_extents type e (box_label first))).
      f_equal. now apply box_of_extents_plain.
  - intros type l1 l2 group. split; reflexivity.
Qed.

Lemma C3_witness :
  is_min cornerMinX [box2d BBT_VISIBLEBOX2D 10 10 4 4 7;
                     box2d BBT_VISIBLEBOX2D 20 20 4 4 7] (inject_Z 8).
Proof.
  destruct C3_merge_is_union_of_pixel_boxes as (_ & H & _).
  refine (proj1 (H BBT_VISIBLEBOX2D (box2d BBT_VISIBLEBOX2D 10 10 4 4 7)
                   (box2d BBT_VISIBLEBOX2D 20 20 4 4 7) [] _)).
  repeat constructor; cbn.
  - exists 8. split; [lia|reflexivity].
  - exists 12. split; [lia|reflexivity].
  - exists 8. split; [lia|reflexivity].
  - exists 12. split; [lia|reflexivity].
  - lra.
  - lra.
  - exists 18. split; [lia|reflexivity].
  - exists 22. split; [lia|reflexivity].
  - exists 18. split; [lia|reflexivity].
  - exists 22. split; [lia|reflexivity].
  - lra.
  - lra.
Defined.

(** The claim as stated fails on two boxes whose pixel extents have odd
    width: their corners are half-integers, and the merged extrema 0 and
    12 are corners of neither box.  It also fails on a group with a
    negative corner: the merged minimum 8 is not below the corner -1 of
    the first box. *)
Lemma C3_counterexample :
  (merge_extents odd_width_group = MkExtents 0 12 0 12 /\
   ~ is_min cornerMinX odd_width_group
       (inject_Z (minX (merge_extents odd_width_group))) /\
   ~ is_max cornerMaxX odd_width_group
       (inject_Z (maxX (merge_extents odd_width_group)))) /\
  (merge_extents negative_corner_group = MkExtents 8 12 8 12 /\
   ~ is_min cornerMinX negative_corner_group
       (inject_Z (minX (merge_extents negative_corner_group)))).
Proof.
  split; [split; [reflexivity|split]|split; [reflexivity|]].
  - intros [_ (a & Ha & E)]. cbn in Ha.
    destruct Ha as [<-|[<-|[]]]; vm_compute in E; discriminate E.
  - intros [_ (a & Ha & E)]. cbn in Ha.
    destruct Ha as [<-|[<-|[]]]; vm_compute in E; discriminate E.
  - intros [Hle _].
    specialize (Hle (box2d BBT_VISIBLEBOX2D 1 1 4 4 7) (or_introl eq_refl)).
    vm_compute in Hle. now apply Hle.
Qed.

(** C4.  Merging a group of exactly one box returns that box with every
    field as it was; whenever a group merges to a box, merging the
    singleton group that holds this box gives the same box again; and
    every non-empty group, the only kind the pipeline builds, does merge
    to a box. *)
Theorem C4_merge_idempotent :
  (forall type box, MergeBoxes2D type [box] = Some box) /\
  (forall type group merged,
     MergeBoxes2D type group = Some merged ->
     MergeBoxes2D type [merged] = MergeBoxes2D type group) /\
  (forall type group, group <> [] ->
     exists merged, MergeBoxes2D type group = Some merged).
Proof.
  split; [reflexivity|]. split.
  - intros type group merged H. now rewrite H.
  - intros type [|b0 [|b1 rest]] Hne; [congruence| |]; eexists; reflexivity.
Qed.

(** The two boxes of Scenario B, merged and merged again. *)
Lemma C4_witness :
  MergeBoxes2D BBT_VISIBLEBOX2D [box2d BBT_VISIBLEBOX2D 15 15 14 14 7] =
  MergeBoxes2D BBT_VISIBLEBOX2D
    [box2d BBT_VISIBLEBOX2D 10 10 4 4 7; box2d BBT_VISIBLEBOX2D 20 20 4 4 7].
Proof.
  apply (proj1 (proj2 C4_merge_idempotent)). reflexivity.
Defined.

Lemma is_minZ_ext {A} (f g : A -> Z) l m :
  (forall a, In a l -> f a = g a) -> is_minZ f l m -> is_minZ g l m.
Proof.
  intros E [H1 (a & Ha & H2)]. split.
  - intros b Hb. rewrite <- E by assumption. now apply H1.
  - exists a. split; [assumption|]. now rewrite <- E.
Qed.

Lemma is_maxZ_ext {A} (f g : A -> Z) l m :
  (forall a, In a l -> f a = g a) -> is_maxZ f l m -> is_maxZ g l m.
Proof.
  intros E [H1 (a & Ha & H2)]. split.
  - intros b Hb. rewrite <- E by assumption. now apply H1.
  - exists a. split; [assumption|]. now rewrite <- E.
Qed.

(** A negative corner above -1 is converted to 0. *)
Lemma Qtrunc_small_negative q : (-1 < q)%Q -> (q < 0)%Q -> Qtrunc q = 0.
Proof.
  destruct q as [n d]. unfold Qlt, Qtrunc. cbn. intros H1 H2.
  rewrite <- (Z.opp_involutive n), Z.quot_opp_l by discriminate.
  rewrite Z.quot_small by lia. reflexivity.
Qed.

Lemma to_uint32_convertible q :
  convertible q ->
  to_uint32 q = Qtrunc q /\ 0 <= Qtrunc q < 2 ^ 32 /\
  ((q < 0)%Q -> to_uint32 q = 0) /\
  ((0 <= q)%Q -> to_uint32 q = Qfloor q).
Proof.
  intros [H1 H2]. destruct (Qlt_le_dec q 0) as [Hn|Hp].
  - pose proof (Qtrunc_small_negative q H1 Hn) as E.
    unfold to_uint32. rewrite E.
    split; [reflexivity|]. split; [lia|]. split; [reflexivity|]. lra.
  - assert (Hr : in_uint32_range q) by (split; assumption).
    pose proof (to_uint32_floor q Hr) as E.
    pose proof (to_uint32_range q) as R.
    rewrite E in R. rewrite E, (Qtrunc_floor q Hp).
    split; [reflexivity|]. split; [exact R|]. split; [lra|reflexivity].
Qed.

Lemma Qtrunc_convertible_le q q' :
  convertible q -> convertible q' -> (q <= q')%Q -> Qtrunc q <= Qtrunc q'.
Proof.
  intros Hq Hq' Hle.
  destruct (to_uint32_convertible q Hq) as (E & R & N & P).
  destruct (to_uint32_convertible q' Hq') as (E' & R' & N' & P').
  destruct (Qlt_le_dec q 0) as [Hn|Hp].
  - rewrite <- E, (N Hn). lia.
  - rewrite <- E, <- E', (P Hp), (P' ltac:(lra)). now apply Qfloor_resp_le.
Qed.

(** The merge of a group of two or more boxes whose corners have a
    defined conversion. *)
Lemma MergeBoxes2D_convertible type first second rest :
  let group := first :: second :: rest in
  (0 <= X3 (box_size first))%Q -> (0 <= Y3 (box_size first))%Q ->
  Forall corners_convertible group ->
  exists x0 x1 y0 y1,
    is_minZ (fun b => Qtrunc (cornerMinX b)) group x0 /\
    is_maxZ (fun b => Qtrunc (cornerMaxX b)) group x1 /\
    is_minZ (fun b => Qtrunc (cornerMinY b)) group y0 /\
    is_maxZ (fun b => Qtrunc (cornerMaxY b)) group y1 /\
    0 <= x0 <= x1 /\ x1 < 2 ^ 32 /\ 0 <= y0 <= y1 /\ y1 < 2 ^ 32 /\
    MergeBoxes2D type group =
      Some (MkBox type
              (Vec3d (inject_Z (x0 + (x1 - x0) / 2))
                     (inject_Z (y0 + (y1 - y0) / 2)) 0)
              (Vec3d (inject_Z (x1 - x0)) (inject_Z (y1 - y0)) 0)
              Quaterniond_Identity (box_label first)).
Proof.
  intros group Sx Sy Hall.
  assert (Hc : forall b, In b group -> corners_convertible b).
  { intros b Hb. rewrite Forall_forall in Hall. apply Hall.
    now apply list_elem_of_In. }
  destruct (merge_extents_spec group) as (A & B & C & D); [discriminate|].
  set (e := merge_extents group) in *.
  assert (A' : is_minZ (fun b => Qtrunc (cornerMinX b)) group (minX e)).
  { apply (is_minZ_ext boxMinX); [|exact A]. intros b Hb.
    apply (to_uint32_convertible _ (proj1 (Hc b Hb))). }
  assert (B' : is_maxZ (fun b => Qtrunc (cornerMaxX b)) group (maxX e)).
  { apply (is_maxZ_ext boxMaxX); [|exact B]. intros b Hb.
    apply (to_uint32_convertible _ (proj1 (proj2 (Hc b Hb)))). }
  assert (C' : is_minZ (fun b => Qtrunc (cornerMinY b)) group (minY e)).
  { apply (is_minZ_ext boxMinY); [|exact C]. intros b Hb.
    apply (to_uint32_convertible _ (proj1 (proj2 (proj2 (Hc b Hb))))). }
  assert (D' : is_maxZ (fun b => Qtrunc (cornerMaxY b)) group (maxY e)).
  { apply (is_maxZ_ext boxMaxY); [|exact D]. intros b Hb.
    apply (to_uint32_convertible _ (proj2 (proj2 (proj2 (Hc b Hb))))). }
  assert (Hf : In first group) by now left.
  destruct (Hc first Hf) as (F1 & F2 & F3 & F4).
  assert (Ox : Qtrunc (cornerMinX first) <= Qtrunc (cornerMaxX first)).
  { apply Qtrunc_convertible_le; [assumption..|].
    unfold cornerMinX, cornerMaxX. rewrite !Qhalf. lra. }
  assert (Oy : Qtrunc (cornerMinY first) <= Qtrunc (cornerMaxY first)).
  { apply Qtrunc_convertible_le; [assumption..|].
    unfold cornerMinY, cornerMaxY. rewrite !Qhalf. lra. }
  assert (Rg : forall q, convertible q -> 0 <= Qtrunc q < 2 ^ 32).
  { intros q Hq. apply (to_uint32_convertible q Hq). }
  assert (Hx : 0 <= minX e <= maxX e /\ maxX e < 2 ^ 32).
  { destruct A' as [A1 (a & Ha & Ea)], B' as [B1 (a' & Ha' & Ea')].
    pose proof (Rg _ (proj1 (Hc a Ha))) as R1.
    pose proof (Rg _ (proj1 (proj2 (Hc a' Ha')))) as R2.
    pose proof (A1 first Hf) as L1. pose proof (B1 first Hf) as L2.
    cbn beta in Ea, Ea', L1, L2. lia. }
  assert (Hy : 0 <= minY e <= maxY e /\ maxY e < 2 ^ 32).
  { destruct C' as [C1 (a & Ha & Ea)], D' as [D1 (a' & Ha' & Ea')].
    pose proof (Rg _ (proj1 (proj2 (proj2 (Hc a Ha))))) as R1.
    pose proof (Rg _ (proj2 (proj2 (proj2 (Hc a' Ha'))))) as R2.
    pose proof (C1 first Hf) as L1. pose proof (D1 first Hf) as L2.
    cbn beta in Ea, Ea', L1, L2. lia. }
  exists (minX e), (maxX e), (minY e), (maxY e).
  do 4 (split; [assumption|]).
  split; [tauto|]. split; [tauto|]. split; [tauto|]. split; [tauto|].
  unfold MergeBoxes2D, group. fold group. fold e.
  rewrite box_of_extents_plain by tauto. reflexivity.
Qed.

(** C10 (amended).  The merge works on corners converted to
    [uint32_t].  The conversion discards the fraction toward zero: a
    corner above -1 and below 2^32 becomes its integer part, which is 0
    for a negative one and the floor otherwise, and nothing wraps.  For
    a group of two or more boxes on half pixels whose corners are all
    above -1, [MergeBoxes2D] returns the box whose extrema are the least
    and greatest integer parts of the corners, with size max - min,
    centre min + (max - min) div 2, the integer division rounding down,
    and the label of the first box.  The boxes (centre (1,1), size
    (3,3)) and (centre (11,11), size (3,3)), with corners -1/2 and 25/2,
    merge to centre (6,6) and size (12,12); the boxes (centre (10,10),
    size (4,4)) and (centre (21,21), size (4,4)), with extrema 8 and 23,
    merge to centre (15,15) and size (15,15). *)
Theorem C10_merge_in_unsigned_arithmetic :
  (forall q, convertible q ->
     to_uint32 q = Qtrunc q /\ 0 <= Qtrunc q < 2 ^ 32 /\
     ((q < 0)%Q -> to_uint32 q = 0) /\
     ((0 <= q)%Q -> to_uint32 q = Qfloor q)) /\
  (forall type first second rest,
     let group := first :: second :: rest in
     Forall half_pixel_box group -> Forall corners_convertible group ->
     exists x0 x1 y0 y1,
       is_minZ (fun b => Qtrunc (cornerMinX b)) group x0 /\
       is_maxZ (fun b => Qtrunc (cornerMaxX b)) group x1 /\
       is_minZ (fun b => Qtrunc (cornerMinY b)) group y0 /\
       is_maxZ (fun b => Qtrunc (cornerMaxY b)) group y1 /\
       MergeBoxes2D type group =
         Some (MkBox type
                 (Vec3d (inject_Z (x0 + (x1 - x0) / 2))
                        (inject_Z (y0 + (y1 - y0) / 2)) 0)
                 (Vec3d (inject_Z (x1 - x0)) (inject_Z (y1 - y0)) 0)
                 Quaterniond_Identity (box_label first))) /\
  (Forall half_pixel_box odd_width_group /\
   Forall corners_convertible odd_width_group /\
   MergeBoxes2D BBT_VISIBLEBOX2D odd_width_group =
     Some (box2d BBT_VISIBLEBOX2D 6 6 12 12 7)) /\
  (Forall half_pixel_box odd_extent_group /\
   Forall corners_convertible odd_extent_group /\
   MergeBoxes2D BBT_VISIBLEBOX2D odd_extent_group =
     Some (box2d BBT_VISIBLEBOX2D 15 15 15 15 7)).
Proof.
  assert (Hhalf : forall z : Z, half_pixel (inject_Z z)).
  { intros z. exists (2 * z). rewrite inject_Z_mult. field. }
  assert (Hwhole : forall z : Z, whole_pixel (inject_Z z)).
  { intros z. exists z. reflexivity. }
  assert (Hbox : forall c s : Z, 0 <= s ->
            half_pixel_box (box2d BBT_VISIBLEBOX2D (inject_Z c) (inject_Z c)
                              (inject_Z s) (inject_Z s) 7)).
  { intros c s Hs. unfold half_pixel_box, box2d. cbn.
    repeat split; try apply Hhalf; try apply Hwhole;
      rewrite <- (Zle_Qle 0); exact Hs. }
  split; [|split; [|split]].
  - apply to_uint32_convertible.
  - intros type first second rest group Hhp Hall.
    assert (Hf : half_pixel_box first) by (now inversion Hhp).
    destruct Hf as (_ & _ & _ & _ & Sx & Sy).
    destruct (MergeBoxes2D_convertible type first second rest Sx Sy Hall)
      as (x0 & x1 & y0 & y1 & A & B & C & D & _ & _ & _ & _ & E).
    exists x0, x1, y0, y1. auto 10.
  - split; [|split; [|reflexivity]].
    + repeat constructor; first [apply (Hbox 1 3) | apply (Hbox 11 3)]; lia.
    + repeat constructor;
        unfold convertible, cornerMinX, cornerMaxX, cornerMinY, cornerMaxY;
        cbn; rewrite ?Qhalf; lra.
  - split; [|split; [|reflexivity]].
    + repeat constructor; first [apply (Hbox 10 4) | apply (Hbox 21 4)]; lia.
    + repeat constructor;
        unfold convertible, cornerMinX, cornerMaxX, cornerMinY, cornerMaxY;
        cbn; rewrite ?Qhalf; lra.
Qed.

(** The two boxes of Scenario B merge to centre (15,15) and size
    (14,14). *)
Lemma C10_witness :
  exists x0 x1 y0 y1,
    MergeBoxes2D BBT_VISIBLEBOX2D
      [box2d BBT_VISIBLEBOX2D 10 10 4 4 7; box2d BBT_VISIBLEBOX2D 20 20 4 4 7]
    = Some (MkBox BBT_VISIBLEBOX2D
              (Vec3d (inject_Z (x0 + (x1 - x0) / 2))
                     (inject_Z (y0 + (y1 - y0) / 2)) 0)
              (Vec3d (inject_Z (x1 - x0)) (inject_Z (y1 - y0)) 0)
              Quaterniond_Identity 7) /\
    is_minZ (fun b => Qtrunc (cornerMinX b))
      [box2d BBT_VISIBLEBOX2D 10 10 4 4 7; box2d BBT_VISIBLEBOX2D 20 20 4 4 7]
      x0.
Proof.
  destruct C10_merge_in_unsigned_arithmetic as (_ & Hm & _).
  destruct (Hm BBT_VISIBLEBOX2D (box2d BBT_VISIBLEBOX2D 10 10 4 4 7)
              (box2d BBT_VISIBLEBOX2D 20 20 4 4 7) [])
    as (x0 & x1 & y0 & y1 & A & _ & _ & _ & E).
  - repeat constructor; unfold half_pixel, whole_pixel; cbn;
      first [ now exists 20 | now exists 40 | now exists 4 | discriminate ].
  - repeat constructor;
      unfold convertible, cornerMinX, cornerMaxX, cornerMinY, cornerMaxY;
      cbn; rewrite ?Qhalf; lra.
  - exists x0, x1, y0, y1. split; [exact E|exact A].
Defined.

(** The claim as stated fails: a negative corner need not wrap.  The
    first box of [odd_width_group], which [VisibleBoundingBoxes] builds
    for an object on the columns and rows 0 to 3, has its centre at 1,
    less than half its size 3, and its corner at -1/2; the conversion
    of that corner is 0, its integer part, and the merge of the group
    starts at 0. *)
Lemma C10_counterexample :
  let first := box2d BBT_VISIBLEBOX2D 1 1 3 3 7 in
  In first odd_width_group /\
  (X3 (box_center first) < X3 (box_size first) / 2)%Q /\
  (cornerMinX first == - (1 # 2))%Q /\
  boxMinX first = 0 /\ Qtrunc (cornerMinX first) = 0 /\
  merge_extents odd_width_group = MkExtents 0 12 0 12.
Proof.
  cbn zeta. split; [now left|]. split; [reflexivity|].
  split; [reflexivity|]. split; [reflexivity|]. split; reflexivity.
Qed.

End MergerProofs.

(** ** IdentifierBufferScanner *)

Section ScannerProofs.
Import Scanner.

(** The nested loops visit the pixels in row-major order. *)
Lemma scan_row_major {St} (width height : Z) (body : St -> Z -> Z -> St)
    init :
  scan width height body init =
  foldl (fun st p => body st (fst p) (snd p)) init (row_major width height).
Proof.
  unfold scan, row_major. generalize (seqZ 0 height) as ys.
  intros ys. revert init.
  induction ys as [|y ys IH]; intros init; [reflexivity|].
  cbn [foldl]. rewrite bind_cons, foldl_app, IH. f_equal.
  generalize (seqZ 0 width) as xs. intros xs. revert init.
  induction xs as [|x xs IHx]; intros init; [reflexivity|].
  cbn. apply IHx.
Qed.

(** *** MarkVisibleBoxes *)

Lemma mark_pixel_background buffer width backgroundLabel m x y :
  pixel_label buffer width x y = backgroundLabel ->
  mark_pixel buffer width backgroundLabel m x y = m.
Proof.
  intros H. unfold mark_pixel. destruct (decide _) as [Hne|]; [|reflexivity].
  contradiction.
Qed.

Lemma mark_fold buffer width backgroundLabel pixels : forall (m : gmap Z Z) id,
  foldl (fun st p => mark_pixel buffer width backgroundLabel st (fst p) (snd p))
        m pixels !! id =
  match m !! id with
  | Some l => Some l
  | None => first_seen_label buffer width backgroundLabel pixels id
  end.
Proof.
  induction pixels as [|[x y] pixels IH]; intros m id; cbn [foldl].
  - cbn. now destruct (m !! id).
  - rewrite IH. cbn [first_seen_label fst snd]. unfold mark_pixel.
    destruct (decide (pixel_label buffer width x y <> backgroundLabel))
      as [Hl|Hl].
    + destruct (m !! pixel_ogreId buffer width x y) eqn:Hm.
      * destruct (m !! id) eqn:Hid; [reflexivity|].
        destruct (decide _) as [[_ <-]|Hn]; [congruence|reflexivity].
      * destruct (decide (pixel_ogreId buffer width x y = id)) as [<-|Hne].
        -- rewrite lookup_insert_eq, Hm.
           destruct (decide _) as [_|Hn]; [reflexivity|tauto].
        -- rewrite lookup_insert_ne by assumption.
           destruct (m !! id); [reflexivity|].
           destruct (decide _) as [[_ E]|_]; [contradiction|reflexivity].
    + destruct (m !! id); [reflexivity|].
      destruct (decide _) as [[E _]|_]; [contradiction|reflexivity].
Qed.

(** *** VisibleBoundingBoxes *)

Lemma visible_pixel_background buffer width height backgroundLabel st x y :
  pixel_label buffer width x y = backgroundLabel ->
  visible_pixel buffer width height backgroundLabel (Some st) x y = Some st.
Proof.
  intros H. unfold visible_pixel. cbn.
  destruct (decide _) as [Hne|]; [contradiction|reflexivity].
Qed.

Lemma visible_fold buffer width height backgroundLabel pixels : forall st,
  boundaries_known st ->
  exists st',
    foldl (fun st p => visible_pixel buffer width height backgroundLabel st
                         (fst p) (snd p)) (Some st) pixels = Some st' /\
    boundaries_known st' /\
    forall id,
      box_label <$> boundingboxes st' !! id =
      match box_label <$> boundingboxes st !! id with
      | Some l => Some l
      | None => first_seen_label buffer width backgroundLabel pixels id
      end.
Proof.
  induction pixels as [|[x y] pixels IH]; intros st Hinv; cbn [foldl].
  - exists st. split; [reflexivity|]. split; [assumption|].
    intros id. cbn. now destruct (boundingboxes st !! id).
  - cbn [fst snd first_seen_label]. unfold visible_pixel at 2. cbn [mbind option_bind].
    destruct (decide (pixel_label buffer width x y <> backgroundLabel))
      as [Hl|Hl].
    + set (oid := pixel_ogreId buffer width x y).
      destruct (boundingboxes st !! oid) as [box|] eqn:Hb.
      * destruct (Hinv oid) as [bd Hbd]; [rewrite Hb; eauto|].
        rewrite Hbd. cbn [mbind option_bind].
        match goal with |- context [foldl _ (Some ?s) pixels] =>
          destruct (IH s) as (st' & Hf & Hi & Hlab) end.
        { intros id Hid. cbn in *.
          destruct (decide (oid = id)) as [<-|Hne].
          - rewrite lookup_insert_eq. eauto.
          - rewrite lookup_insert_ne by assumption. now apply Hinv. }
        exists st'. split; [exact Hf|]. split; [exact Hi|].
        intros id. rewrite Hlab. cbn [boundingboxes].
        destruct (boundingboxes st !! id) as [b'|] eqn:Hid; [reflexivity|].
        cbn. destruct (decide _) as [[_ E]|_]; [|reflexivity].
        subst id. congruence.
      * match goal with |- context [foldl _ (Some ?s) pixels] =>
          destruct (IH s) as (st' & Hf & Hi & Hlab) end.
        { intros id Hid. cbn in *.
          destruct (decide (oid = id)) as [<-|Hne].
          - rewrite lookup_insert_eq. eauto.
          - rewrite lookup_insert_ne in Hid by assumption.
            rewrite lookup_insert_ne by assumption. now apply Hinv. }
        exists st'. split; [exact Hf|]. split; [exact Hi|].
        intros id. rewrite Hlab. cbn [boundingboxes].
        destruct (decide (oid = id)) as [<-|Hne].
        -- rewrite lookup_insert_eq, Hb. cbn.
           destruct (decide _) as [_|Hn]; [reflexivity|tauto].
        -- rewrite lookup_insert_ne by assumption.
           destruct (boundingboxes st !! id); [reflexivity|]. cbn.
           destruct (decide _) as [[_ E]|_]; [contradiction|reflexivity].
    + destruct (IH st Hinv) as (st' & Hf & Hi & Hlab).
      exists st'. split; [exact Hf|]. split; [exact Hi|].
      intros id. rewrite Hlab.
      destruct (boundingboxes st !! id); [reflexivity|]. cbn.
      destruct (decide _) as [[E _]|_]; [contradiction|reflexivity].
Qed.

(** C5.  An identifier between 0 and 65535, split into id/256 and
    id%256, consists of two bytes, and the decoding idHigh*256 + idLow
    that both scans apply to the bytes of a pixel gives the identifier
    back. *)
Theorem C5_identifier_roundtrip (id : Z) :
  0 <= id <= 65535 ->
  let idHigh := fst (encode_id id) in
  let idLow := snd (encode_id id) in
  0 <= idHigh <= 255 /\ 0 <= idLow <= 255 /\
  decode_id idHigh idLow = id /\
  forall buffer width x y,
    byte_at buffer (wrap32 (pixel_index width x y + 1)) = idHigh ->
    byte_at buffer (wrap32 (pixel_index width x y + 0)) = idLow ->
    pixel_ogreId buffer width x y = id.
Proof.
  intros Hid idHigh idLow. unfold encode_id in *. cbn [fst snd] in *.
  subst idHigh idLow.
  assert (Hh : 0 <= id / 256 <= 255).
  { split; [apply Z.div_pos; lia|].
    apply Z.lt_succ_r, Z.div_lt_upper_bound; lia. }
  assert (Hl : 0 <= id mod 256 < 256) by (apply Z.mod_pos_bound; lia).
  assert (Hd : decode_id (id / 256) (id mod 256) = id).
  { unfold decode_id, wrap32.
    rewrite Z.mul_comm, <- Z.div_mod by lia. apply Z.mod_small. lia. }
  split; [exact Hh|]. split; [lia|]. split; [exact Hd|].
  intros buffer width x y H1 H0. unfold pixel_ogreId.
  rewrite H1, H0. exact Hd.
Qed.

Lemma C5_witness :
  decode_id (fst (encode_id 4660)) (snd (encode_id 4660)) = 4660.
Proof.
  refine (proj1 (proj2 (proj2 (C5_identifier_roundtrip 4660 _)))). lia.
Defined.

(** C6.  A pixel whose label is the background label leaves the map of
    [MarkVisibleBoxes] and both maps of [VisibleBoundingBoxes] exactly
    as they were.  Scanning from the empty maps of a new frame, the
    label recorded for an identifier is the label of the first
    non-background pixel with that identifier in row-major order, and
    an identifier without such a pixel has no entry. *)
Theorem C6_background_excluded_first_label_wins :
  (forall buffer width backgroundLabel visibleBoxesLabel x y,
     pixel_label buffer width x y = backgroundLabel ->
     mark_pixel buffer width backgroundLabel visibleBoxesLabel x y
       = visibleBoxesLabel) /\
  (forall buffer width height backgroundLabel st x y,
     pixel_label buffer width x y = backgroundLabel ->
     visible_pixel buffer width height backgroundLabel (Some st) x y
       = Some st) /\
  (forall buffer width height backgroundLabel id,
     MarkVisibleBoxes buffer width height backgroundLabel ∅ !! id =
     first_seen_label buffer width backgroundLabel
       (row_major width height) id) /\
  (forall buffer width height backgroundLabel,
     exists st,
       scan_visible buffer width height backgroundLabel (MkVisible ∅ ∅)
         = Some st /\
       forall id,
         box_label <$> boundingboxes st !! id =
           first_seen_label buffer width backgroundLabel
             (row_major width height) id /\
         (is_Some (boundingboxes st !! id) ->
          is_Some (boxesBoundary st !! id))).
Proof.
  split; [|split; [|split]].
  - intros. now apply mark_pixel_background.
  - intros. now apply visible_pixel_background.
  - intros buffer width height backgroundLabel id.
    unfold MarkVisibleBoxes. rewrite scan_row_major, mark_fold.
    now rewrite lookup_empty.
  - intros buffer width height backgroundLabel.
    unfold scan_visible. rewrite scan_row_major.
    destruct (visible_fold buffer width height backgroundLabel
                (row_major width height) (MkVisible ∅ ∅))
      as (st & Hf & Hi & Hlab).
    { intros id [b Hb]. cbn in Hb. now rewrite lookup_empty in Hb. }
    exists st. split; [exact Hf|]. intros id. split; [|apply Hi].
    rewrite Hlab. cbn. now rewrite lookup_empty.
Qed.

(** A two-pixel row: a background pixel, then a pixel of object 7 with
    label 5. *)
Lemma C6_witness :
  mark_pixel [0; 0; 9; 7; 0; 5] 2 9 ∅ 0 0 = ∅ /\
  MarkVisibleBoxes [0; 0; 9; 7; 0; 5] 2 1 9 ∅ !! 7 = Some 5.
Proof.
  destruct C6_background_excluded_first_label_wins as (Hbg & _ & Hfirst & _).
  split.
  - apply Hbg. reflexivity.
  - rewrite Hfirst. reflexivity.
Defined.

End ScannerProofs.

(** ** FullProjectionBuilder *)

Section FullBoxProofs.
Import FullBox.
Import PrimFloat.

Lemma Qfloor_inject z : Qfloor (inject_Z z) = z.
Proof. unfold Qfloor, inject_Z. cbn. apply Z.div_1_r. Qed.

(** C8.  [FullBoundingBoxes] on a 200 by 200 image, at two extents whose
    coordinates are single-precision numbers.  The extent from
    (-2,-1/2) to (2,1/2) shares points with the clip range, the middle
    of the screen among them, yet the test discards it and no box is
    stored for the item; the conversion, had it been reached, gives
    columns 0 to 199 and rows 50 to 150.  The extent from (-1/2,-2) to
    (1/2,1/2) is kept, and its minimum vertex is converted to row 200,
    which the final [std::max] with 0 leaves as it is: the stored box
    has centre (100,125) and size (100,150), and its last row is row
    200 of an image whose rows are 0 to 199. *)
Theorem C8_full_box_diverges :
  (* an extent across the whole width *)
  (Binary64.single_vertex Binary64.wide_min /\
   Binary64.single_vertex Binary64.wide_max /\
   Binary64.reaches_screen Binary64.wide_min Binary64.wide_max = true /\
   Binary64.contains Binary64.wide_min Binary64.wide_max 0%float 0%float = true /\
   Binary64.discards Binary64.wide_min Binary64.wide_max = true /\
   Binary64.full_box 200 200 Binary64.wide_min Binary64.wide_max =
     Some None /\
   Binary64.ConvertToScreenCoord 200 200
       Binary64.wide_min Binary64.wide_max =
     Some (Binary64.Vec3f 0 150 0, Binary64.Vec3f 199 50 0)%float) /\
  (* an extent that reaches below the clip range *)
  (Binary64.single_vertex Binary64.low_min /\
   Binary64.single_vertex Binary64.low_max /\
   Binary64.discards Binary64.low_min Binary64.low_max = false /\
   Binary64.ConvertToScreenCoord 200 200
       Binary64.low_min Binary64.low_max =
     Some (Binary64.Vec3f 50 200 0, Binary64.Vec3f 150 50 0)%float /\
   Binary64.full_box 200 200 Binary64.low_min Binary64.low_max =
     Some (Some (Binary64.MkBox2 (Vec2 100 125) (Vec2 100 150))%float) /\
   Binary64.bottom_row (Binary64.MkBox2 (Vec2 100 125) (Vec2 100 150))%float =
     Some 200).
Proof.
  split.
  - unfold Binary64.single_vertex, Double.is_single.
    repeat split; vm_compute; reflexivity.
  - unfold Binary64.single_vertex, Double.is_single.
    repeat split; vm_compute; reflexivity.
Qed.

End FullBoxProofs.

(** ** Rasterizer *)

Section RasterProofs.
Import Raster.

Lemma row0_S a n : row0 a (S n) = (a, 0) :: row0 (a + 1) n.
Proof.
  unfold row0. rewrite seqZ_cons by lia. cbn [fmap list_fmap].
  do 3 f_equal; lia.
Qed.

(** Running the loops on a buffer is plotting, in order, the pixels the
    loops record. *)
Lemma low_loop_trace {A} (f : A -> Z -> Z -> A) : forall n acc l dx dy yi x y D,
  foldl (fun a p => f a (fst p) (snd p)) acc
        (low_loop (fun pixels x y => pixels ++ [(x, y)]) n l dx dy yi x y D) =
  low_loop f n (foldl (fun a p => f a (fst p) (snd p)) acc l) dx dy yi x y D.
Proof.
  induction n as [|n IH]; intros acc l dx dy yi x y D; [reflexivity|].
  cbn [low_loop]. destruct (0 <? D); rewrite IH, foldl_snoc; reflexivity.
Qed.

Lemma high_loop_trace {A} (f : A -> Z -> Z -> A) : forall n acc l dx dy xi x y D,
  foldl (fun a p => f a (fst p) (snd p)) acc
        (high_loop (fun pixels x y => pixels ++ [(x, y)]) n l dx dy xi x y D) =
  high_loop f n (foldl (fun a p => f a (fst p) (snd p)) acc l) dx dy xi x y D.
Proof.
  induction n as [|n IH]; intros acc l dx dy xi x y D; [reflexivity|].
  cbn [high_loop]. destruct (0 <? D); rewrite IH, foldl_snoc; reflexivity.
Qed.

Lemma DrawLine_trace ImageWidth _data _point1 _point2 :
  DrawLine ImageWidth _data _point1 _point2 =
  foldl (fun d p => plot ImageWidth d (fst p) (snd p)) _data
        (DrawLine_points _point1 _point2).
Proof.
  unfold DrawLine, DrawLine_points, draw_line.
  destruct (_ <? _).
  - destruct (Xi _point1 <? Xi _point2);
      destruct (_ <? 0); now rewrite low_loop_trace.
  - destruct (Yi _point1 <? Yi _point2);
      destruct (_ <? 0); now rewrite high_loop_trace.
Qed.

(** On a horizontal line the error term never becomes positive and the
    row never changes. *)
Lemma low_loop_horizontal dx yi : forall n l x y D,
  0 <= dx -> D <= 0 ->
  low_loop (fun pixels x y => pixels ++ [(x, y)]) n l dx 0 yi x y D =
  l ++ ((fun x => (x, y)) <$> seqZ x (Z.of_nat n)).
Proof.
  induction n as [|n IH]; intros l x y D Hdx HD.
  - cbn. now rewrite app_nil_r.
  - cbn [low_loop]. rewrite seqZ_cons by lia. cbn [fmap list_fmap].
    destruct (0 <? D) eqn:E; [apply Z.ltb_lt in E; lia|].
    rewrite IH by lia. rewrite <- app_assoc. cbn [app].
    do 4 f_equal; lia.
Qed.

Lemma plot_row0 (_data : list Z) x :
  0 <= x < 200 ->
  plot 200 _data x 0 =
  <[Z.to_nat (3 * x + 2) := 0]>
    (<[Z.to_nat (3 * x + 1) := 255]> (<[Z.to_nat (3 * x) := 0]> _data)).
Proof.
  intros Hx. unfold plot.
  assert (E : wrap32 ((0 * 200 + x) * 3) = 3 * x)
    by (rewrite wrap32_small; lia).
  rewrite E. rewrite !wrap32_small by lia. reflexivity.
Qed.

Lemma plot_row0_lookup (_data : list Z) x :
  0 <= x < 200 -> (600 <= length _data)%nat ->
  (forall k, (k < 3)%nat ->
     plot 200 _data x 0 !! (Z.to_nat (3 * x) + k)%nat = outline !! k) /\
  (forall i, (i < Z.to_nat (3 * x) \/ Z.to_nat (3 * x) + 3 <= i)%nat ->
     plot 200 _data x 0 !! i = _data !! i) /\
  length (plot 200 _data x 0) = length _data.
Proof.
  intros Hx Hlen. rewrite plot_row0 by assumption.
  replace (Z.to_nat (3 * x + 2)) with (Z.to_nat (3 * x) + 2)%nat by lia.
  replace (Z.to_nat (3 * x + 1)) with (Z.to_nat (3 * x) + 1)%nat by lia.
  set (j := Z.to_nat (3 * x)). assert (Hj : (j + 3 <= 600)%nat) by lia.
  split; [|split].
  - intros k Hk.
    destruct k as [|[|[|k]]]; [| | |lia]; cbn [outline lookup list_lookup].
    + rewrite Nat.add_0_r.
      rewrite !list_lookup_insert_ne by lia.
      apply list_lookup_insert_eq. lia.
    + rewrite list_lookup_insert_ne by lia.
      apply list_lookup_insert_eq. rewrite length_insert. lia.
    + apply list_lookup_insert_eq. rewrite !length_insert. lia.
  - intros i Hi. now rewrite !list_lookup_insert_ne by lia.
  - now rewrite !length_insert.
Qed.

Lemma draw_row0 : forall n a (_data : list Z),
  0 <= a -> a + Z.of_nat n <= 200 -> (600 <= length _data)%nat ->
  let drawn := foldl (fun d p => plot 200 d (fst p) (snd p)) _data
                     (row0 a n) in
  (forall x k, a <= x < a + Z.of_nat n -> (k < 3)%nat ->
     drawn !! (Z.to_nat (3 * x) + k)%nat = outline !! k) /\
  (forall i, (i < Z.to_nat (3 * a) \/
              Z.to_nat (3 * (a + Z.of_nat n)) <= i)%nat ->
     drawn !! i = _data !! i) /\
  length drawn = length _data.
Proof.
  induction n as [|n IH]; intros a _data Ha Hn Hlen; cbn zeta.
  - cbn. split; [intros; lia|]. split; reflexivity.
  - rewrite row0_S. cbn [foldl fst snd].
    destruct (plot_row0_lookup _data a) as (P1 & P2 & P3); [lia|lia|].
    destruct (IH (a + 1) (plot 200 _data a 0)) as (I1 & I2 & I3);
      [lia|lia|lia|].
    split; [|split].
    + intros x k Hx Hk.
      destruct (decide (x = a)) as [->|Hne].
      * rewrite I2 by lia. now apply P1.
      * apply I1; lia.
    + intros i Hi. rewrite I2 by lia. apply P2. lia.
    + now rewrite I3.
Qed.

Lemma pixel_bytes_row0 (drawn : list Z) x :
  0 <= x ->
  (forall k, (k < 3)%nat ->
     drawn !! (Z.to_nat (3 * x) + k)%nat = outline !! k) ->
  pixel_bytes 200 drawn x 0 = outline.
Proof.
  intros Hx H. unfold pixel_bytes.
  replace (Z.to_nat ((0 * 200 + x) * 3)) with (Z.to_nat (3 * x)) by lia.
  apply list_eq. intros k.
  destruct (decide (k < 3)%nat) as [Hk|Hk].
  - rewrite lookup_take_lt by assumption. rewrite lookup_drop. now apply H.
  - rewrite lookup_take_ge by lia.
    destruct k as [|[|[|k]]]; [lia|lia|lia|reflexivity].
Qed.

(** C7 (amended).  The segment from (-1,1) to (1,1), whose two endpoints
    lie on the edge of the viewport, is accepted unchanged by the first
    pass of the clipper, in binary64 as in exact arithmetic, and maps to
    the pixels (0,0) and (199,0) of a 200 by 200 image.  [DrawLine] between these pixels plots 199 pixels, the
    columns 0 to 198 of row 0: in any buffer of 200*200*3 bytes these
    pixels get the outline colour and every byte from offset 597 on,
    pixel (199,0) included, keeps its value. *)
Theorem C7_horizontal_line_0_to_199 :
  Clipper.ClipToViewPort 1 Clipper.Binary64.viewport
      Clipper.Binary64.upper_left Clipper.Binary64.upper_right =
    Some (Clipper.Endpoints Clipper.Binary64.upper_left
                            Clipper.Binary64.upper_right) /\
  Clipper.ClipToViewPort 1 Clipper.Exact.viewport
      Clipper.Exact.upper_left Clipper.Exact.upper_right =
    Some (Clipper.Endpoints Clipper.Exact.upper_left
                            Clipper.Exact.upper_right) /\
  to_screen 200 200 Clipper.Exact.upper_left = Vec2i 0 0 /\
  to_screen 200 200 Clipper.Exact.upper_right = Vec2i 199 0 /\
  DrawLine_points (Vec2i 0 0) (Vec2i 199 0) =
    (fun x => (x, 0)) <$> seqZ 0 199 /\
  length (DrawLine_points (Vec2i 0 0) (Vec2i 199 0)) = 199%nat /\
  forall _data : list Z,
    length _data = (200 * 200 * 3)%nat ->
    let drawn := DrawLine 200 _data (Vec2i 0 0) (Vec2i 199 0) in
    (forall x, 0 <= x <= 198 -> pixel_bytes 200 drawn x 0 = outline) /\
    (forall i, (597 <= i)%nat -> drawn !! i = _data !! i) /\
    pixel_bytes 200 drawn 199 0 = pixel_bytes 200 _data 199 0 /\
    length drawn = length _data.
Proof.
  split; [reflexivity|]. split; [reflexivity|].
  split; [reflexivity|]. split; [reflexivity|].
  assert (Hpts : DrawLine_points (Vec2i 0 0) (Vec2i 199 0) = row0 0 199).
  { unfold DrawLine_points, draw_line. cbn [Xi Yi].
    change (Z.abs (0 - 0) <? Z.abs (199 - 0)) with true.
    change (0 <? 199) with true. cbn iota beta.
    change (0 - 0 <? 0) with false. cbn iota beta.
    now rewrite low_loop_horizontal by lia. }
  split; [exact Hpts|].
  split; [rewrite Hpts; unfold row0; now rewrite length_fmap, length_seqZ|].
  intros _data Hlen drawn.
  destruct (draw_row0 199 0 _data) as (H1 & H2 & H3); [lia|lia|lia|].
  unfold drawn. rewrite DrawLine_trace, Hpts.
  split; [|split; [|split]].
  - intros x Hx. apply pixel_bytes_row0; [lia|].
    intros k Hk. apply H1; lia.
  - intros i Hi. apply H2. lia.
  - unfold pixel_bytes. apply list_eq. intros k.
    destruct (decide (k < 3)%nat) as [Hk|Hk].
    + rewrite !lookup_take_lt by assumption. rewrite !lookup_drop.
      apply H2. lia.
    + now rewrite !lookup_take_ge by lia.
  - exact H3.
Qed.

(** In the buffer filled with the value 7, after the line is drawn, pixel
    (198,0) has the outline colour and pixel (199,0) is still 7,7,7. *)
Lemma C7_witness :
  pixel_bytes 200 (DrawLine 200 grey_buffer (Vec2i 0 0) (Vec2i 199 0)) 198 0
    = outline /\
  pixel_bytes 200 (DrawLine 200 grey_buffer (Vec2i 0 0) (Vec2i 199 0)) 199 0
    = [7; 7; 7].
Proof.
  destruct C7_horizontal_line_0_to_199 as (_ & _ & _ & _ & _ & _ & H).
  destruct (H grey_buffer (length_replicate _ _)) as (Hin & _ & Hout & _).
  split.
  - apply Hin. lia.
  - rewrite Hout. reflexivity.
Defined.

(** The claim as stated fails: the loop plots 199 pixels, not 200, and
    pixel (199,0) is not written. *)
Lemma C7_counterexample :
  length (DrawLine_points (Vec2i 0 0) (Vec2i 199 0)) <> 200%nat /\
  ~ In (199, 0) (DrawLine_points (Vec2i 0 0) (Vec2i 199 0)) /\
  pixel_bytes 200 (DrawLine 200 grey_buffer (Vec2i 0 0) (Vec2i 199 0)) 199 0
    <> outline.
Proof.
  split; [vm_compute; discriminate|]. split.
  - vm_compute. intros H.
    repeat (destruct H as [H|H]; [discriminate H|]). exact H.
  - vm_compute. discriminate.
Qed.

End RasterProofs.

(** ** Rasterizer: the passes of the two loops *)

Section RasterLoops.
Import Raster.

(** The passes of the first loop: pass number [k + j] plots column
    [x0 + k + j], and the row it plots stays within half a step of the
    ideal line. *)
Lemma low_loop_spec dx dy yi x0 y0 :
  0 < dx -> 0 <= dy <= dx ->
  forall n l k s D,
    0 <= k -> 0 <= s ->
    D = 2 * dy * (k + 1) - dx - 2 * dx * s ->
    2 * dy - 2 * dx < D <= 2 * dy ->
    exists pts,
      low_loop (fun pixels x y => pixels ++ [(x, y)]) n l dx dy yi (x0 + k) (y0 + yi * s) D = l ++ pts /\
      length pts = n /\
      forall j x y, pts !! j = Some (x, y) ->
        exists s', x = x0 + k + Z.of_nat j /\ y = y0 + yi * s' /\ s <= s' /\
                   - dx < 2 * (dy * (k + Z.of_nat j) - dx * s') <= dx.
Proof.
  intros Hdx Hdy. induction n as [|n IH]; intros l k s D Hk Hs HD Hr.
  - exists []. cbn. rewrite app_nil_r. split; [reflexivity|].
    split; [reflexivity|]. intros j x y H. discriminate H.
  - cbn [low_loop]. destruct (0 <? D) eqn:E.
    + apply Z.ltb_lt in E.
      destruct (IH (l ++ [(x0 + k, y0 + yi * s)]) (k + 1) (s + 1)
                  (D + 2 * (dy - dx))) as (pts & Hp & Hl & Hpts);
        [lia|lia|lia|lia|].
      exists ((x0 + k, y0 + yi * s) :: pts).
      replace (x0 + k + 1) with (x0 + (k + 1)) by lia.
      replace (y0 + yi * s + yi) with (y0 + yi * (s + 1)) by lia.
      rewrite Hp, <- app_assoc. split; [reflexivity|].
      split; [cbn; now rewrite Hl|].
      intros [|j] x y H; cbn in H.
      * injection H as <- <-. exists s. lia.
      * destruct (Hpts j x y H) as (s' & -> & -> & Hs' & Ha).
        exists s'. split; [lia|]. split; [reflexivity|]. split; [lia|].
        replace (k + Z.of_nat (S j)) with (k + 1 + Z.of_nat j) by lia.
        exact Ha.
    + apply Z.ltb_ge in E.
      destruct (IH (l ++ [(x0 + k, y0 + yi * s)]) (k + 1) s
                  (D + 2 * dy)) as (pts & Hp & Hl & Hpts);
        [lia|lia|lia|lia|].
      exists ((x0 + k, y0 + yi * s) :: pts).
      replace (x0 + k + 1) with (x0 + (k + 1)) by lia.
      rewrite Hp, <- app_assoc. split; [reflexivity|].
      split; [cbn; now rewrite Hl|].
      intros [|j] x y H; cbn in H.
      * injection H as <- <-. exists s. lia.
      * destruct (Hpts j x y H) as (s' & -> & -> & Hs' & Ha).
        exists s'. split; [lia|]. split; [reflexivity|]. split; [lia|].
        replace (k + Z.of_nat (S j)) with (k + 1 + Z.of_nat j) by lia.
        exact Ha.
Qed.

(** The passes of the second loop, with the roles of the axes
    exchanged. *)
Lemma high_loop_spec dx dy xi x0 y0 :
  0 < dy -> 0 <= dx <= dy ->
  forall n l k s D,
    0 <= k -> 0 <= s ->
    D = 2 * dx * (k + 1) - dy - 2 * dy * s ->
    2 * dx - 2 * dy < D <= 2 * dx ->
    exists pts,
      high_loop (fun pixels x y => pixels ++ [(x, y)]) n l dx dy xi (x0 + xi * s) (y0 + k) D = l ++ pts /\
      length pts = n /\
      forall j x y, pts !! j = Some (x, y) ->
        exists s', y = y0 + k + Z.of_nat j /\ x = x0 + xi * s' /\ s <= s' /\
                   - dy < 2 * (dx * (k + Z.of_nat j) - dy * s') <= dy.
Proof.
  intros Hdy Hdx. induction n as [|n IH]; intros l k s D Hk Hs HD Hr.
  - exists []. cbn. rewrite app_nil_r. split; [reflexivity|].
    split; [reflexivity|]. intros j x y H. discriminate H.
  - cbn [high_loop]. destruct (0 <? D) eqn:E.
    + apply Z.ltb_lt in E.
      destruct (IH (l ++ [(x0 + xi * s, y0 + k)]) (k + 1) (s + 1)
                  (D + 2 * (dx - dy))) as (pts & Hp & Hl & Hpts);
        [lia|lia|lia|lia|].
      exists ((x0 + xi * s, y0 + k) :: pts).
      replace (y0 + k + 1) with (y0 + (k + 1)) by lia.
      replace (x0 + xi * s + xi) with (x0 + xi * (s + 1)) by lia.
      rewrite Hp, <- app_assoc. split; [reflexivity|].
      split; [cbn; now rewrite Hl|].
      intros [|j] x y H; cbn in H.
      * injection H as <- <-. exists s. lia.
      * destruct (Hpts j x y H) as (s' & -> & -> & Hs' & Ha).
        exists s'. split; [lia|]. split; [reflexivity|]. split; [lia|].
        replace (k + Z.of_nat (S j)) with (k + 1 + Z.of_nat j) by lia.
        exact Ha.
    + apply Z.ltb_ge in E.
      destruct (IH (l ++ [(x0 + xi * s, y0 + k)]) (k + 1) s
                  (D + 2 * dx)) as (pts & Hp & Hl & Hpts);
        [lia|lia|lia|lia|].
      exists ((x0 + xi * s, y0 + k) :: pts).
      replace (y0 + k + 1) with (y0 + (k + 1)) by lia.
      rewrite Hp, <- app_assoc. split; [reflexivity|].
      split; [cbn; now rewrite Hl|].
      intros [|j] x y H; cbn in H.
      * injection H as <- <-. exists s. lia.
      * destruct (Hpts j x y H) as (s' & -> & -> & Hs' & Ha).
        exists s'. split; [lia|]. split; [reflexivity|]. split; [lia|].
        replace (k + Z.of_nat (S j)) with (k + 1 + Z.of_nat j) by lia.
        exact Ha.
Qed.

(** Each pixel that [DrawLine] plots, by its position in the order of
    plotting. *)
Lemma DrawLine_points_core (p1 p2 : Vector2i) :
  let dx := Xi p2 - Xi p1 in
  let dy := Yi p2 - Yi p1 in
  let pts := DrawLine_points p1 p2 in
  length pts = Z.to_nat (Z.max (Z.abs dx) (Z.abs dy)) /\
  forall j x y, pts !! j = Some (x, y) ->
    Z.min (Xi p1) (Xi p2) <= x <= Z.max (Xi p1) (Xi p2) /\
    Z.min (Yi p1) (Yi p2) <= y <= Z.max (Yi p1) (Yi p2) /\
    2 * Z.abs (dx * (y - Yi p1) - dy * (x - Xi p1))
      <= Z.max (Z.abs dx) (Z.abs dy) /\
    (if Z.abs dy <? Z.abs dx
     then x = Z.min (Xi p1) (Xi p2) + Z.of_nat j
     else y = Z.min (Yi p1) (Yi p2) + Z.of_nat j) /\
    (j = 0%nat ->
     (x, y) = if Z.abs dy <? Z.abs dx
              then (if Xi p1 <? Xi p2 then (Xi p1, Yi p1) else (Xi p2, Yi p2))
              else (if Yi p1 <? Yi p2 then (Xi p1, Yi p1) else (Xi p2, Yi p2))).
Proof.
  destruct p1 as [X1 Y1], p2 as [X2 Y2]. cbv zeta.
  unfold DrawLine_points, draw_line. cbn [Xi Yi].
  destruct (Z.abs (Y2 - Y1) <? Z.abs (X2 - X1)) eqn:Eb.
  - apply Z.ltb_lt in Eb.
    destruct (X1 <? X2) eqn:Ex; [apply Z.ltb_lt in Ex|apply Z.ltb_ge in Ex].
    + destruct (Y2 - Y1 <? 0) eqn:Ey;
        [apply Z.ltb_lt in Ey|apply Z.ltb_ge in Ey].
      * destruct (low_loop_spec (X2 - X1) (- (Y2 - Y1)) (-1) X1 Y1
                    ltac:(lia) ltac:(lia) (Z.to_nat (X2 - X1)) [] 0 0
                    (2 * - (Y2 - Y1) - (X2 - X1)))
          as (pts & Hp & Hl & Hpts); [lia|lia|lia|lia|].
        replace (X1 + 0) with X1 in Hp by lia.
        replace (Y1 + -1 * 0) with Y1 in Hp by lia.
        rewrite Hp. cbn [app]. split; [lia|].
        intros j x y H.
        assert (Hj : (j < length pts)%nat) by (eapply lookup_lt_Some; eauto).
        destruct (Hpts j x y H) as (s' & -> & -> & Hs' & Ha).
        repeat split; try nia.
        intros ->. destruct (Hpts 0%nat _ _ H) as (s0 & _ & E0 & _ & A0).
        f_equal; nia.
      * destruct (low_loop_spec (X2 - X1) (Y2 - Y1) 1 X1 Y1
                    ltac:(lia) ltac:(lia) (Z.to_nat (X2 - X1)) [] 0 0
                    (2 * (Y2 - Y1) - (X2 - X1)))
          as (pts & Hp & Hl & Hpts); [lia|lia|lia|lia|].
        replace (X1 + 0) with X1 in Hp by lia.
        replace (Y1 + 1 * 0) with Y1 in Hp by lia.
        rewrite Hp. cbn [app]. split; [lia|].
        intros j x y H.
        assert (Hj : (j < length pts)%nat) by (eapply lookup_lt_Some; eauto).
        destruct (Hpts j x y H) as (s' & -> & -> & Hs' & Ha).
        repeat split; try nia.
        intros ->. destruct (Hpts 0%nat _ _ H) as (s0 & _ & E0 & _ & A0).
        f_equal; nia.
    + destruct (Y1 - Y2 <? 0) eqn:Ey;
        [apply Z.ltb_lt in Ey|apply Z.ltb_ge in Ey].
      * destruct (low_loop_spec (X1 - X2) (- (Y1 - Y2)) (-1) X2 Y2
                    ltac:(lia) ltac:(lia) (Z.to_nat (X1 - X2)) [] 0 0
                    (2 * - (Y1 - Y2) - (X1 - X2)))
          as (pts & Hp & Hl & Hpts); [lia|lia|lia|lia|].
        replace (X2 + 0) with X2 in Hp by lia.
        replace (Y2 + -1 * 0) with Y2 in Hp by lia.
        rewrite Hp. cbn [app]. split; [lia|].
        intros j x y H.
        assert (Hj : (j < length pts)%nat) by (eapply lookup_lt_Some; eauto).
        destruct (Hpts j x y H) as (s' & -> & -> & Hs' & Ha).
        repeat split; try nia.
        intros ->. destruct (Hpts 0%nat _ _ H) as (s0 & _ & E0 & _ & A0).
        f_equal; nia.
      * destruct (low_loop_spec (X1 - X2) (Y1 - Y2) 1 X2 Y2
                    ltac:(lia) ltac:(lia) (Z.to_nat (X1 - X2)) [] 0 0
                    (2 * (Y1 - Y2) - (X1 - X2)))
          as (pts & Hp & Hl & Hpts); [lia|lia|lia|lia|].
        replace (X2 + 0) with X2 in Hp by lia.
        replace (Y2 + 1 * 0) with Y2 in Hp by lia.
        rewrite Hp. cbn [app]. split; [lia|].
        intros j x y H.
        assert (Hj : (j < length pts)%nat) by (eapply lookup_lt_Some; eauto).
        destruct (Hpts j x y H) as (s' & -> & -> & Hs' & Ha).
        repeat split; try nia.
        intros ->. destruct (Hpts 0%nat _ _ H) as (s0 & _ & E0 & _ & A0).
        f_equal; nia.
  - apply Z.ltb_ge in Eb.
    destruct (Y1 <? Y2) eqn:Ey; [apply Z.ltb_lt in Ey|apply Z.ltb_ge in Ey].
    + destruct (X2 - X1 <? 0) eqn:Ex;
        [apply Z.ltb_lt in Ex|apply Z.ltb_ge in Ex].
      * destruct (high_loop_spec (- (X2 - X1)) (Y2 - Y1) (-1) X1 Y1
                    ltac:(lia) ltac:(lia) (Z.to_nat (Y2 - Y1)) [] 0 0
                    (2 * - (X2 - X1) - (Y2 - Y1)))
          as (pts & Hp & Hl & Hpts); [lia|lia|lia|lia|].
        replace (Y1 + 0) with Y1 in Hp by lia.
        replace (X1 + -1 * 0) with X1 in Hp by lia.
        rewrite Hp. cbn [app]. split; [lia|].
        intros j x y H.
        assert (Hj : (j < length pts)%nat) by (eapply lookup_lt_Some; eauto).
        destruct (Hpts j x y H) as (s' & -> & -> & Hs' & Ha).
        repeat split; try nia.
        intros ->. destruct (Hpts 0%nat _ _ H) as (s0 & _ & E0 & _ & A0).
        f_equal; nia.
      * destruct (high_loop_spec (X2 - X1) (Y2 - Y1) 1 X1 Y1
                    ltac:(lia) ltac:(lia) (Z.to_nat (Y2 - Y1)) [] 0 0
                    (2 * (X2 - X1) - (Y2 - Y1)))
          as (pts & Hp & Hl & Hpts); [lia|lia|lia|lia|].
        replace (Y1 + 0) with Y1 in Hp by lia.
        replace (X1 + 1 * 0) with X1 in Hp by lia.
        rewrite Hp. cbn [app]. split; [lia|].
        intros j x y H.
        assert (Hj : (j < length pts)%nat) by (eapply lookup_lt_Some; eauto).
        destruct (Hpts j x y H) as (s' & -> & -> & Hs' & Ha).
        repeat split; try nia.
        intros ->. destruct (Hpts 0%nat _ _ H) as (s0 & _ & E0 & _ & A0).
        f_equal; nia.
    + destruct (Z.eq_dec Y1 Y2) as [->|Hne].
      { assert (X1 = X2) as -> by lia.
        rewrite !Z.sub_diag. cbn. split; [reflexivity|].
        intros j x y H. discriminate H. }
      destruct (X1 - X2 <? 0) eqn:Ex;
        [apply Z.ltb_lt in Ex|apply Z.ltb_ge in Ex].
      * destruct (high_loop_spec (- (X1 - X2)) (Y1 - Y2) (-1) X2 Y2
                    ltac:(lia) ltac:(lia) (Z.to_nat (Y1 - Y2)) [] 0 0
                    (2 * - (X1 - X2) - (Y1 - Y2)))
          as (pts & Hp & Hl & Hpts); [lia|lia|lia|lia|].
        replace (Y2 + 0) with Y2 in Hp by lia.
        replace (X2 + -1 * 0) with X2 in Hp by lia.
        rewrite Hp. cbn [app]. split; [lia|].
        intros j x y H.
        assert (Hj : (j < length pts)%nat) by (eapply lookup_lt_Some; eauto).
        destruct (Hpts j x y H) as (s' & -> & -> & Hs' & Ha).
        repeat split; try nia.
        intros ->. destruct (Hpts 0%nat _ _ H) as (s0 & _ & E0 & _ & A0).
        f_equal; nia.
      * destruct (high_loop_spec (X1 - X2) (Y1 - Y2) 1 X2 Y2
                    ltac:(lia) ltac:(lia) (Z.to_nat (Y1 - Y2)) [] 0 0
                    (2 * (X1 - X2) - (Y1 - Y2)))
          as (pts & Hp & Hl & Hpts); [lia|lia|lia|lia|].
        replace (Y2 + 0) with Y2 in Hp by lia.
        replace (X2 + 1 * 0) with X2 in Hp by lia.
        rewrite Hp. cbn [app]. split; [lia|].
        intros j x y H.
        assert (Hj : (j < length pts)%nat) by (eapply lookup_lt_Some; eauto).
        destruct (Hpts j x y H) as (s' & -> & -> & Hs' & Ha).
        repeat split; try nia.
        intros ->. destruct (Hpts 0%nat _ _ H) as (s0 & _ & E0 & _ & A0).
        f_equal; nia.
Qed.

End RasterLoops.

(** ** Rasterizer: the buffer *)

Section RasterBuffer.
Import Raster Drawing.

(** The offset of the first byte of a pixel of the image. *)
Lemma pixel_offset_range W H x y :
  0 <= x < W -> 0 <= y < H ->
  0 <= (y * W + x) * 3 /\ (y * W + x) * 3 + 3 <= 3 * W * H.
Proof. intros Hx Hy. nia. Qed.

(** Two pixels of the image whose byte ranges meet are the same pixel. *)
Lemma pixel_offset_inj W x y x' y' (k k' : Z) :
  0 <= x < W -> 0 <= x' < W -> 0 <= y -> 0 <= y' ->
  0 <= k < 3 -> 0 <= k' < 3 ->
  (y * W + x) * 3 + k = (y' * W + x') * 3 + k' ->
  x = x' /\ y = y' /\ k = k'.
Proof.
  intros Hx Hx' Hy Hy' Hk Hk' E.
  assert (y * W + x = y' * W + x') by lia.
  assert (k = k') by lia.
  assert (y = y') by nia.
  subst. repeat split; lia.
Qed.

(** "Plot the point" on a pixel of the image: the three bytes of the
    pixel get the outline colour, every other byte is as before. *)
Lemma plot_lookup W H (_data : list Z) x y :
  0 <= x < W -> 0 <= y < H -> 3 * W * H <= 2 ^ 32 ->
  Z.of_nat (length _data) = 3 * W * H ->
  length (plot W _data x y) = length _data /\
  (forall k, (k < 3)%nat ->
     plot W _data x y !! (Z.to_nat ((y * W + x) * 3) + k)%nat = outline !! k) /\
  (forall i, (i < Z.to_nat ((y * W + x) * 3) \/
              Z.to_nat ((y * W + x) * 3) + 3 <= i)%nat ->
     plot W _data x y !! i = _data !! i).
Proof.
  intros Hx Hy HW Hlen. unfold plot.
  destruct (pixel_offset_range W H x y Hx Hy) as [H0 H1].
  rewrite (wrap32_small ((y * W + x) * 3)) by lia.
  rewrite !wrap32_small by lia.
  replace (Z.to_nat ((y * W + x) * 3 + 2))
    with (Z.to_nat ((y * W + x) * 3) + 2)%nat by lia.
  replace (Z.to_nat ((y * W + x) * 3 + 1))
    with (Z.to_nat ((y * W + x) * 3) + 1)%nat by lia.
  set (j := Z.to_nat ((y * W + x) * 3)).
  assert (Hj : (j + 3 <= length _data)%nat) by lia.
  split; [|split].
  - now rewrite !length_insert.
  - intros k Hk.
    destruct k as [|[|[|k]]]; [| | |lia]; cbn [outline lookup list_lookup].
    + rewrite Nat.add_0_r.
      rewrite !list_lookup_insert_ne by lia.
      apply list_lookup_insert_eq. lia.
    + rewrite list_lookup_insert_ne by lia.
      apply list_lookup_insert_eq. rewrite length_insert. lia.
    + apply list_lookup_insert_eq. rewrite !length_insert. lia.
  - intros i Hi. now rewrite !list_lookup_insert_ne by lia.
Qed.

(** Plotting a list of pixels of the image, one after the other. *)
Lemma plot_pixels W H (pts : list (Z * Z)) : forall (_data : list Z),
  3 * W * H <= 2 ^ 32 -> Z.of_nat (length _data) = 3 * W * H ->
  Forall (in_image W H) pts ->
  let drawn := foldl (fun d p => plot W d (fst p) (snd p)) _data pts in
  length drawn = length _data /\
  (forall x y k, In (x, y) pts -> (k < 3)%nat ->
     drawn !! (Z.to_nat ((y * W + x) * 3) + k)%nat = outline !! k) /\
  (forall i, (forall x y, In (x, y) pts ->
                (i < Z.to_nat ((y * W + x) * 3) \/
                 Z.to_nat ((y * W + x) * 3) + 3 <= i)%nat) ->
     drawn !! i = _data !! i).
Proof.
  induction pts as [|[px py] pts IH] using rev_ind; intros _data HW Hlen Hall;
    cbn zeta.
  - cbn. split; [reflexivity|]. split; [intros x y k Hin; destruct Hin|reflexivity].
  - rewrite foldl_snoc. cbn [fst snd].
    apply Forall_app in Hall as [Hall Hp].
    apply Forall_inv in Hp. destruct Hp as [Hpx Hpy]. cbn in Hpx, Hpy.
    destruct (IH _data HW Hlen Hall) as (I1 & I2 & I3).
    set (d := foldl _ _data pts) in *.
    destruct (plot_lookup W H d px py Hpx Hpy HW ltac:(lia)) as (P1 & P2 & P3).
    split; [lia|]. split.
    + intros x y k Hin Hk.
      destruct (decide (x = px /\ y = py)) as [[-> ->]|Hne].
      * now apply P2.
      * apply in_app_or in Hin as [Hin|[Hin|[]]];
          [|injection Hin as <- <-; tauto].
        rewrite P3; [now apply I2|].
        rewrite Forall_forall in Hall.
        destruct (Hall (x, y)) as [Hx Hy];
          [now apply list_elem_of_In|]. cbn in Hx, Hy.
        destruct (pixel_offset_range W H x y Hx Hy).
        destruct (pixel_offset_range W H px py Hpx Hpy).
        assert (y * W + x <> py * W + px).
        { intros E. apply Hne.
          destruct (pixel_offset_inj W x y px py 0 0) as (? & ? & _);
            try lia. }
        lia.
    + intros i Hi. rewrite P3.
      * apply I3. intros x y Hin. apply Hi. apply in_or_app. now left.
      * apply Hi. apply in_or_app. right. now left.
Qed.

(** The bytes of a pixel of the image, read off the byte-wise
    description of a buffer. *)
Lemma pixel_bytes_outline W (drawn : list Z) x y :
  0 <= (y * W + x) * 3 ->
  (forall k, (k < 3)%nat ->
     drawn !! (Z.to_nat ((y * W + x) * 3) + k)%nat = outline !! k) ->
  pixel_bytes W drawn x y = outline.
Proof.
  intros Hx H. unfold pixel_bytes.
  apply list_eq. intros k.
  destruct (decide (k < 3)%nat) as [Hk|Hk].
  - rewrite lookup_take_lt by assumption. rewrite lookup_drop. now apply H.
  - rewrite lookup_take_ge by lia.
    destruct k as [|[|[|k]]]; [lia|lia|lia|reflexivity].
Qed.

Lemma pixel_bytes_same W (drawn _data : list Z) x y :
  (forall k, (k < 3)%nat ->
     drawn !! (Z.to_nat ((y * W + x) * 3) + k)%nat =
     _data !! (Z.to_nat ((y * W + x) * 3) + k)%nat) ->
  pixel_bytes W drawn x y = pixel_bytes W _data x y.
Proof.
  intros H. unfold pixel_bytes.
  apply list_eq. intros k.
  destruct (decide (k < 3)%nat) as [Hk|Hk].
  - rewrite !lookup_take_lt by assumption. rewrite !lookup_drop. now apply H.
  - now rewrite !lookup_take_ge by lia.
Qed.

(** The same at the level of pixels. *)
Lemma plot_pixels_image W H (pts : list (Z * Z)) (_data : list Z) :
  3 * W * H <= 2 ^ 32 -> Z.of_nat (length _data) = 3 * W * H ->
  Forall (in_image W H) pts ->
  let drawn := foldl (fun d p => plot W d (fst p) (snd p)) _data pts in
  length drawn = length _data /\
  (forall x y, In (x, y) pts -> pixel_bytes W drawn x y = outline) /\
  (forall x y, 0 <= x < W -> 0 <= y < H -> ~ In (x, y) pts ->
     pixel_bytes W drawn x y = pixel_bytes W _data x y).
Proof.
  intros HW Hlen Hall. cbn zeta.
  destruct (plot_pixels W H pts _data HW Hlen Hall) as (P1 & P2 & P3).
  split; [exact P1|]. split.
  - intros x y Hin. apply pixel_bytes_outline; [|intros k Hk; now apply P2].
    rewrite Forall_forall in Hall.
    destruct (Hall (x, y)) as [Hx Hy]; [now apply list_elem_of_In|].
    cbn in Hx, Hy. nia.
  - intros x y Hx Hy Hnot. apply pixel_bytes_same. intros k Hk.
    apply P3. intros x' y' Hin.
    rewrite Forall_forall in Hall.
    destruct (Hall (x', y')) as [Hx' Hy']; [now apply list_elem_of_In|].
    cbn in Hx', Hy'.
    destruct (pixel_offset_range W H x y Hx Hy).
    destruct (pixel_offset_range W H x' y' Hx' Hy').
    assert (y * W + x <> y' * W + x').
    { intros E. apply Hnot.
      destruct (pixel_offset_inj W x y x' y' 0 0) as (-> & -> & _);
        try lia. exact Hin. }
    lia.
Qed.

End RasterBuffer.

Section DrawingProofs.
Import Clipper Raster Drawing.

(** Every pixel that [DrawLine] plots between two pixels of an image is
    a pixel of the image. *)
Lemma DrawLine_points_in_image W H p1 p2 :
  in_image W H (Xi p1, Yi p1) -> in_image W H (Xi p2, Yi p2) ->
  Forall (in_image W H) (DrawLine_points p1 p2).
Proof.
  intros [H1x H1y] [H2x H2y]. cbn in *.
  destruct (DrawLine_points_core p1 p2) as [_ Hpts].
  apply Forall_forall. intros [x y] Hin.
  apply list_elem_of_lookup in Hin as [j Hj].
  destruct (Hpts j x y Hj) as (Hx & Hy & _).
  split; cbn; lia.
Qed.

Lemma DrawLine_image W H (_data : list Z) p1 p2 :
  in_image W H (Xi p1, Yi p1) -> in_image W H (Xi p2, Yi p2) ->
  3 * W * H <= 2 ^ 32 -> Z.of_nat (length _data) = 3 * W * H ->
  length (DrawLine W _data p1 p2) = length _data /\
  (forall x y, In (x, y) (DrawLine_points p1 p2) ->
     pixel_bytes W (DrawLine W _data p1 p2) x y = outline) /\
  (forall x y, 0 <= x < W -> 0 <= y < H ->
     ~ In (x, y) (DrawLine_points p1 p2) ->
     pixel_bytes W (DrawLine W _data p1 p2) x y = pixel_bytes W _data x y).
Proof.
  intros H1 H2 HW Hlen. rewrite DrawLine_trace.
  apply (plot_pixels_image W H); try assumption.
  now apply DrawLine_points_in_image.
Qed.


End DrawingProofs.

(** ** OutlineDrawer: the conversion to pixels *)

Section ScreenProofs.
Import Clipper Raster Drawing.
Import PrimFloat.

(** A defined conversion to [uint32_t] yields a value of the type. *)
Lemma Double_to_uint32_range x z :
  Double.to_uint32 x = Some z -> 0 <= z < 2 ^ 32.
Proof.
  unfold Double.to_uint32.
  destruct (Double.truncate x) as [t|]; [|discriminate]. cbn.
  destruct (decide (0 <= t < 2 ^ 32)) as [Ht|]; [|discriminate].
  intros [= <-]. exact Ht.
Qed.

Lemma Double_to_int_small n : - 2 ^ 31 <= n < 2 ^ 31 -> Double.to_int n = Some n.
Proof.
  intros Hn. unfold Double.to_int.
  destruct (decide (- 2 ^ 31 <= n < 2 ^ 31)); [reflexivity|contradiction].
Qed.

(** The conversion of a vertex: the two conversions to [uint32_t], then
    the cap at the last column and row. *)
Lemma to_screen_double_eq width height vertex :
  0 < width <= 2 ^ 31 -> 0 < height <= 2 ^ 31 ->
  to_screen_double width height vertex =
  (x ← Double.to_uint32
         ((X vertex + 1) / 2 * Double.of_uint32 width)%float;
   y ← Double.to_uint32
         ((1 - Y vertex) / 2 * Double.of_uint32 height)%float;
   Some (Vec2i (Z.min x (width - 1)) (Z.min y (height - 1)))).
Proof.
  intros HW HH. unfold to_screen_double.
  destruct (Double.to_uint32 ((X vertex + 1) / 2 * Double.of_uint32 width))
    as [x|] eqn:Ex; [|reflexivity].
  destruct (Double.to_uint32 ((1 - Y vertex) / 2 * Double.of_uint32 height))
    as [y|] eqn:Ey; [|reflexivity].
  apply Double_to_uint32_range in Ex, Ey. cbn [mbind option_bind].
  rewrite !wrap32_small by lia.
  rewrite !Z.max_r by lia.
  rewrite !Double_to_int_small by lia. reflexivity.
Qed.

Lemma to_screen_double_image width height vertex p :
  0 < width <= 2 ^ 31 -> 0 < height <= 2 ^ 31 ->
  to_screen_double width height vertex = Some p ->
  in_image width height (Xi p, Yi p).
Proof.
  intros HW HH. rewrite to_screen_double_eq by assumption.
  destruct (Double.to_uint32 ((X vertex + 1) / 2 * Double.of_uint32 width))
    as [x|] eqn:Ex; [|discriminate].
  destruct (Double.to_uint32 ((1 - Y vertex) / 2 * Double.of_uint32 height))
    as [y|] eqn:Ey; [|discriminate].
  apply Double_to_uint32_range in Ex, Ey. cbn [mbind option_bind].
  intros [= <-]. split; cbn; lia.
Qed.

End ScreenProofs.

(** ** Rasterizer: properties of [DrawLine] *)

Section DrawLineProperties.
Import Clipper Raster Drawing.

(** X4.  [DrawLine] does not depend on the order of its two endpoints:
    with the endpoints exchanged it plots the same pixels in the same
    order and leaves the same buffer. *)
Theorem X4_DrawLine_endpoints_exchange ImageWidth (_data : list Z) p1 p2 :
  DrawLine_points p1 p2 = DrawLine_points p2 p1 /\
  DrawLine ImageWidth _data p1 p2 = DrawLine ImageWidth _data p2 p1.
Proof.
  assert (Hswap : forall (A : Type) (f : A -> Z -> Z -> A) (acc : A),
            draw_line f acc p1 p2 = draw_line f acc p2 p1).
  { intros A f acc.
    destruct p1 as [X1 Y1], p2 as [X2 Y2]. unfold draw_line. cbn [Xi Yi].
    replace (Z.abs (Y1 - Y2)) with (Z.abs (Y2 - Y1)) by lia.
    replace (Z.abs (X1 - X2)) with (Z.abs (X2 - X1)) by lia.
    destruct (Z.abs (Y2 - Y1) <? Z.abs (X2 - X1)) eqn:Eb;
      [apply Z.ltb_lt in Eb|apply Z.ltb_ge in Eb].
    - destruct (X1 <? X2) eqn:E1; [apply Z.ltb_lt in E1|apply Z.ltb_ge in E1];
        destruct (X2 <? X1) eqn:E2;
        [apply Z.ltb_lt in E2|apply Z.ltb_ge in E2| apply Z.ltb_lt in E2|apply Z.ltb_ge in E2];
        try lia; reflexivity.
    - destruct (Y1 <? Y2) eqn:E1; [apply Z.ltb_lt in E1|apply Z.ltb_ge in E1];
        destruct (Y2 <? Y1) eqn:E2;
        [apply Z.ltb_lt in E2|apply Z.ltb_ge in E2| apply Z.ltb_lt in E2|apply Z.ltb_ge in E2];
        try lia; try reflexivity.
      assert (Y1 = Y2) as -> by lia. assert (X1 = X2) as -> by lia.
      reflexivity. }
  split; [apply Hswap|apply (Hswap _ (plot ImageWidth))].
Qed.

(** X5.  [DrawLine] plots max(|dx|, |dy|) pixels, one for each step
    along the axis of the larger difference, counted from the lower of
    the two endpoint coordinates on that axis: the first pixel is the
    endpoint that lies there, and the coordinate of the other endpoint
    is not reached, so that endpoint is not plotted and a line between
    equal endpoints plots nothing. *)
Theorem X5_DrawLine_pixel_count p1 p2 :
  length (DrawLine_points p1 p2) =
    Z.to_nat (Z.max (Z.abs (Xi p2 - Xi p1)) (Z.abs (Yi p2 - Yi p1))) /\
  (forall j x y, DrawLine_points p1 p2 !! j = Some (x, y) ->
     if Z.abs (Yi p2 - Yi p1) <? Z.abs (Xi p2 - Xi p1)
     then x = Z.min (Xi p1) (Xi p2) + Z.of_nat j /\
          x < Z.max (Xi p1) (Xi p2)
     else y = Z.min (Yi p1) (Yi p2) + Z.of_nat j /\
          y < Z.max (Yi p1) (Yi p2)) /\
  (forall x y, DrawLine_points p1 p2 !! 0%nat = Some (x, y) ->
     (x, y) = if Z.abs (Yi p2 - Yi p1) <? Z.abs (Xi p2 - Xi p1)
              then (if Xi p1 <? Xi p2 then (Xi p1, Yi p1) else (Xi p2, Yi p2))
              else (if Yi p1 <? Yi p2 then (Xi p1, Yi p1) else (Xi p2, Yi p2))) /\
  (p1 = p2 -> DrawLine_points p1 p2 = []).
Proof.
  destruct (DrawLine_points_core p1 p2) as [Hlen Hpts].
  split; [exact Hlen|]. split; [|split].
  - intros j x y H.
    assert (Hj : (j < length (DrawLine_points p1 p2))%nat)
      by (eapply lookup_lt_Some; eauto).
    destruct (Hpts j x y H) as (_ & _ & _ & Hm & _).
    destruct (Z.abs (Yi p2 - Yi p1) <? Z.abs (Xi p2 - Xi p1)) eqn:E;
      [apply Z.ltb_lt in E|apply Z.ltb_ge in E]; lia.
  - intros x y H. destruct (Hpts 0%nat x y H) as (_ & _ & _ & _ & H0).
    now apply H0.
  - intros ->. apply length_zero_iff_nil. rewrite Hlen. lia.
Qed.

(** The line from (0,0) to (5,2) has five pixels; a line from a pixel
    to itself has none. *)
Lemma X5_witness :
  length (DrawLine_points (Vec2i 0 0) (Vec2i 5 2)) = 5%nat /\
  DrawLine_points (Vec2i 3 3) (Vec2i 3 3) = [].
Proof.
  split.
  - exact (proj1 (X5_DrawLine_pixel_count (Vec2i 0 0) (Vec2i 5 2))).
  - apply (proj2 (proj2 (proj2
             (X5_DrawLine_pixel_count (Vec2i 3 3) (Vec2i 3 3))))).
    reflexivity.
Defined.

(** X6.  Every pixel that [DrawLine] plots lies in the rectangle spanned
    by the two endpoints and within half a pixel of the straight line
    through them, measured along the axis of the smaller difference:
    2 |dx (y - y1) - dy (x - x1)| <= max(|dx|, |dy|). *)
Theorem X6_DrawLine_follows_segment p1 p2 x y :
  In (x, y) (DrawLine_points p1 p2) ->
  Z.min (Xi p1) (Xi p2) <= x <= Z.max (Xi p1) (Xi p2) /\
  Z.min (Yi p1) (Yi p2) <= y <= Z.max (Yi p1) (Yi p2) /\
  2 * Z.abs ((Xi p2 - Xi p1) * (y - Yi p1) - (Yi p2 - Yi p1) * (x - Xi p1))
    <= Z.max (Z.abs (Xi p2 - Xi p1)) (Z.abs (Yi p2 - Yi p1)).
Proof.
  intros Hin. destruct (DrawLine_points_core p1 p2) as [_ Hpts].
  apply list_elem_of_In, list_elem_of_lookup in Hin as [j Hj].
  destruct (Hpts j x y Hj) as (Hx & Hy & Ha & _). auto.
Qed.

(** The line from (0,0) to (5,2) passes through the pixel (2,1). *)
Lemma X6_witness :
  In (2, 1) (DrawLine_points (Vec2i 0 0) (Vec2i 5 2)) /\
  2 * Z.abs ((5 - 0) * (1 - 0) - (2 - 0) * (2 - 0))
    <= Z.max (Z.abs (5 - 0)) (Z.abs (2 - 0)).
Proof.
  assert (H : In (2, 1) (DrawLine_points (Vec2i 0 0) (Vec2i 5 2)))
    by (vm_compute; tauto).
  split; [exact H|].
  exact (proj2 (proj2 (X6_DrawLine_follows_segment _ _ _ _ H))).
Defined.

(** X7.  Between two pixels of an image of [W] by [H] pixels, held in a
    buffer of [3 W H] bytes, [DrawLine] writes only inside the buffer
    and only to the pixels it plots: each of them gets the outline
    colour, every other pixel of the image keeps its three bytes, and
    the buffer keeps its length. *)
Theorem X7_DrawLine_buffer W H (_data : list Z) p1 p2 :
  in_image W H (Xi p1, Yi p1) -> in_image W H (Xi p2, Yi p2) ->
  3 * W * H <= 2 ^ 32 -> Z.of_nat (length _data) = 3 * W * H ->
  Forall (in_image W H) (DrawLine_points p1 p2) /\
  length (DrawLine W _data p1 p2) = length _data /\
  (forall x y, In (x, y) (DrawLine_points p1 p2) ->
     pixel_bytes W (DrawLine W _data p1 p2) x y = outline) /\
  (forall x y, 0 <= x < W -> 0 <= y < H ->
     ~ In (x, y) (DrawLine_points p1 p2) ->
     pixel_bytes W (DrawLine W _data p1 p2) x y = pixel_bytes W _data x y).
Proof.
  intros H1 H2 HW Hlen.
  split; [now apply DrawLine_points_in_image|].
  now apply DrawLine_image.
Qed.

(** A diagonal line in the 200 by 200 buffer filled with the value 7. *)
Lemma X7_witness :
  pixel_bytes 200 (DrawLine 200 grey_buffer (Vec2i 10 10) (Vec2i 14 12))
              10 10 = outline /\
  pixel_bytes 200 (DrawLine 200 grey_buffer (Vec2i 10 10) (Vec2i 14 12))
              14 12 = [7; 7; 7].
Proof.
  assert (H1 : in_image 200 200 (10, 10)) by (unfold in_image; cbn; lia).
  assert (H2 : in_image 200 200 (14, 12)) by (unfold in_image; cbn; lia).
  assert (HW : 3 * 200 * 200 <= 2 ^ 32) by lia.
  assert (Hlen : Z.of_nat (length grey_buffer) = 3 * 200 * 200)
    by (unfold grey_buffer; rewrite length_replicate; lia).
  destruct (X7_DrawLine_buffer 200 200 grey_buffer (Vec2i 10 10) (Vec2i 14 12)
              H1 H2 HW Hlen) as (_ & _ & P & P').
  split.
  - apply P. vm_compute. tauto.
  - rewrite P'; [reflexivity|lia|lia|].
    intros Hin. vm_compute in Hin.
    repeat (destruct Hin as [Hin|Hin]; [discriminate Hin|]). exact Hin.
Defined.

End DrawLineProperties.

(** ** OutlineDrawer: pixels of the clipped vertices *)

Section ScreenConversion.
Import Clipper Raster Drawing.
Import PrimFloat.

(** X8.  The conversion of a clipped vertex to a pixel in the 3D branch
    of [DrawBoundingBox], on [double] values, for an image of at most
    2^31 by 2^31 pixels.  The conversion is the conversion to
    [uint32_t] of [(x + 1.0) / 2 * width] and of
    [(1.0 - y) / 2 * height], each capped at the last column / row: the
    [std::max] with 0 is no restriction on an unsigned value, and
    whenever the two conversions to [uint32_t] are defined the result is
    a pixel of the image.  A NaN coordinate has no defined conversion.
    On 200 by 200 pixels the corners (-1,1) and (1,-1) of the clip
    rectangle become the pixels (0,0) and (199,199), and the vertex
    (-2^-100, 0) becomes the pixel (100,100): [x + 1.0] rounds to 1. *)
Theorem X8_to_screen_in_image width height vertex :
  0 < width <= 2 ^ 31 -> 0 < height <= 2 ^ 31 ->
  to_screen_double width height vertex =
    (x ← Double.to_uint32
           ((X vertex + 1) / 2 * Double.of_uint32 width)%float;
     y ← Double.to_uint32
           ((1 - Y vertex) / 2 * Double.of_uint32 height)%float;
     Some (Vec2i (Z.min x (width - 1)) (Z.min y (height - 1)))) /\
  (forall p, to_screen_double width height vertex = Some p ->
     in_image width height (Xi p, Yi p)) /\
  to_screen_double width height (Vec2 PrimFloat.nan (Y vertex)) = None /\
  to_screen_double 200 200 Binary64.upper_left = Some (Vec2i 0 0) /\
  to_screen_double 200 200 (Vec2 1 (-1))%float = Some (Vec2i 199 199) /\
  to_screen_double 200 200 (Vec2 (-0x1p-100) 0)%float = Some (Vec2i 100 100).
Proof.
  intros HW HH.
  split; [now apply to_screen_double_eq|].
  split; [intros p; now apply to_screen_double_image|].
  split; [|repeat split; vm_compute; reflexivity].
  unfold to_screen_double. cbn [X Y].
  assert (E : Double.to_uint32
                ((PrimFloat.nan + 1) / 2 * Double.of_uint32 width)%float = None).
  { unfold Double.to_uint32, Double.truncate.
    replace (FloatOps.Prim2SF
               ((PrimFloat.nan + 1) / 2 * Double.of_uint32 width)%float)
      with SpecFloat.S754_nan; [reflexivity|].
    rewrite FloatAxioms.mul_spec, FloatAxioms.div_spec, FloatAxioms.add_spec.
    now destruct (FloatOps.Prim2SF (Double.of_uint32 width)). }
  rewrite E. reflexivity.
Qed.

(** In a 200 by 200 image the vertex (1/2, 1/2) becomes pixel
    (150,50). *)
Lemma X8_witness :
  to_screen_double 200 200 (Vec2 0.5 0.5)%float = Some (Vec2i 150 50) /\
  in_image 200 200 (150, 50).
Proof.
  assert (E : to_screen_double 200 200 (Vec2 0.5 0.5)%float
              = Some (Vec2i 150 50)) by (vm_compute; reflexivity).
  split; [exact E|].
  exact (proj1 (proj2 (X8_to_screen_in_image 200 200 (Vec2 0.5 0.5)%float
                         ltac:(lia) ltac:(lia))) _ E).
Defined.

End ScreenConversion.

(** ** OutlineDrawer: the loops of the 2D branch *)

Section DrawBoundingBoxProofs.
Import Clipper Raster Drawing.

(** An integer lies below the ceiling of a rational exactly when it
    lies below the rational. *)
Lemma lt_Qceiling (i : Z) (q : Q) : i < Qceiling q <-> (inject_Z i < q)%Q.
Proof.
  split; intros H.
  - apply Qle_lt_trans with (inject_Z (Qceiling q - 1)).
    + rewrite <- Zle_Qle. lia.
    + apply Qceiling_lt.
  - rewrite Zlt_Qlt. eapply Qlt_le_trans; [exact H|apply Qle_ceiling].
Qed.

(** The counting loop makes one pass for each integer from its first
    value up to, and without, the bound. *)
Lemma for_uint32_spec {A} (body : A -> Z -> A) (bound : Q) :
  (bound <= 4294967295)%Q ->
  forall fuel acc v,
    0 <= v < 2 ^ 32 -> (Z.to_nat (Qceiling bound - v) < fuel)%nat ->
    for_uint32 fuel body acc v bound =
    Some (foldl body acc (seqZ v (Qceiling bound - v))).
Proof.
  intros Hb.
  assert (Hc : Qceiling bound <= 4294967295).
  { change 4294967295 with (Qceiling (inject_Z 4294967295)).
    apply Qceiling_resp_le. exact Hb. }
  induction fuel as [|fuel IH]; intros acc v Hv Hf; [lia|].
  cbn [for_uint32]. destruct (Qlt_le_dec (inject_Z v) bound) as [Hlt|Hge].
  - apply lt_Qceiling in Hlt.
    rewrite wrap32_small by lia. rewrite IH by lia.
    rewrite (seqZ_cons v) by lia. cbn [foldl].
    do 3 f_equal; lia.
  - assert (Hle : Qceiling bound <= v).
    { destruct (Z_lt_le_dec v (Qceiling bound)) as [H|H]; [|exact H].
      apply lt_Qceiling in H. exfalso. eapply Qlt_irrefl.
      eapply Qlt_le_trans; eassumption. }
    now rewrite seqZ_nil by lia.
Qed.

(** Nested loops over two lists plot the pixels of their product. *)
Lemma foldl_columns {A} (f : A -> Z -> Z -> A) (i : Z) (cols : list Z) :
  forall acc,
    foldl (fun acc j => f acc j i) acc cols =
    foldl (fun acc p => f acc (fst p) (snd p)) acc (j ← cols; [(j, i)]).
Proof.
  induction cols as [|j cols IH]; intros acc; [reflexivity|].
  cbn. apply IH.
Qed.

Lemma foldl_columns_rows {A} (f : A -> Z -> Z -> A) (rows cols : list Z) :
  forall acc,
    foldl (fun acc i => foldl (fun acc j => f acc j i) acc cols) acc rows =
    foldl (fun acc p => f acc (fst p) (snd p)) acc
          (i ← rows; j ← cols; [(j, i)]).
Proof.
  induction rows as [|i rows IH]; intros acc; [reflexivity|].
  cbn [foldl]. rewrite bind_cons, foldl_app, IH.
  now rewrite foldl_columns.
Qed.

(** The conversion to [uint32_t] of a rational between -1 and [n]. *)
Lemma to_uint32_between (q : Q) (n : Z) :
  (-1 < q)%Q -> (q <= inject_Z n)%Q -> 0 <= n < 2 ^ 32 ->
  0 <= to_uint32 q <= n /\ (inject_Z (to_uint32 q) <= Qabs q)%Q /\
  (0 <= q -> to_uint32 q = Qfloor q)%Q.
Proof.
  intros Hlo Hhi Hn.
  destruct (Qlt_le_dec q 0) as [Hneg|Hpos].
  - assert (E : Qtrunc q = 0).
    { destruct q as [a d]. unfold Qtrunc, Qlt in *. cbn in *.
      apply Z.quot_small_iff; lia. }
    unfold to_uint32. rewrite E.
    replace (wrap32 0) with 0 by reflexivity. split; [lia|].
    split; [apply Qabs_nonneg|]. intros H. lra.
  - assert (Hf : 0 <= Qfloor q <= n).
    { split.
      - change 0 with (Qfloor 0). now apply Qfloor_resp_le.
      - rewrite <- (Qfloor_inject n). now apply Qfloor_resp_le. }
    assert (E : to_uint32 q = Qfloor q).
    { unfold to_uint32. rewrite Qtrunc_floor by assumption.
      apply wrap32_small. lia. }
    rewrite E. split; [lia|]. split; [|reflexivity].
    rewrite Qabs_pos by assumption. apply Qfloor_le.
Qed.

(** The list of plotted pixels holds the pixels of the outline. *)
Lemma In_outline_pixels _box x y :
  In (x, y) (outline_pixels _box) <-> on_outline _box x y.
Proof.
  unfold outline_pixels, on_outline. rewrite <- list_elem_of_In.
  rewrite elem_of_app, !list_elem_of_bind.
  split.
  - intros [(i & Hj & Hi)|(i & Hj & Hi)].
    + apply list_elem_of_bind in Hj as (j & Hp & Hj).
      apply list_elem_of_singleton in Hp. injection Hp as -> ->.
      apply elem_of_seqZ in Hi.
      left. split.
      * apply elem_of_cons in Hj as [->|Hj]; [now left|].
        apply list_elem_of_singleton in Hj. now right.
      * split; [lia|]. apply lt_Qceiling. lia.
    + apply list_elem_of_bind in Hj as (j & Hp & Hj).
      apply list_elem_of_singleton in Hp. injection Hp as -> ->.
      apply elem_of_seqZ in Hj.
      right. split.
      * apply elem_of_cons in Hi as [->|Hi]; [now left|].
        apply list_elem_of_singleton in Hi. now right.
      * split; [lia|]. apply lt_Qceiling. lia.
  - intros [(Hx & Hy1 & Hy2)|(Hy & Hx1 & Hx2)].
    + left. exists y. split.
      * apply list_elem_of_bind. exists x. split; [now left|].
        destruct Hx as [-> | ->]; [now left|]. right. now left.
      * apply elem_of_seqZ. apply lt_Qceiling in Hy2. lia.
    + right. exists y. split.
      * apply list_elem_of_bind. exists x. split; [now left|].
        apply elem_of_seqZ. apply lt_Qceiling in Hx2. lia.
      * destruct Hy as [-> | ->]; [now left|]. right. now left.
Qed.

(** The first loop of the 2D branch: the columns [xs] over the rows
    from [v]. *)
Lemma for_rows fuel W (_data : list Z) (xs : list Z) v bound :
  (bound <= 4294967295)%Q -> 0 <= v < 2 ^ 32 ->
  (Z.to_nat (Qceiling bound - v) < fuel)%nat ->
  for_uint32 fuel
    (fun _data i => foldl (fun _data j => plot W _data j i) _data xs)
    _data v bound =
  Some (foldl (fun d p => plot W d (fst p) (snd p)) _data
              (i ← seqZ v (Qceiling bound - v); j ← xs; [(j, i)])).
Proof.
  intros Hb Hv Hf. rewrite (for_uint32_spec _ _ Hb) by assumption.
  f_equal. apply (foldl_columns_rows (plot W)).
Qed.

(** The second loop: the rows [ys] over the columns from [v]. *)
Lemma for_columns fuel W (ys : list Z) v bound :
  (bound <= 4294967295)%Q -> 0 <= v < 2 ^ 32 ->
  (Z.to_nat (Qceiling bound - v) < fuel)%nat ->
  forall _data : list Z,
  foldl (fun _data i =>
           _data ← _data;
           for_uint32 fuel (fun _data j => plot W _data j i) _data v bound)
        (Some _data) ys =
  Some (foldl (fun d p => plot W d (fst p) (snd p)) _data
              (i ← ys; j ← seqZ v (Qceiling bound - v); [(j, i)])).
Proof.
  intros Hb Hv Hf.
  induction ys as [|i ys IH]; intros _data; [reflexivity|].
  cbn [foldl mbind option_bind].
  rewrite (for_uint32_spec _ _ Hb) by assumption.
  rewrite IH, bind_cons, foldl_app. f_equal. f_equal.
  apply (foldl_columns (plot W)).
Qed.

(** With enough passes allowed, the 2D branch returns after plotting
    the pixels of the outline. *)
Lemma DrawBoundingBox2D_trace fuel W H (_data : list Z) _box :
  0 < W < 2 ^ 32 -> 0 < H < 2 ^ 32 -> box_in_image W H _box ->
  (Z.to_nat (Z.max W H) <= fuel)%nat ->
  DrawBoundingBox2D fuel W _data _box =
    Some (foldl (fun d p => plot W d (fst p) (snd p)) _data
                (outline_pixels _box)) /\
  Forall (in_image W H) (outline_pixels _box).
Proof.
  intros HW HH (Hsx & Hsy & Hx0 & Hy0 & Hx1 & Hy1) Hfuel.
  assert (Hxx : (Merger.cornerMinX _box <= Merger.cornerMaxX _box)%Q).
  { unfold Merger.cornerMinX, Merger.cornerMaxX. rewrite !Qhalf. lra. }
  assert (Hyy : (Merger.cornerMinY _box <= Merger.cornerMaxY _box)%Q).
  { unfold Merger.cornerMinY, Merger.cornerMaxY. rewrite !Qhalf. lra. }
  destruct (to_uint32_between (Merger.cornerMinX _box) (W - 1))
    as (Bx0 & _); [lra|lra|lia|].
  destruct (to_uint32_between (Merger.cornerMaxX _box) (W - 1))
    as (Bx1 & _); [lra|lra|lia|].
  destruct (to_uint32_between (Merger.cornerMinY _box) (H - 1))
    as (By0 & _); [lra|lra|lia|].
  destruct (to_uint32_between (Merger.cornerMaxY _box) (H - 1))
    as (By1 & _); [lra|lra|lia|].
  change (to_uint32 (Merger.cornerMinX _box)) with (Merger.boxMinX _box) in Bx0.
  change (to_uint32 (Merger.cornerMaxX _box)) with (Merger.boxMaxX _box) in Bx1.
  change (to_uint32 (Merger.cornerMinY _box)) with (Merger.boxMinY _box) in By0.
  change (to_uint32 (Merger.cornerMaxY _box)) with (Merger.boxMaxY _box) in By1.
  assert (Cx : Qceiling (Merger.cornerMaxX _box) <= W - 1).
  { rewrite <- (Qceiling_Z (W - 1)). now apply Qceiling_resp_le. }
  assert (Cy : Qceiling (Merger.cornerMaxY _box) <= H - 1).
  { rewrite <- (Qceiling_Z (H - 1)). now apply Qceiling_resp_le. }
  assert (Lx : (Merger.cornerMaxX _box <= 4294967295)%Q).
  { eapply Qle_trans; [exact Hx1|].
    change 4294967295%Q with (inject_Z 4294967295).
    rewrite <- Zle_Qle. lia. }
  assert (Ly : (Merger.cornerMaxY _box <= 4294967295)%Q).
  { eapply Qle_trans; [exact Hy1|].
    change 4294967295%Q with (inject_Z 4294967295).
    rewrite <- Zle_Qle. lia. }
  split.
  - unfold DrawBoundingBox2D. cbn [X Y].
    change (to_uint32 (Merger.cornerMinX _box)) with (Merger.boxMinX _box).
    change (to_uint32 (Merger.cornerMaxX _box)) with (Merger.boxMaxX _box).
    change (to_uint32 (Merger.cornerMinY _box)) with (Merger.boxMinY _box).
    change (to_uint32 (Merger.cornerMaxY _box)) with (Merger.boxMaxY _box).
    rewrite (for_rows _ _ _ _ _ _ Ly) by lia. cbn [mbind option_bind].
    rewrite (for_columns _ _ _ _ _ Lx) by lia.
    unfold outline_pixels. cbv zeta. now rewrite foldl_app.
  - apply Forall_forall. intros [x y] Hin.
    apply list_elem_of_In, In_outline_pixels in Hin.
    unfold in_image. cbn [fst snd].
    destruct Hin as [(Hx & Hy1' & Hy2)|(Hy & Hx1' & Hx2)].
    + apply lt_Qceiling in Hy2. destruct Hx as [-> | ->]; lia.
    + apply lt_Qceiling in Hx2. destruct Hy as [-> | ->]; lia.
Qed.

End DrawBoundingBoxProofs.

(** ** OutlineDrawer: [DrawBoundingBox] *)

Section DrawBoundingBoxClaims.
Import Clipper Raster Drawing.

(** The 2D branch on a box in the image. *)
Lemma DrawBoundingBox2D_image fuel W H (_data : list Z) _box :
  box_in_image W H _box ->
  0 < W -> 0 < H -> 3 * W * H <= 2 ^ 32 ->
  Z.of_nat (length _data) = 3 * W * H ->
  (Z.to_nat (Z.max W H) <= fuel)%nat ->
  exists drawn,
    DrawBoundingBox2D fuel W _data _box = Some drawn /\
    length drawn = length _data /\
    (forall x y, on_outline _box x y ->
       in_image W H (x, y) /\ pixel_bytes W drawn x y = outline) /\
    (forall x y, 0 <= x < W -> 0 <= y < H -> ~ on_outline _box x y ->
       pixel_bytes W drawn x y = pixel_bytes W _data x y).
Proof.
  intros Hbox HW HH Hsize Hlen Hfuel.
  destruct (DrawBoundingBox2D_trace fuel W H _data _box) as [E Hall];
    [nia|nia|assumption|assumption|].
  destruct (plot_pixels_image W H (outline_pixels _box) _data Hsize Hlen Hall)
    as (P1 & P2 & P3).
  eexists. split; [exact E|]. split; [exact P1|]. split.
  - intros x y Hon. apply In_outline_pixels in Hon. split.
    + rewrite Forall_forall in Hall. apply Hall. now apply list_elem_of_In.
    + now apply P2.
  - intros x y Hx Hy Hnot. apply P3; [assumption..|].
    intros Hin. apply Hnot. now apply In_outline_pixels.
Qed.



(** X10.  The 2D branch of [DrawBoundingBox] on a box that lies in the
    image and whose centre is on half pixels and whose size is a whole
    number of pixels, as the boxes of this camera are (on these the
    corners [center -/+ size / 2] are computed without rounding): the
    call returns, keeps the length of the buffer, gives the outline
    colour to the pixels of the two columns at the converted left and
    right corner coordinates, over the rows from the converted top
    coordinate up to, and without, the bottom coordinate, and to the
    pixels of the two rows likewise; all these are pixels of the image,
    and every other pixel of the image keeps its bytes. *)
Theorem X10_DrawBoundingBox_2D_outline fuel Vertices project W H
    (_data : list Z) _box :
  box_type _box <> BBT_BOX3D -> Merger.half_pixel_box _box ->
  box_in_image W H _box ->
  0 < W -> 0 < H -> 3 * W * H <= 2 ^ 32 ->
  Z.of_nat (length _data) = 3 * W * H ->
  (Z.to_nat (Z.max W H) <= fuel)%nat ->
  exists drawn,
    DrawBoundingBox fuel Vertices project W H _data _box = Some drawn /\
    length drawn = length _data /\
    (forall x y, on_outline _box x y ->
       in_image W H (x, y) /\ pixel_bytes W drawn x y = outline) /\
    (forall x y, 0 <= x < W -> 0 <= y < H -> ~ on_outline _box x y ->
       pixel_bytes W drawn x y = pixel_bytes W _data x y).
Proof.
  intros Htype _ Hbox HW HH Hsize Hlen Hfuel.
  assert (E : DrawBoundingBox fuel Vertices project W H _data _box =
              DrawBoundingBox2D fuel W _data _box).
  { unfold DrawBoundingBox. now destruct (box_type _box). }
  rewrite E. now apply (DrawBoundingBox2D_image fuel W H).
Qed.

(** The box of the test in the 200 by 200 buffer filled with the
    value 7: its upper left corner pixel (100,100) is painted. *)
Lemma X10_witness :
  exists drawn,
    DrawBoundingBox 200 (fun _ => []) perspective 200 200 grey_buffer test_box
      = Some drawn /\
    pixel_bytes 200 drawn 100 100 = outline.
Proof.
  destruct (X10_DrawBoundingBox_2D_outline 200 (fun _ => []) perspective
              200 200 grey_buffer test_box)
    as (drawn & E & _ & P & _).
  - discriminate.
  - unfold Merger.half_pixel_box, Merger.half_pixel, Merger.whole_pixel.
    cbn. repeat split;
      [exists 250; reflexivity|exists 250; reflexivity|
       exists 50; reflexivity|exists 50; reflexivity|
       discriminate|discriminate].
  - repeat split; vm_compute; congruence.
  - lia.
  - lia.
  - lia.
  - unfold grey_buffer. rewrite length_replicate. lia.
  - lia.
  - exists drawn. split; [exact E|].
    apply P. left. split; [left; reflexivity|].
    split; vm_compute; congruence.
Defined.

(** X11.  For a 2D box whose corners are the whole pixels (x0,y0) and
    (x1,y1) of the image, with x0 < x1 and y0 < y1, [DrawBoundingBox]
    paints the columns x0 and x1 over the rows y0 to y1 - 1 and the rows
    y0 and y1 over the columns x0 to x1 - 1, and nothing else: the
    three corners (x0,y0), (x1,y0), (x0,y1) are painted and the corner
    pixel (x1,y1) keeps its bytes. *)
Theorem X11_DrawBoundingBox_2D_whole_pixels fuel Vertices project W H
    (_data : list Z) _box x0 y0 x1 y1 :
  box_type _box <> BBT_BOX3D ->
  (Merger.cornerMinX _box == inject_Z x0)%Q ->
  (Merger.cornerMinY _box == inject_Z y0)%Q ->
  (Merger.cornerMaxX _box == inject_Z x1)%Q ->
  (Merger.cornerMaxY _box == inject_Z y1)%Q ->
  0 <= x0 < x1 -> x1 < W -> 0 <= y0 < y1 -> y1 < H ->
  3 * W * H <= 2 ^ 32 -> Z.of_nat (length _data) = 3 * W * H ->
  (Z.to_nat (Z.max W H) <= fuel)%nat ->
  exists drawn,
    DrawBoundingBox fuel Vertices project W H _data _box = Some drawn /\
    (forall x y, 0 <= x < W -> 0 <= y < H ->
       ((x = x0 \/ x = x1) /\ y0 <= y < y1) \/
       ((y = y0 \/ y = y1) /\ x0 <= x < x1) ->
       pixel_bytes W drawn x y = outline) /\
    (forall x y, 0 <= x < W -> 0 <= y < H ->
       ~ (((x = x0 \/ x = x1) /\ y0 <= y < y1) \/
          ((y = y0 \/ y = y1) /\ x0 <= x < x1)) ->
       pixel_bytes W drawn x y = pixel_bytes W _data x y) /\
    pixel_bytes W drawn x1 y1 = pixel_bytes W _data x1 y1.
Proof.
  intros Htype Hx0 Hy0 Hx1 Hy1 Bx BW By BH Hsize Hlen Hfuel.
  assert (E : DrawBoundingBox fuel Vertices project W H _data _box =
              DrawBoundingBox2D fuel W _data _box).
  { unfold DrawBoundingBox. now destruct (box_type _box). }
  rewrite E. clear E.
  assert (Ix0 : (0 <= inject_Z x0)%Q) by (rewrite <- (Zle_Qle 0); lia).
  assert (Iy0 : (0 <= inject_Z y0)%Q) by (rewrite <- (Zle_Qle 0); lia).
  assert (Ix : (inject_Z x0 < inject_Z x1)%Q) by (rewrite <- Zlt_Qlt; lia).
  assert (Iy : (inject_Z y0 < inject_Z y1)%Q) by (rewrite <- Zlt_Qlt; lia).
  assert (Ix1 : (inject_Z x1 <= inject_Z (W - 1))%Q)
    by (rewrite <- Zle_Qle; lia).
  assert (Iy1 : (inject_Z y1 <= inject_Z (H - 1))%Q)
    by (rewrite <- Zle_Qle; lia).
  assert (Hbox : box_in_image W H _box).
  { unfold box_in_image. rewrite Hx0, Hy0, Hx1, Hy1.
    unfold Merger.cornerMinX, Merger.cornerMaxX, Merger.cornerMinY,
      Merger.cornerMaxY in Hx0, Hy0, Hx1, Hy1.
    rewrite Qhalf in Hx0, Hy0, Hx1, Hy1.
    repeat split; lra. }
  assert (Ex0 : Merger.boxMinX _box = x0)
    by (apply to_uint32_pixel; [nia|exact Hx0]).
  assert (Ey0 : Merger.boxMinY _box = y0)
    by (apply to_uint32_pixel; [nia|exact Hy0]).
  assert (Ex1 : Merger.boxMaxX _box = x1)
    by (apply to_uint32_pixel; [nia|exact Hx1]).
  assert (Ey1 : Merger.boxMaxY _box = y1)
    by (apply to_uint32_pixel; [nia|exact Hy1]).
  assert (Hon : forall x y, on_outline _box x y <->
            ((x = x0 \/ x = x1) /\ y0 <= y < y1) \/
            ((y = y0 \/ y = y1) /\ x0 <= x < x1)).
  { intros x y. unfold on_outline. rewrite Ex0, Ey0, Ex1, Ey1, Hx1, Hy1.
    rewrite <- !Zlt_Qlt. tauto. }
  destruct (DrawBoundingBox2D_image fuel W H _data _box Hbox)
    as (drawn & E & _ & P & P'); [lia|lia|assumption..|].
  exists drawn. split; [exact E|]. split; [|split].
  - intros x y _ _ H1. apply P. now apply Hon.
  - intros x y Hx Hy H1. apply P'; [assumption..|].
    intros H2. apply H1. now apply Hon.
  - apply P'; [lia|lia|]. intros H2. apply Hon in H2. lia.
Qed.

(** The box of the test, centre (125,125) and size (50,50), in the 200
    by 200 buffer filled with the value 7: the two pixels that the test
    reads, (100,100) and (149,150), are painted, and the corner pixel
    (150,150) is not. *)
Lemma X11_witness :
  exists drawn,
    DrawBoundingBox 200 (fun _ => []) perspective 200 200 grey_buffer test_box
      = Some drawn /\
    pixel_bytes 200 drawn 100 100 = outline /\
    pixel_bytes 200 drawn 149 150 = outline /\
    pixel_bytes 200 drawn 150 150 = [7; 7; 7].
Proof.
  destruct (X11_DrawBoundingBox_2D_whole_pixels 200 (fun _ => []) perspective
              200 200 grey_buffer test_box 100 100 150 150)
    as (drawn & E & P & _ & C);
    [discriminate|reflexivity|reflexivity|reflexivity|reflexivity|
     lia|lia|lia|lia|lia| |lia|].
  - unfold grey_buffer. rewrite length_replicate. lia.
  - exists drawn. split; [exact E|]. split; [|split].
    + apply P; lia.
    + apply P; lia.
    + rewrite C. reflexivity.
Defined.

End DrawBoundingBoxClaims.

(** ** VisibleBoundingBoxes: the boxes *)

Section VisibleBoxesProofs.
Import Scanner VisibleBoxes.

(** *** Running minimum and maximum *)

Lemma running_min {A} (f : A -> Z) (init : Z) (l : list A) :
  l <> [] -> (forall a, In a l -> f a <= init) ->
  Merger.is_minZ f l (foldl (fun m a => Z.min m (f a)) init l).
Proof.
  induction l as [|a l IH] using rev_ind; [congruence|]. intros _ Hle.
  rewrite foldl_snoc.
  destruct l as [|a' l'].
  - cbn. rewrite Z.min_r by (apply Hle; now left). split.
    + intros a0 [<-|[]]. lia.
    + exists a. split; [now left|reflexivity].
  - destruct IH as [Hlow (w & Hw & Ew)]; [discriminate| |].
    { intros a0 Ha. apply Hle. apply in_or_app. now left. }
    set (m := foldl _ init (a' :: l')) in *. split.
    + intros a0 Ha. apply in_app_or in Ha as [Ha|[<-|[]]].
      * specialize (Hlow a0 Ha). lia.
      * lia.
    + destruct (Z.min_spec m (f a)) as [[_ E]|[_ E]]; rewrite E.
      * exists w. split; [apply in_or_app; now left|exact Ew].
      * exists a. split; [apply in_or_app; right; now left|reflexivity].
Qed.

Lemma running_max {A} (f : A -> Z) (init : Z) (l : list A) :
  l <> [] -> (forall a, In a l -> init <= f a) ->
  Merger.is_maxZ f l (foldl (fun m a => Z.max m (f a)) init l).
Proof.
  induction l as [|a l IH] using rev_ind; [congruence|]. intros _ Hle.
  rewrite foldl_snoc.
  destruct l as [|a' l'].
  - cbn. rewrite Z.max_r by (apply Hle; now left). split.
    + intros a0 [<-|[]]. lia.
    + exists a. split; [now left|reflexivity].
  - destruct IH as [Hup (w & Hw & Ew)]; [discriminate| |].
    { intros a0 Ha. apply Hle. apply in_or_app. now left. }
    set (m := foldl _ init (a' :: l')) in *. split.
    + intros a0 Ha. apply in_app_or in Ha as [Ha|[<-|[]]].
      * specialize (Hup a0 Ha). lia.
      * lia.
    + destruct (Z.max_spec m (f a)) as [[_ E]|[_ E]]; rewrite E.
      * exists a. split; [apply in_or_app; right; now left|reflexivity].
      * exists w. split; [apply in_or_app; now left|exact Ew].
Qed.

(** The four fields of a boundary are four running extrema. *)
Lemma boundary_fields (pixels : list (Z * Z)) : forall boundary,
  let final := foldl (fun boundary p =>
                        update_boundary boundary (fst p) (snd p))
                     boundary pixels in
  minX final = foldl (fun m p => Z.min m (fst p)) (minX boundary) pixels /\
  maxX final = foldl (fun m p => Z.max m (fst p)) (maxX boundary) pixels /\
  minY final = foldl (fun m p => Z.min m (snd p)) (minY boundary) pixels /\
  maxY final = foldl (fun m p => Z.max m (snd p)) (maxY boundary) pixels.
Proof.
  induction pixels as [|p pixels IH]; intros boundary; cbn zeta.
  - cbn. auto.
  - cbn [foldl]. apply (IH (update_boundary boundary (fst p) (snd p))).
Qed.

(** The boundary of a non-empty set of pixels of the image holds the
    least and the greatest column and row among them. *)
Lemma pixels_boundary_spec width height (pixels : list (Z * Z)) :
  pixels <> [] ->
  (forall p, In p pixels -> 0 <= fst p < width /\ 0 <= snd p < height) ->
  Merger.is_minZ fst pixels (minX (pixels_boundary width height pixels)) /\
  Merger.is_maxZ fst pixels (maxX (pixels_boundary width height pixels)) /\
  Merger.is_minZ snd pixels (minY (pixels_boundary width height pixels)) /\
  Merger.is_maxZ snd pixels (maxY (pixels_boundary width height pixels)).
Proof.
  intros Hne Hin. unfold pixels_boundary.
  destruct (boundary_fields pixels (MkBoundary width height 0 0))
    as (E1 & E2 & E3 & E4). cbn zeta in *. cbn [minX maxX minY maxY] in *.
  rewrite E1, E2, E3, E4.
  repeat split.
  all: first [apply running_min|apply running_max]; try assumption.
  all: intros p Hp; specialize (Hin p Hp); lia.
Qed.

(** *** The scan *)

(** The pixels of row-major order are the pixels of the image. *)
Lemma row_major_image width height p :
  In p (row_major width height) ->
  0 <= fst p < width /\ 0 <= snd p < height.
Proof.
  unfold row_major. intros H. apply list_elem_of_In in H.
  apply list_elem_of_bind in H as (y & H & Hy).
  apply list_elem_of_bind in H as (x & H & Hx).
  apply list_elem_of_singleton in H. subst p. cbn.
  apply elem_of_seqZ in Hx, Hy. lia.
Qed.

(** After the scan of a list of pixels from empty maps, the entries of
    an identifier are determined by its non-background pixels in the
    list: none when there is no such pixel; otherwise a new box with the
    label of the first one and the boundary of all of them. *)
Lemma visible_fold_boundary buffer width height backgroundLabel
    (pixels : list (Z * Z)) :
  exists st,
    foldl (fun st p => visible_pixel buffer width height backgroundLabel st
                         (fst p) (snd p))
          (Some (MkVisible ∅ ∅)) pixels = Some st /\
    forall id,
      let mine :=
        filter (fun p => pixel_label buffer width (fst p) (snd p)
                           <> backgroundLabel
                         /\ pixel_ogreId buffer width (fst p) (snd p) = id)
               pixels in
      boundingboxes st !! id =
        (fun p => new_visible_box (pixel_label buffer width (fst p) (snd p)))
          <$> head mine /\
      boxesBoundary st !! id =
        match mine with
        | [] => None
        | _ :: _ => Some (pixels_boundary width height mine)
        end.
Proof.
  induction pixels as [|[qx qy] pixels IH] using rev_ind.
  - exists (MkVisible ∅ ∅). split; [reflexivity|]. intros id. cbn.
    split; apply lookup_empty.
  - destruct IH as (st & Hf & Hst). rewrite foldl_snoc, Hf.
    cbn [fst snd]. unfold visible_pixel. cbn [mbind option_bind].
    destruct (decide (pixel_label buffer width qx qy <> backgroundLabel))
      as [Hl|Hl].
    + set (oid := pixel_ogreId buffer width qx qy).
      destruct (Hst oid) as [Hb Hd]. cbn zeta in Hb, Hd.
      destruct (boundingboxes st !! oid) as [box|] eqn:Ebox.
      * (* the object is known *)
        destruct (filter _ pixels) as [|p0 rest] eqn:Emine in Hb, Hd;
          [cbn in Hb; discriminate Hb|].
        rewrite Hd. cbn [mbind option_bind].
        eexists. split; [reflexivity|]. intros id. cbn zeta.
        cbn [boundingboxes boxesBoundary].
        rewrite filter_app.
        destruct (decide (id = oid)) as [->|Hne].
        -- rewrite Emine. rewrite filter_cons_True by (cbn; auto).
           rewrite filter_nil. cbn [app head fmap option_fmap option_map].
           rewrite lookup_insert_eq.
           split; [rewrite Ebox; exact Hb|].
           f_equal. unfold pixels_boundary.
           change (p0 :: rest ++ [(qx, qy)])
             with ((p0 :: rest) ++ [(qx, qy)]).
           now rewrite foldl_snoc.
        -- rewrite filter_cons_False
             by (cbn; intros [_ E]; apply Hne; symmetry; exact E).
           rewrite filter_nil, app_nil_r.
           rewrite lookup_insert_ne by congruence. apply Hst.
      * (* its first pixel *)
        destruct (filter _ pixels) as [|p0 rest] eqn:Emine in Hb, Hd;
          [|cbn in Hb; discriminate Hb].
        eexists. split; [reflexivity|]. intros id. cbn zeta.
        cbn [boundingboxes boxesBoundary].
        rewrite filter_app.
        destruct (decide (id = oid)) as [->|Hne].
        -- rewrite Emine. rewrite filter_cons_True by (cbn; auto).
           rewrite filter_nil. cbn [app head fmap option_fmap option_map].
           rewrite !lookup_insert_eq. split; reflexivity.
        -- rewrite filter_cons_False
             by (cbn; intros [_ E]; apply Hne; symmetry; exact E).
           rewrite filter_nil, app_nil_r.
           rewrite !lookup_insert_ne by congruence. apply Hst.
    + exists st. split; [reflexivity|]. intros id. cbn zeta.
      rewrite filter_app, filter_cons_False by (cbn; tauto).
      rewrite filter_nil, app_nil_r. apply Hst.
Qed.

(** The box that the second loop builds from a boundary within the
    image. *)
Lemma finish_box_extent box x0 y0 x1 y1 :
  0 <= x0 <= x1 -> x1 < 2 ^ 32 -> 0 <= y0 <= y1 -> y1 < 2 ^ 32 ->
  finish_box box (MkBoundary x0 y0 x1 y1) =
  MkBox (box_type box)
        (Vec3d (inject_Z (x0 + (x1 - x0) / 2)) (inject_Z (y0 + (y1 - y0) / 2)) 0)
        (Vec3d (inject_Z (x1 - x0)) (inject_Z (y1 - y0)) 0)
        (box_orientation box) (box_label box).
Proof.
  intros Hx Hx1 Hy Hy1. unfold finish_box. cbn [minX minY maxX maxY].
  assert (Dx : 0 <= (x1 - x0) / 2 <= x1 - x0).
  { split; [apply Z.div_pos; lia|apply Z.div_le_upper_bound; lia]. }
  assert (Dy : 0 <= (y1 - y0) / 2 <= y1 - y0).
  { split; [apply Z.div_pos; lia|apply Z.div_le_upper_bound; lia]. }
  rewrite (wrap32_small (x1 - x0)), (wrap32_small (y1 - y0)) by lia.
  rewrite !wrap32_small by lia. reflexivity.
Qed.

(** The boxes of [VisibleBoundingBoxes] before the merge. *)
Lemma visible_boxes_spec buffer width height backgroundLabel :
  0 <= width < 2 ^ 32 -> 0 <= height < 2 ^ 32 ->
  exists boxes,
    visible_boxes buffer width height backgroundLabel ∅ = Some boxes /\
    forall id,
      match object_pixels buffer width height backgroundLabel id with
      | [] => boxes !! id = None
      | first :: rest =>
          exists x0 x1 y0 y1,
            Merger.is_minZ fst (first :: rest) x0 /\
            Merger.is_maxZ fst (first :: rest) x1 /\
            Merger.is_minZ snd (first :: rest) y0 /\
            Merger.is_maxZ snd (first :: rest) y1 /\
            boxes !! id =
              Some (extent_box x0 x1 y0 y1
                      (pixel_label buffer width (fst first) (snd first)))
      end.
Proof.
  intros HW HH. unfold visible_boxes, scan_visible.
  rewrite scan_row_major.
  destruct (visible_fold_boundary buffer width height backgroundLabel
              (row_major width height)) as (st & -> & Hst).
  cbn [mbind option_bind]. unfold finish_boxes.
  destruct (decide _) as [_|Hno].
  - eexists. split; [reflexivity|]. intros id.
    rewrite map_lookup_imap. destruct (Hst id) as [Hb Hd].
    cbn zeta in Hb, Hd. fold (object_pixels buffer width height
                                backgroundLabel id) in Hb, Hd.
    assert (Himg : forall p,
              In p (object_pixels buffer width height backgroundLabel id) ->
              0 <= fst p < width /\ 0 <= snd p < height).
    { intros p Hp. apply row_major_image.
      apply list_elem_of_In in Hp. apply list_elem_of_In.
      unfold object_pixels in Hp. now apply list_elem_of_filter in Hp. }
    destruct (object_pixels buffer width height backgroundLabel id)
      as [|first rest] eqn:Epix.
    + cbn in Hb. now rewrite Hb.
    + destruct (pixels_boundary_spec width height (first :: rest))
        as (M1 & M2 & M3 & M4); [discriminate|exact Himg|].
      set (bd := pixels_boundary width height (first :: rest)) in *.
      exists (minX bd), (maxX bd), (minY bd), (maxY bd).
      do 4 (split; [assumption|]).
      cbn in Hb. rewrite Hb, Hd. cbn [mbind option_bind fmap option_fmap option_map].
      f_equal.
      assert (Rx : 0 <= minX bd <= maxX bd /\ maxX bd < width).
      { destruct M1 as [L1 (a & Ha & Ea)], M2 as [U1 (c & Hc & Ec)].
        pose proof (L1 c Hc). pose proof (Himg a Ha). pose proof (Himg c Hc).
        lia. }
      assert (Ry : 0 <= minY bd <= maxY bd /\ maxY bd < height).
      { destruct M3 as [L1 (a & Ha & Ea)], M4 as [U1 (c & Hc & Ec)].
        pose proof (L1 c Hc). pose proof (Himg a Ha). pose proof (Himg c Hc).
        lia. }
      destruct bd as [bx0 by0 bx1 by1]. cbn [minX minY maxX maxY] in *.
      rewrite finish_box_extent by lia. reflexivity.
  - exfalso. apply Hno. cbn [boundingboxes boxesBoundary].
    intros id. rewrite !elem_of_dom. destruct (Hst id) as [Hb Hd].
    cbn zeta in Hb, Hd. rewrite Hb, Hd.
    destruct (filter _ _); cbn; intros [? H]; [discriminate H|eauto].
Qed.

Lemma object_pixels_image buffer width height backgroundLabel id p :
  In p (object_pixels buffer width height backgroundLabel id) ->
  0 <= fst p < width /\ 0 <= snd p < height.
Proof.
  intros Hp. apply row_major_image.
  apply list_elem_of_In in Hp. apply list_elem_of_In.
  unfold object_pixels in Hp. now apply list_elem_of_filter in Hp.
Qed.

(** X12.  [VisibleBoundingBoxes], before it merges the parts of
    multi-link models: from the empty maps of a new frame the two loops
    yield one box for each identifier that occurs on a non-background
    pixel, and none for any other identifier.  The box has the label of
    the first such pixel in row-major order; its size is the difference
    between the greatest and the least column, and between the greatest
    and the least row, of the pixels of the identifier, all of them
    columns and rows of the image, and its centre is the least column
    (row) plus half the size rounded down. *)
Theorem X12_visible_boxes_from_pixels buffer width height backgroundLabel :
  0 <= width < 2 ^ 32 -> 0 <= height < 2 ^ 32 ->
  exists boxes,
    visible_boxes buffer width height backgroundLabel ∅ = Some boxes /\
    forall id,
      match object_pixels buffer width height backgroundLabel id with
      | [] => boxes !! id = None
      | first :: rest =>
          exists x0 x1 y0 y1,
            Merger.is_minZ fst (first :: rest) x0 /\
            Merger.is_maxZ fst (first :: rest) x1 /\
            Merger.is_minZ snd (first :: rest) y0 /\
            Merger.is_maxZ snd (first :: rest) y1 /\
            0 <= x0 <= x1 /\ x1 < width /\ 0 <= y0 <= y1 /\ y1 < height /\
            boxes !! id =
              Some (extent_box x0 x1 y0 y1
                      (pixel_label buffer width (fst first) (snd first)))
      end.
Proof.
  intros HW HH.
  destruct (visible_boxes_spec buffer width height backgroundLabel HW HH)
    as (boxes & Hrun & Hboxes).
  exists boxes. split; [exact Hrun|]. intros id. specialize (Hboxes id).
  pose proof (object_pixels_image buffer width height backgroundLabel id)
    as Himg.
  destruct (object_pixels buffer width height backgroundLabel id)
    as [|first rest]; [exact Hboxes|].
  destruct Hboxes as (x0 & x1 & y0 & y1 & M1 & M2 & M3 & M4 & Hbox).
  exists x0, x1, y0, y1. do 4 (split; [assumption|]).
  destruct M1 as [L1 (a & Ha & Ea)], M2 as [U1 (c & Hc & Ec)].
  destruct M3 as [L3 (d & Hd & Ed)], M4 as [U3 (e & He & Ee)].
  pose proof (L1 c Hc). pose proof (L3 e He).
  pose proof (Himg a Ha). pose proof (Himg c Hc).
  pose proof (Himg d Hd). pose proof (Himg e He).
  repeat split; try lia. exact Hbox.
Qed.

(** An object 7 with label 5 on the second pixel of a row of two. *)
Lemma X12_witness :
  exists boxes,
    visible_boxes [0; 0; 9; 7; 0; 5] 2 1 9 ∅ = Some boxes /\
    boxes !! 7 = Some (extent_box 1 1 0 0 5).
Proof.
  destruct (X12_visible_boxes_from_pixels [0; 0; 9; 7; 0; 5] 2 1 9)
    as (boxes & E & H); [lia|lia|].
  exists boxes. split; [exact E|].
  specialize (H 7).
  change (object_pixels [0; 0; 9; 7; 0; 5] 2 1 9 7) with [(1, 0)] in H.
  destruct H as (x0 & x1 & y0 & y1 & [_ (a & Ha & ->)] & [_ (c & Hc & ->)]
                 & [_ (d & Hd & ->)] & [_ (e & He & ->)] & _ & _ & _ & _ & H).
  destruct Ha as [<-|[]], Hc as [<-|[]], Hd as [<-|[]], He as [<-|[]].
  exact H.
Defined.

(** The integer part of a rational between two consecutive integers. *)
Lemma Qfloor_unique (q : Q) (k : Z) :
  (inject_Z k <= q)%Q -> (q < inject_Z (k + 1))%Q -> Qfloor q = k.
Proof.
  intros H1 H2.
  pose proof (Qfloor_le q) as F1. pose proof (Qlt_floor q) as F2.
  assert (A : (inject_Z (Qfloor q) < inject_Z (k + 1))%Q)
    by (eapply Qle_lt_trans; eassumption).
  assert (B : (inject_Z k < inject_Z (Qfloor q + 1))%Q)
    by (eapply Qle_lt_trans; eassumption).
  rewrite <- Zlt_Qlt in A, B. lia.
Qed.

(** The corners of a box of extent [lo .. hi], converted to
    [uint32_t]. *)
Lemma extent_corner_real (lo hi : Z) :
  (inject_Z (lo + (hi - lo) / 2) - inject_Z (hi - lo) / 2 ==
   inject_Z lo - inject_Z ((hi - lo) mod 2) * (1 # 2))%Q /\
  (inject_Z (lo + (hi - lo) / 2) + inject_Z (hi - lo) / 2 ==
   inject_Z hi - inject_Z ((hi - lo) mod 2) * (1 # 2))%Q.
Proof.
  pose proof (Z.div_mod (hi - lo) 2 ltac:(lia)) as Hd.
  set (h := (hi - lo) / 2) in *. set (m := (hi - lo) mod 2) in *.
  split.
  - rewrite Hd. rewrite !inject_Z_plus, inject_Z_mult.
    change (inject_Z 2) with 2%Q. field.
  - replace hi with (lo + (hi - lo)) at 2 by lia.
    rewrite Hd. rewrite !inject_Z_plus, inject_Z_mult.
    change (inject_Z 2) with 2%Q. field.
Qed.

Lemma extent_corner_min (lo hi : Z) :
  0 <= lo <= hi -> hi < 2 ^ 32 ->
  to_uint32 (inject_Z (lo + (hi - lo) / 2) - inject_Z (hi - lo) / 2) =
  Z.max 0 (lo - (hi - lo) mod 2).
Proof.
  intros H1 H2.
  destruct (extent_corner_real lo hi) as [E _].
  pose proof (Z.mod_pos_bound (hi - lo) 2 ltac:(lia)) as Hm.
  set (q := (inject_Z (lo + (hi - lo) / 2) - inject_Z (hi - lo) / 2)%Q) in *.
  assert (L0 : (0 <= inject_Z lo)%Q) by (rewrite <- (Zle_Qle 0); lia).
  assert (L1 : (inject_Z lo <= inject_Z hi)%Q) by (rewrite <- Zle_Qle; lia).
  assert (Hcases : (hi - lo) mod 2 = 0 \/ (hi - lo) mod 2 = 1) by lia.
  destruct Hcases as [Em|Em]; rewrite Em in *.
  - change (inject_Z 0) with 0%Q in E.
    rewrite Z.sub_0_r, Z.max_r by lia.
    apply to_uint32_pixel; [lia|]. rewrite E. ring.
  - change (inject_Z 1) with 1%Q in E.
    destruct (Z.eq_dec lo 0) as [El|Hlo].
    + rewrite El in *. change (inject_Z 0) with 0%Q in E.
      destruct (to_uint32_between q 0) as (B & _);
        [rewrite E; lra|rewrite E; cbn; lra|lia|].
      cbn. lia.
    + rewrite Z.max_r by lia.
      assert (P : (1 <= inject_Z lo)%Q) by (rewrite <- (Zle_Qle 1); lia).
      destruct (to_uint32_between q hi) as (_ & _ & F);
        [rewrite E; lra|rewrite E; lra|lia|].
      rewrite F by (rewrite E; lra).
      apply Qfloor_unique; rewrite E.
      * unfold Z.sub. rewrite inject_Z_plus, inject_Z_opp.
        change (inject_Z 1) with 1%Q. lra.
      * replace (lo - 1 + 1) with lo by lia. lra.
Qed.

Lemma extent_corner_max (lo hi : Z) :
  0 <= lo <= hi -> hi < 2 ^ 32 ->
  to_uint32 (inject_Z (lo + (hi - lo) / 2) + inject_Z (hi - lo) / 2) =
  hi - (hi - lo) mod 2.
Proof.
  intros H1 H2.
  destruct (extent_corner_real lo hi) as [_ E].
  pose proof (Z.mod_pos_bound (hi - lo) 2 ltac:(lia)) as Hm.
  set (q := (inject_Z (lo + (hi - lo) / 2) + inject_Z (hi - lo) / 2)%Q) in *.
  assert (L0 : (0 <= inject_Z lo)%Q) by (rewrite <- (Zle_Qle 0); lia).
  assert (L1 : (inject_Z lo <= inject_Z hi)%Q) by (rewrite <- Zle_Qle; lia).
  assert (Hcases : (hi - lo) mod 2 = 0 \/ (hi - lo) mod 2 = 1) by lia.
  destruct Hcases as [Em|Em]; rewrite Em in *.
  - change (inject_Z 0) with 0%Q in E.
    rewrite Z.sub_0_r.
    apply to_uint32_pixel; [lia|]. rewrite E. ring.
  - change (inject_Z 1) with 1%Q in E.
    assert (Hhi : 1 <= hi).
    { destruct (Z.eq_dec hi 0) as [E0|]; [|lia].
      assert (lo = 0) by lia. subst. discriminate Em. }
    assert (P : (1 <= inject_Z hi)%Q) by (rewrite <- (Zle_Qle 1); lia).
    destruct (to_uint32_between q hi) as (_ & _ & F);
      [rewrite E; lra|rewrite E; lra|lia|].
    rewrite F by (rewrite E; lra).
    apply Qfloor_unique; rewrite E.
    + unfold Z.sub. rewrite inject_Z_plus, inject_Z_opp.
      change (inject_Z 1) with 1%Q. lra.
    + replace (hi - 1 + 1) with hi by lia. lra.
Qed.

(** X13.  The corners that [MergeBoxes2D] and [DrawBoundingBox] compute
    from a box that [VisibleBoundingBoxes] built for the columns x0 to
    x1 and the rows y0 to y1, as [uint32_t(center -/+ size / 2)]: they
    are x0, x1, y0 and y1 when the size x1 - x0 (y1 - y0) is even; when
    it is odd, the centre was rounded down and both corners come out
    one pixel lower, the lower one not below 0. *)
Theorem X13_visible_box_corners x0 x1 y0 y1 label :
  0 <= x0 <= x1 -> x1 < 2 ^ 32 -> 0 <= y0 <= y1 -> y1 < 2 ^ 32 ->
  Merger.boxMinX (extent_box x0 x1 y0 y1 label)
    = Z.max 0 (x0 - (x1 - x0) mod 2) /\
  Merger.boxMaxX (extent_box x0 x1 y0 y1 label) = x1 - (x1 - x0) mod 2 /\
  Merger.boxMinY (extent_box x0 x1 y0 y1 label)
    = Z.max 0 (y0 - (y1 - y0) mod 2) /\
  Merger.boxMaxY (extent_box x0 x1 y0 y1 label) = y1 - (y1 - y0) mod 2.
Proof.
  intros Hx Hx1 Hy Hy1.
  unfold Merger.boxMinX, Merger.boxMaxX, Merger.boxMinY, Merger.boxMaxY,
    extent_box. cbn [box_center box_size X3 Y3].
  rewrite !extent_corner_min, !extent_corner_max by assumption.
  auto.
Qed.

(** Columns 10 to 13 and rows 20 to 24: the size 3 is odd, the size 4
    is even. *)
Lemma X13_witness :
  Merger.boxMinX (extent_box 10 13 20 24 1) = 9 /\
  Merger.boxMaxX (extent_box 10 13 20 24 1) = 12 /\
  Merger.boxMinY (extent_box 10 13 20 24 1) = 20 /\
  Merger.boxMaxY (extent_box 10 13 20 24 1) = 24.
Proof.
  exact (X13_visible_box_corners 10 13 20 24 1
           ltac:(lia) ltac:(lia) ltac:(lia) ltac:(lia)).
Defined.

End VisibleBoxesProofs.

(** ** FullProjectionBuilder: the extent of a mesh *)

Section MinimalBoxProofs.
Import MinimalBox.








End MinimalBoxProofs.

(** ** MultiPartMerger: grouping by parent name *)

Section MultiLinksProofs.
Import MultiLinks.

(** *** The order of the names *)

Lemma ascii_compare_refl a : Ascii.compare a a = Eq.
Proof. unfold Ascii.compare. apply N.compare_refl. Qed.

Lemma ascii_compare_lt_trans a b c :
  Ascii.compare a b = Lt -> Ascii.compare b c = Lt -> Ascii.compare a c = Lt.
Proof.
  unfold Ascii.compare. rewrite !N.compare_lt_iff. apply N.lt_trans.
Qed.

Lemma name_compare_refl s : String.compare s s = Eq.
Proof.
  induction s as [|a s IH]; [reflexivity|].
  cbn. now rewrite ascii_compare_refl.
Qed.

Lemma name_lt_irrefl s : ~ name_lt s s.
Proof. unfold name_lt. now rewrite name_compare_refl. Qed.

Lemma name_lt_trans a b c : name_lt a b -> name_lt b c -> name_lt a c.
Proof.
  unfold name_lt. revert b c.
  induction a as [|a0 a IH]; intros [|b0 b] [|c0 c]; cbn;
    try discriminate; try reflexivity.
  destruct (Ascii.compare a0 b0) eqn:Eab; try discriminate;
    destruct (Ascii.compare b0 c0) eqn:Ebc; try discriminate.
  - apply Ascii.compare_eq_iff in Eab, Ebc. subst.
    rewrite ascii_compare_refl. apply IH.
  - apply Ascii.compare_eq_iff in Eab. subst. now rewrite Ebc.
  - apply Ascii.compare_eq_iff in Ebc. subst. now rewrite Eab.
  - now rewrite (ascii_compare_lt_trans _ _ _ Eab Ebc).
Qed.

Lemma name_compare_gt a b : String.compare a b = Gt -> name_lt b a.
Proof.
  unfold name_lt. intros H. rewrite String.compare_antisym, H. reflexivity.
Qed.

(** *** One insertion *)

Lemma push_back_at_spec parentName box (groups : Groups) :
  ordered groups ->
  ordered (push_back_at parentName box groups) /\
  ((~ In parentName (fst <$> groups) /\
    forall g, In g (push_back_at parentName box groups) <->
              (parentName, [box]) = g \/ In g groups) \/
   (exists boxes, In (parentName, boxes) groups /\
    forall g, In g (push_back_at parentName box groups) <->
              (parentName, boxes ++ [box]) = g \/
              (In g groups /\ fst g <> parentName))).
Proof.
  unfold ordered.
  induction groups as [|[name boxes] rest IH]; intros Hs.
  - cbn. split; [repeat constructor|].
    left. split; [tauto|]. intros g. tauto.
  - cbn [push_back_at]. cbn [fmap list_fmap fst] in Hs.
    apply StronglySorted_inv in Hs as [Hrest Hall].
    assert (Hkeys : forall g, In g rest -> name_lt name (fst g)).
    { intros g Hg. rewrite Forall_forall in Hall. apply Hall.
      apply list_elem_of_fmap. exists g.
      split; [reflexivity|now apply list_elem_of_In]. }
    destruct (String.compare parentName name) eqn:E.
    + (* the entry exists *)
      apply String.compare_eq_iff in E. subst name.
      split; [cbn; now constructor|].
      right. exists boxes. split; [now left|].
      intros g. cbn [In]. split.
      * intros [<-|Hg]; [now left|]. right. split; [now right|].
        intros Ek. apply (name_lt_irrefl parentName).
        rewrite <- Ek at 2. now apply Hkeys.
      * intros [<-|[[<-|Hg] Hne]]; [now left| |now right].
        cbn in Hne. congruence.
    + (* before the first entry *)
      split.
      * cbn. constructor; [now constructor|].
        constructor; [exact E|].
        eapply Forall_impl; [exact Hall|].
        intros k Hk. eapply name_lt_trans; eassumption.
      * left. split.
        -- cbn. intros [Ek|Hin].
           ++ subst name. now apply (name_lt_irrefl parentName).
           ++ rewrite Forall_forall in Hall.
              apply (name_lt_irrefl parentName).
              eapply name_lt_trans; [exact E|].
              apply Hall. now apply list_elem_of_In.
        -- intros g. cbn [In]. tauto.
    + (* further on *)
      apply name_compare_gt in E.
      assert (Hne : name <> parentName).
      { intros ->. now apply (name_lt_irrefl parentName). }
      destruct (IH Hrest) as [Hord Hcases].
      split.
      * cbn. constructor; [exact Hord|].
        apply Forall_forall. intros k Hk.
        apply list_elem_of_fmap in Hk as (g & -> & Hg).
        apply list_elem_of_In in Hg.
        destruct Hcases as [[_ Hc]|(bs & _ & Hc)]; apply Hc in Hg.
        -- destruct Hg as [<-|Hg]; [exact E|]. now apply Hkeys.
        -- destruct Hg as [<-|[Hg _]]; [exact E|]. now apply Hkeys.
      * destruct Hcases as [[Hnot Hc]|(bs & Hbs & Hc)].
        -- left. split.
           ++ cbn. intros [Ek|Hin]; [congruence|tauto].
           ++ intros g. cbn [In]. rewrite Hc. tauto.
        -- right. exists bs. split; [now right|].
           intros g. cbn [In]. rewrite Hc. split.
           ++ intros [<-|[<-|[Hg Hn]]]; [|now left|tauto].
              right. split; [now left|exact Hne].
           ++ intros [<-|[[<-|Hg] Hn]]; [tauto|now left|tauto].
Qed.

(** *** The loop over the boxes *)

(** The entries of [boundingboxes] are listed once each, in strictly
    ascending order of the identifiers. *)
Lemma entries_spec (boundingboxes : gmap Z BoundingBox) :
  StronglySorted (fun a b => fst a < fst b) (entries boundingboxes) /\
  forall id box, In (id, box) (entries boundingboxes) <->
                 boundingboxes !! id = Some box.
Proof.
  unfold entries.
  assert (Htrans : Transitive id_le) by (intros a b c; unfold id_le; lia).
  assert (Htotal : Total id_le) by (intros a b; unfold id_le; lia).
  pose proof (StronglySorted_merge_sort id_le (map_to_list boundingboxes))
    as Hs.
  pose proof (merge_sort_Permutation id_le (map_to_list boundingboxes))
    as Hp.
  assert (Hnd : NoDup (fst <$> merge_sort id_le (map_to_list boundingboxes))).
  { rewrite Hp. apply NoDup_fst_map_to_list. }
  split.
  - revert Hs Hnd. generalize (merge_sort id_le (map_to_list boundingboxes)).
    intros l. induction l as [|a l IH]; intros Hs Hnd; [constructor|].
    apply StronglySorted_inv in Hs as [Hs Hall].
    cbn in Hnd. apply NoDup_cons in Hnd as [Hnot Hnd].
    constructor; [now apply IH|].
    apply Forall_forall. intros b Hb.
    rewrite Forall_forall in Hall. specialize (Hall b Hb). unfold id_le in Hall.
    assert (fst a <> fst b); [|lia].
    intros E. apply Hnot. rewrite E. apply list_elem_of_fmap.
    exists b. split; [reflexivity|exact Hb].
  - intros id box. rewrite <- list_elem_of_In, Hp.
    apply elem_of_map_to_list.
Qed.

(** The boxes pushed for the name [n] by a list of entries. *)
Lemma group_snoc (ogreIdName : Z -> String.string)
    (es : list (Z * BoundingBox)) e n :
  snd <$> filter (fun box => ogreIdName (fst box) = n) (es ++ [e]) =
  (snd <$> filter (fun box => ogreIdName (fst box) = n) es) ++
  (if decide (ogreIdName (fst e) = n) then [snd e] else []).
Proof.
  rewrite filter_app, fmap_app. f_equal.
  destruct (decide (ogreIdName (fst e) = n)) as [E|E].
  - now rewrite filter_cons_True.
  - now rewrite filter_cons_False.
Qed.

(** After the first loop the map holds, for each parent name that
    occurs, the boxes of that name in the order of the loop, and no
    other entry. *)
Lemma fold_groups (ogreIdName : Z -> String.string)
    (es : list (Z * BoundingBox)) :
  let groups := foldl (fun groups box =>
                         push_back_at (ogreIdName (fst box)) (snd box) groups)
                      [] es in
  ordered groups /\
  (forall n g, In (n, g) groups ->
     g = snd <$> filter (fun box => ogreIdName (fst box) = n) es /\ g <> []) /\
  (forall n, snd <$> filter (fun box => ogreIdName (fst box) = n) es <> [] ->
     In n (fst <$> groups)).
Proof.
  induction es as [|e es IH] using rev_ind; cbn zeta.
  - cbn. split; [constructor|]. split; [intros ? ? []|congruence].
  - rewrite foldl_snoc. cbn zeta in IH.
    destruct IH as (Hord & Hin & Hall).
    match type of Hord with ordered ?G => set (groups := G) in * end.
    destruct (push_back_at_spec (ogreIdName (fst e)) (snd e) groups Hord)
      as [Hord' Hcases].
    split; [exact Hord'|].
    assert (Hkey : forall n g, In (n, g) groups -> In n (fst <$> groups)).
    { intros n g Hg. apply list_elem_of_In, list_elem_of_fmap.
      exists (n, g). split; [reflexivity|now apply list_elem_of_In]. }
    destruct Hcases as [[Hnot Hc]|(boxes & Hboxes & Hc)].
    + (* a new name *)
      assert (Hempty : snd <$> filter (fun box => ogreIdName (fst box)
                                         = ogreIdName (fst e)) es = []).
      { destruct (snd <$> filter _ es) eqn:Eg; [reflexivity|].
        exfalso. apply Hnot, Hall. rewrite Eg. discriminate. }
      split.
      * intros n g Hg. apply Hc in Hg. rewrite group_snoc.
        destruct Hg as [[= <- <-]|Hg].
        -- rewrite Hempty, decide_True by reflexivity.
           split; [reflexivity|discriminate].
        -- rewrite decide_False.
           ++ rewrite app_nil_r. now apply Hin.
           ++ intros E. apply Hnot. rewrite E. eapply Hkey; eauto.
      * intros n Hn. rewrite group_snoc in Hn.
        apply list_elem_of_In, list_elem_of_fmap.
        destruct (decide (ogreIdName (fst e) = n)) as [E|E].
        -- exists (ogreIdName (fst e), [snd e]). split; [now rewrite E|].
           apply list_elem_of_In, Hc. now left.
        -- rewrite app_nil_r in Hn. specialize (Hall n Hn).
           apply list_elem_of_In, list_elem_of_fmap in Hall as (g & -> & Hg).
           exists g. split; [reflexivity|].
           apply list_elem_of_In, Hc. right. now apply list_elem_of_In.
    + (* a name that has an entry *)
      destruct (Hin _ _ Hboxes) as [Eb Hne].
      split.
      * intros n g Hg. apply Hc in Hg. rewrite group_snoc.
        destruct Hg as [[= <- <-]|[Hg Hn]].
        -- rewrite decide_True by reflexivity. rewrite <- Eb.
           split; [reflexivity|]. now destruct boxes.
        -- cbn in Hn. rewrite decide_False by congruence.
           rewrite app_nil_r. now apply Hin.
      * intros n Hn. rewrite group_snoc in Hn.
        apply list_elem_of_In, list_elem_of_fmap.
        destruct (decide (ogreIdName (fst e) = n)) as [E|E].
        -- exists (ogreIdName (fst e), boxes ++ [snd e]).
           split; [now rewrite E|]. apply list_elem_of_In, Hc. now left.
        -- rewrite app_nil_r in Hn. specialize (Hall n Hn).
           apply list_elem_of_In, list_elem_of_fmap in Hall as (g & -> & Hg).
           exists g. split; [reflexivity|].
           apply list_elem_of_In, Hc. right.
           split; [now apply list_elem_of_In|congruence].
Qed.

Lemma Forall2_In_l {A B} (P : A -> B -> Prop) (l : list A) (k : list B) :
  Forall2 P l k -> Forall2 (fun x y => In x l /\ P x y) l k.
Proof.
  induction 1 as [|x y l k Hxy _ IH]; constructor.
  - split; [now left|exact Hxy].
  - eapply Forall2_impl; [exact IH|]. cbn. intros a b [Ha Hab].
    split; [now right|exact Hab].
Qed.

Lemma MergeBoxes2D_nonempty type (boxes : list BoundingBox) :
  boxes <> [] -> is_Some (Merger.MergeBoxes2D type boxes).
Proof. destruct boxes as [|a [|b rest]]; [congruence|eauto..]. Qed.

(** The output of [MergeMultiLinksModels2D] in a new frame. *)
Lemma merge_multi_links_spec type (ogreIdName : Z -> String.string)
    (boundingboxes : gmap Z BoundingBox) :
  exists names outputBoxes,
    MergeMultiLinksModels2D type ogreIdName boundingboxes [] []
      = Some outputBoxes /\
    StronglySorted name_lt names /\
    (forall n, In n names <->
       exists id, is_Some (boundingboxes !! id) /\ ogreIdName id = n) /\
    Forall2 (fun n box =>
               parts ogreIdName boundingboxes n <> [] /\
               Merger.MergeBoxes2D type (parts ogreIdName boundingboxes n)
                 = Some box)
            (reverse names) outputBoxes /\
    StronglySorted (fun a b => fst a < fst b) (entries boundingboxes) /\
    (forall id box, In (id, box) (entries boundingboxes) <->
                    boundingboxes !! id = Some box).
Proof.
  destruct (entries_spec boundingboxes) as [Hsorted Hmem].
  destruct (fold_groups ogreIdName (entries boundingboxes))
    as (Hord & Hin & Hall). cbn zeta in *.
  unfold MergeMultiLinksModels2D.
  match type of Hord with ordered ?G => set (groups := G) in * end.
  assert (Hsome : is_Some (mapM (fun nameToBoxes =>
                              Merger.MergeBoxes2D type (snd nameToBoxes))
                             groups)).
  { apply mapM_is_Some, Forall_forall. intros [n g] Hg. cbn.
    apply MergeBoxes2D_nonempty. apply list_elem_of_In in Hg.
    now destruct (Hin n g Hg). }
  destruct Hsome as [merged Hm]. rewrite Hm. cbn [mbind option_bind app].
  exists (fst <$> groups), (reverse merged).
  split; [reflexivity|]. split; [exact Hord|]. split; [|split; [|split]].
  - intros n. split.
    + intros Hn. apply list_elem_of_In, list_elem_of_fmap in Hn
        as ([n' g] & -> & Hg).
      apply list_elem_of_In in Hg. destruct (Hin _ _ Hg) as [Eg Hne].
      cbn [fst].
      destruct (filter _ (entries boundingboxes)) as [|[id box] rest] eqn:Ef;
        [subst g; cbn in Hne; congruence|].
      assert (Hf : (id, box) ∈ filter
                (fun box => ogreIdName (fst box) = n') (entries boundingboxes))
        by (rewrite Ef; now left).
      apply list_elem_of_filter in Hf as [Hname Hid]. cbn in Hname.
      exists id. split; [|exact Hname].
      exists box. apply Hmem. now apply list_elem_of_In.
    + intros (id & [box Hbox] & Hname). apply Hall.
      apply Hmem in Hbox.
      assert (Hf : (id, box) ∈ filter
                (fun box => ogreIdName (fst box) = n) (entries boundingboxes)).
      { apply list_elem_of_filter. split; [exact Hname|].
        now apply list_elem_of_In. }
      intros E. apply (f_equal length) in E.
      rewrite length_fmap in E. cbn in E.
      apply length_zero_iff_nil in E. rewrite E in Hf.
      now apply not_elem_of_nil in Hf.
  - rewrite <- fmap_reverse. apply Forall2_fmap_l.
    apply Forall2_reverse. apply mapM_Some in Hm.
    apply Forall2_In_l in Hm.
    eapply Forall2_impl; [exact Hm|]. cbn.
    intros [n g] box [Hg Hbox]. cbn [fst snd] in *.
    destruct (Hin _ _ Hg) as [Eg Hne]. unfold parts. rewrite <- Eg.
    split; assumption.
  - exact Hsorted.
  - exact Hmem.
Qed.

Lemma NoDup_all_equal {A} (l : list A) (a : A) :
  NoDup l -> (forall x, x ∈ l -> x = a) -> a ∈ l -> l = [a].
Proof.
  intros Hnd Hall Hin. destruct l as [|x [|y r]].
  - now apply not_elem_of_nil in Hin.
  - f_equal. apply Hall. now left.
  - exfalso. apply NoDup_cons in Hnd as [Hnot _]. apply Hnot.
    rewrite (Hall x) by now left.
    rewrite (Hall y) by (right; now left). now left.
Qed.

Lemma sorted_entries_NoDup (l : list (Z * BoundingBox)) :
  StronglySorted (fun a b => fst a < fst b) l -> NoDup l.
Proof.
  induction 1 as [|a l _ IH Hall]; constructor; [|exact IH].
  intros Hin. rewrite Forall_forall in Hall. specialize (Hall a Hin). lia.
Qed.

Lemma sorted_names_NoDup (l : list String.string) :
  StronglySorted name_lt l -> NoDup l.
Proof.
  induction 1 as [|a l _ IH Hall]; constructor; [|exact IH].
  intros Hin. rewrite Forall_forall in Hall.
  now apply (name_lt_irrefl a), Hall.
Qed.

(** A box whose parent name no other box has is the only part of its
    model. *)
Lemma parts_single (ogreIdName : Z -> String.string)
    (boundingboxes : gmap Z BoundingBox) id box :
  boundingboxes !! id = Some box ->
  (forall id', is_Some (boundingboxes !! id') ->
               ogreIdName id' = ogreIdName id -> id' = id) ->
  parts ogreIdName boundingboxes (ogreIdName id) = [box].
Proof.
  intros Hbox Hown. destruct (entries_spec boundingboxes) as [Hes Hmem].
  unfold parts.
  rewrite (NoDup_all_equal
             (filter (fun box => ogreIdName (fst box) = ogreIdName id)
                     (entries boundingboxes)) (id, box)); [reflexivity| | |].
  - apply NoDup_filter. now apply sorted_entries_NoDup.
  - intros [id' b'] Hf. apply list_elem_of_filter in Hf as [Hname Hin].
    cbn in Hname. apply list_elem_of_In, Hmem in Hin.
    assert (id' = id) by (apply Hown; [eauto|exact Hname]).
    subst id'. congruence.
  - apply list_elem_of_filter. split; [reflexivity|].
    apply list_elem_of_In, Hmem. exact Hbox.
Qed.

(** Such a box is in the output as it is. *)
Lemma merge_single_part type (ogreIdName : Z -> String.string)
    (boundingboxes : gmap Z BoundingBox) outputBoxes id box :
  MergeMultiLinksModels2D type ogreIdName boundingboxes [] []
    = Some outputBoxes ->
  boundingboxes !! id = Some box ->
  (forall id', is_Some (boundingboxes !! id') ->
               ogreIdName id' = ogreIdName id -> id' = id) ->
  In box outputBoxes.
Proof.
  intros Hrun Hbox Hown.
  destruct (merge_multi_links_spec type ogreIdName boundingboxes)
    as (names & out & Hrun' & _ & Hnames & Hout & _).
  assert (out = outputBoxes) as -> by congruence.
  assert (Hn : ogreIdName id ∈ reverse names).
  { apply elem_of_reverse, list_elem_of_In, Hnames.
    exists id. split; [eauto|reflexivity]. }
  apply list_elem_of_lookup in Hn as [i Hi].
  destruct (Forall2_lookup_l _ _ _ _ _ Hout Hi) as (b & Hb & _ & Hm).
  rewrite (parts_single _ _ _ _ Hbox Hown) in Hm. cbn in Hm.
  injection Hm as <-.
  apply list_elem_of_In. eapply list_elem_of_lookup_2. exact Hb.
Qed.

(** X15.  [MergeMultiLinksModels2D] at the start of a frame, when
    [parentNameToBoxes] and [outputBoxes] are empty: the call never
    merges an empty group, and it puts into [outputBoxes] one box for
    each parent name that some box of [boundingboxes] has, in descending
    order of the names: the result of [MergeBoxes2D] on the boxes of
    that name, taken in ascending order of their identifiers.  A box
    whose parent name no other box has is in the output as it is. *)
Theorem X15_merge_multi_links type (ogreIdName : Z -> String.string)
    (boundingboxes : gmap Z BoundingBox) :
  exists names outputBoxes,
    MergeMultiLinksModels2D type ogreIdName boundingboxes [] []
      = Some outputBoxes /\
    StronglySorted name_lt names /\
    length outputBoxes = length names /\
    (forall n, In n names <->
       exists id, is_Some (boundingboxes !! id) /\ ogreIdName id = n) /\
    Forall2 (fun n box =>
               parts ogreIdName boundingboxes n <> [] /\
               Merger.MergeBoxes2D type (parts ogreIdName boundingboxes n)
                 = Some box)
            (reverse names) outputBoxes /\
    StronglySorted (fun a b => fst a < fst b) (entries boundingboxes) /\
    (forall id box, In (id, box) (entries boundingboxes) <->
                    boundingboxes !! id = Some box) /\
    (forall id box,
       boundingboxes !! id = Some box ->
       (forall id', is_Some (boundingboxes !! id') ->
                    ogreIdName id' = ogreIdName id -> id' = id) ->
       In box outputBoxes).
Proof.
  destruct (merge_multi_links_spec type ogreIdName boundingboxes)
    as (names & outputBoxes & Hrun & Hsorted & Hnames & Hout & Hes & Hmem).
  exists names, outputBoxes.
  split; [exact Hrun|]. split; [exact Hsorted|]. split.
  { apply Forall2_length in Hout. rewrite length_reverse in Hout. lia. }
  do 4 (split; [assumption|]).
  intros id box Hbox Hown.
  exact (merge_single_part type ogreIdName boundingboxes outputBoxes id box
           Hrun Hbox Hown).
Qed.

(** Two parts of the model "a" and one part of the model "b": the
    output holds two boxes, the first of them the box of "b". *)
Lemma X15_witness :
  exists outputBoxes,
    MergeMultiLinksModels2D BBT_VISIBLEBOX2D three_names three_boxes [] []
      = Some outputBoxes /\
    length outputBoxes = 2%nat /\
    In (Merger.box2d BBT_VISIBLEBOX2D 50 50 2 2 9) outputBoxes.
Proof.
  destruct (X15_merge_multi_links BBT_VISIBLEBOX2D three_names three_boxes)
    as (names & outputBoxes & Hrun & _ & _ & _ & _ & _ & _ & Hone).
  exists outputBoxes. split; [exact Hrun|]. split.
  - revert Hrun. vm_compute. intros [= <-]. reflexivity.
  - apply (Hone 3); [reflexivity|].
    intros id' [b Hb] Hname. unfold three_boxes in Hb.
    destruct (decide (id' = 1)) as [->|H1]; [discriminate Hname|].
    destruct (decide (id' = 2)) as [->|H2]; [discriminate Hname|].
    destruct (decide (id' = 3)) as [->|H3]; [reflexivity|].
    rewrite !lookup_insert_ne, lookup_empty in Hb by congruence.
    discriminate Hb.
Defined.

End MultiLinksProofs.

(** ** FullBoundingBoxes: the loop over the items *)

Section FullBoxesProofs.
Import Scanner FullBoxes.

(** Every box that the loop over the items stores belongs to an item
    that passed the three tests. *)
Lemma item_loop_spec width height label0 (visibleBoxesLabel : gmap Z Z)
    (items : list Item) :
  forall id box,
    foldl (item_step width height label0 visibleBoxesLabel) ∅ items !! id
      = Some box ->
    is_Some (visibleBoxesLabel !! id) /\
    exists item, In item items /\ item_id item = id /\
                 item_isVisible item = true /\
                 MinimalBox.item_box width height label0 (item_vertices item)
                   = Some box.
Proof.
  induction items as [|item items IH] using rev_ind; intros id box H.
  - cbn in H. now rewrite lookup_empty in H.
  - rewrite foldl_snoc in H. unfold item_step at 1 in H.
    assert (Hold : forall b,
              foldl (item_step width height label0 visibleBoxesLabel) ∅ items
                !! id = Some b ->
              is_Some (visibleBoxesLabel !! id) /\
              exists item0, In item0 (items ++ [item]) /\ item_id item0 = id /\
                item_isVisible item0 = true /\
                MinimalBox.item_box width height label0 (item_vertices item0)
                  = Some b).
    { intros b Hb. destruct (IH id b Hb) as (Hv & it & Hin & Hrest).
      split; [exact Hv|]. exists it. split; [|exact Hrest].
      apply in_or_app. now left. }
    destruct (visibleBoxesLabel !! item_id item) as [l|] eqn:Hl;
      [|now apply Hold].
    destruct (item_isVisible item) eqn:Hvis; cbn [negb] in H;
      [|now apply Hold].
    destruct (MinimalBox.item_box width height label0 (item_vertices item))
      as [b|] eqn:Hb; [|now apply Hold].
    destruct (decide (item_id item = id)) as [E|E].
    + rewrite E, lookup_insert_eq in H. injection H as <-.
      split; [rewrite <- E, Hl; eauto|].
      exists item. split; [apply in_or_app; right; now left|]. auto.
    + rewrite lookup_insert_ne in H by assumption. now apply Hold.
Qed.

(** An item that passes the three tests has a box when the loop ends. *)
Lemma item_loop_complete width height label0 (visibleBoxesLabel : gmap Z Z)
    (items : list Item) item :
  In item items -> is_Some (visibleBoxesLabel !! item_id item) ->
  item_isVisible item = true ->
  is_Some (MinimalBox.item_box width height label0 (item_vertices item)) ->
  is_Some (foldl (item_step width height label0 visibleBoxesLabel) ∅ items
             !! item_id item).
Proof.
  intros Hin [l Hl] Hvis [b Hb].
  induction items as [|it items IH] using rev_ind; [destruct Hin|].
  rewrite foldl_snoc. unfold item_step at 1.
  apply in_app_or in Hin as [Hin|[->|[]]].
  - specialize (IH Hin).
    destruct (visibleBoxesLabel !! item_id it); [|exact IH].
    destruct (negb (item_isVisible it)); [exact IH|].
    destruct (MinimalBox.item_box _ _ _ (item_vertices it)); [|exact IH].
    destruct (decide (item_id it = item_id item)) as [E|E].
    + rewrite E, lookup_insert_eq. eauto.
    + now rewrite lookup_insert_ne.
  - rewrite Hl, Hvis, Hb. cbn. rewrite lookup_insert_eq. eauto.
Qed.

Lemma full_box_type width height label minVertex maxVertex box :
  FullBox.full_box width height label minVertex maxVertex = Some box ->
  box_type box = BBT_FULLBOX2D.
Proof.
  unfold FullBox.full_box. destruct (FullBox.discards _ _); [discriminate|].
  destruct (FullBox.ConvertToScreenCoord _ _ _ _). intros [= <-]. reflexivity.
Qed.

(** X16.  [FullBoundingBoxes], before it merges the parts of multi-link
    models, in a new frame: a box is stored for an identifier only when
    the identifier occurs on a non-background pixel of the buffer, the
    camera sees the bounding box of an item with that identifier, and
    the extent of the mesh of that item passes the off-screen test; the
    box has type BBT_FULLBOX2D and the label of the first non-background
    pixel with the identifier in row-major order.  Conversely every item
    that meets the three conditions has a box. *)
Theorem X16_full_boxes_only_for_visible_items buffer width height
    backgroundLabel label0 (items : list Item) :
  (forall id box,
     full_boxes buffer width height backgroundLabel label0 items !! id
       = Some box ->
     first_seen_label buffer width backgroundLabel
       (row_major width height) id = Some (box_label box) /\
     box_type box = BBT_FULLBOX2D /\
     exists item box0,
       In item items /\ item_id item = id /\ item_isVisible item = true /\
       MinimalBox.item_box width height label0 (item_vertices item)
         = Some box0 /\
       box = with_label box0 (box_label box)) /\
  (forall item,
     In item items ->
     is_Some (first_seen_label buffer width backgroundLabel
                (row_major width height) (item_id item)) ->
     item_isVisible item = true ->
     is_Some (MinimalBox.item_box width height label0 (item_vertices item)) ->
     is_Some (full_boxes buffer width height backgroundLabel label0 items
                !! item_id item)).
Proof.
  assert (Hmark : forall id,
            MarkVisibleBoxes buffer width height backgroundLabel ∅ !! id =
            first_seen_label buffer width backgroundLabel
              (row_major width height) id).
  { intros id. unfold MarkVisibleBoxes.
    rewrite scan_row_major, mark_fold. now rewrite lookup_empty. }
  split.
  - intros id box H. unfold full_boxes, set_labels in H.
    rewrite map_lookup_imap in H.
    destruct (foldl _ ∅ items !! id) as [b0|] eqn:Hb0; [|discriminate H].
    cbn in H. injection H as <-.
    destruct (item_loop_spec _ _ _ _ _ _ _ Hb0)
      as ([l Hl] & item & Hin & Hid & Hvis & Hbox).
    rewrite Hl. cbn [default with_label box_label box_type].
    split; [now rewrite <- Hmark|]. split.
    + unfold MinimalBox.item_box in Hbox.
      destruct (MinimalBox.MeshMinimalBox _) as [lo hi].
      eapply full_box_type; eassumption.
    + exists item, b0. auto.
  - intros item Hin Hseen Hvis Hbox. unfold full_boxes, set_labels.
    rewrite map_lookup_imap.
    destruct (item_loop_complete width height label0
                (MarkVisibleBoxes buffer width height backgroundLabel ∅)
                items item Hin) as [b Hb]; [now rewrite Hmark|assumption..|].
    rewrite Hb. cbn. eauto.
Qed.

(** One item, with identifier 7, seen by the camera, whose mesh is one
    vertex at the centre of the clip range; the buffer shows object 7 on
    the second pixel of a row of two. *)
Lemma X16_witness :
  is_Some (full_boxes [0; 0; 9; 7; 0; 5] 2 1 9 0
             [MkItem 7 true [Vec3d 0 0 (-1)]] !! 7).
Proof.
  apply (proj2 (X16_full_boxes_only_for_visible_items
                  [0; 0; 9; 7; 0; 5] 2 1 9 0
                  [MkItem 7 true [Vec3d 0 0 (-1)]])
               (MkItem 7 true [Vec3d 0 0 (-1)])).
  - now left.
  - vm_compute. eauto.
  - reflexivity.
  - vm_compute. eauto.
Defined.

End FullBoxesProofs.

(** ** VisibleBoundingBoxes: from the buffer to the output *)

Section VisibleBoundingBoxesProofs.
Import Scanner VisibleBoxes MultiLinks.

(** X17.  [VisibleBoundingBoxes] in a new frame, for any buffer: the
    call returns; it dereferences no missing boundary and merges no
    empty group.  It yields as many boxes as there are different parent
    names among the identifiers that occur on non-background pixels.
    An object that shares its parent name with no other such identifier
    appears in the output with the box of its own pixels: the size is
    the difference of its extreme columns and rows, the label that of
    its first pixel. *)
Theorem X17_VisibleBoundingBoxes_output buffer width height backgroundLabel
    type (ogreIdName : Z -> String.string) :
  0 <= width < 2 ^ 32 -> 0 <= height < 2 ^ 32 ->
  exists outputBoxes,
    VisibleBoundingBoxes buffer width height backgroundLabel type ogreIdName
      = Some outputBoxes /\
    (exists names,
       NoDup names /\ length outputBoxes = length names /\
       forall n, In n names <->
         exists id, object_pixels buffer width height backgroundLabel id <> []
                    /\ ogreIdName id = n) /\
    (forall id first rest,
       object_pixels buffer width height backgroundLabel id = first :: rest ->
       (forall id',
          object_pixels buffer width height backgroundLabel id' <> [] ->
          ogreIdName id' = ogreIdName id -> id' = id) ->
       exists x0 x1 y0 y1,
         Merger.is_minZ fst (first :: rest) x0 /\
         Merger.is_maxZ fst (first :: rest) x1 /\
         Merger.is_minZ snd (first :: rest) y0 /\
         Merger.is_maxZ snd (first :: rest) y1 /\
         In (extent_box x0 x1 y0 y1
               (pixel_label buffer width (fst first) (snd first)))
            outputBoxes).
Proof.
  intros HW HH. unfold VisibleBoundingBoxes.
  destruct (visible_boxes_spec buffer width height backgroundLabel HW HH)
    as (boxes & -> & Hboxes). cbn [mbind option_bind].
  destruct (merge_multi_links_spec type ogreIdName boxes)
    as (names & outputBoxes & Hrun & Hsorted & Hnames & Hout & Hes & Hmem).
  rewrite Hrun.
  assert (Hvis : forall id, is_Some (boxes !! id) <->
            object_pixels buffer width height backgroundLabel id <> []).
  { intros id. specialize (Hboxes id).
    destruct (object_pixels buffer width height backgroundLabel id).
    - rewrite Hboxes. split; [intros [? H]; discriminate H|congruence].
    - destruct Hboxes as (? & ? & ? & ? & _ & _ & _ & _ & ->).
      split; [discriminate|eauto]. }
  exists outputBoxes. split; [reflexivity|]. split.
  - exists names. split; [now apply sorted_names_NoDup|]. split.
    + apply Forall2_length in Hout. rewrite length_reverse in Hout. lia.
    + intros n. rewrite Hnames. split; intros (id & H1 & H2); exists id;
        (split; [now apply Hvis|exact H2]).
  - intros id first rest Hpix Hown.
    pose proof (Hboxes id) as Hb. rewrite Hpix in Hb.
    destruct Hb as (x0 & x1 & y0 & y1 & M1 & M2 & M3 & M4 & Hb).
    exists x0, x1, y0, y1. do 4 (split; [assumption|]).
    set (b := extent_box x0 x1 y0 y1
                (pixel_label buffer width (fst first) (snd first))) in *.
    apply (merge_single_part type ogreIdName boxes outputBoxes id b Hrun Hb).
    intros id' Hsome Hname. apply Hown; [now apply Hvis|exact Hname].
Qed.

(** One object, with identifier 7 and label 5, on the second pixel of
    a row of two: one box, of size 0, at that pixel. *)
Lemma X17_witness :
  exists outputBoxes,
    VisibleBoundingBoxes [0; 0; 9; 7; 0; 5] 2 1 9 BBT_VISIBLEBOX2D
      (fun _ => String.EmptyString) = Some outputBoxes /\
    length outputBoxes = 1%nat.
Proof.
  destruct (X17_VisibleBoundingBoxes_output [0; 0; 9; 7; 0; 5] 2 1 9
              BBT_VISIBLEBOX2D (fun _ => String.EmptyString))
    as (outputBoxes & E & _ & _); [lia|lia|].
  exists outputBoxes. split; [exact E|].
  revert E. vm_compute. intros [= <-]. reflexivity.
Defined.

End VisibleBoundingBoxesProofs.
